(** * Online/batch LDA (gensim [models/ldamodel.py]): a shallow embedding

    The development follows the source file top-down: numeric arrays, the
    sufficient-statistics accumulator [LdaState], the per-document E-step of
    [LdaModel.inference], the hyper-parameter step [update_alpha], the M-step
    [do_mstep] and the orchestrator [update].

    Numbers.  The source computes with IEEE doubles.  Here a float is an exact
    rational ([Qc], rationals in lowest terms, so that equality is Leibniz
    equality) and the transcendental functions of scipy/numpy ([psi],
    [polygamma], [exp], [pow]) are parameters of the sections that use
    them.  Python's scalar division raises [ZeroDivisionError] on a zero
    divisor; it is modelled by [py_div], which is partial.  Where a statement
    depends on the rounding of the doubles ([LdaState.merge]), the arrays are
    modelled a second time with binary64 floats. *)

From Stdlib Require Import ZArith QArith Qcanon Qcabs List Lia Bool String.
From Stdlib Require Import Floats.
From stdpp Require Import base list gmap numbers.

Open Scope Qc_scope.

(** ** Exceptions and results *)

Inductive exn : Type :=
| ZeroDivisionError
| ValueError (msg : string)
| RuntimeError (msg : string)
| AttributeError (msg : string)
| IndexError
| KeyError.

Inductive result (A : Type) : Type :=
| Ok (a : A)
| Raise (e : exn).

Arguments Ok {A} a.
Arguments Raise {A} e.

Definition rbind {A B : Type} (r : result A) (k : A -> result B) : result B :=
  match r with
  | Ok a => k a
  | Raise e => Raise e
  end.

Notation "'let?' x ':=' r 'in' k" := (rbind r (fun x => k))
  (at level 10, x pattern, r at level 100, k at level 200).

(** ** Scalars *)

Definition Z2Qc (z : Z) : Qc := Q2Qc (inject_Z z).

(** [x / y] on Python scalars. *)
Definition py_div (x y : Qc) : result Qc :=
  if bool_decide (y = 0) then Raise ZeroDivisionError else Ok (x / y).

Definition Qcltb (x y : Qc) : bool := bool_decide (x < y).

(** ** Arrays

    A 1-d array is a list, a 2-d array a list of rows.  The element-wise
    operations below are used on operands of one and the same shape, as the
    source does ([LdaState.__init__] allocates [numpy.zeros(shape)] and every
    caller passes the model's shape); the theorems carry that as
    [mat_shape]/[length] hypotheses. *)

Abbreviation vec := (list Qc).
Abbreviation matrix := (list (list Qc)).

Definition vec_add (u v : vec) : vec := zip_with Qcplus u v.
Definition vec_sub (u v : vec) : vec := zip_with Qcminus u v.
Definition vec_mul (u v : vec) : vec := zip_with Qcmult u v.
Definition vec_scale (c : Qc) (v : vec) : vec := map (Qcmult c) v.
Definition vec_sum (v : vec) : Qc := foldr Qcplus 0 v.

Definition mat_add (A B : matrix) : matrix := zip_with vec_add A B.
Definition mat_mul (A B : matrix) : matrix := zip_with vec_mul A B.
Definition mat_scale (c : Qc) (A : matrix) : matrix := map (vec_scale c) A.
Definition mat_const (K W : nat) (c : Qc) : matrix := replicate K (replicate W c).
Definition zeros (K W : nat) : matrix := mat_const K W 0.

Definition mat_shape (K W : nat) (A : matrix) : Prop :=
  length A = K /\ Forall (fun r => length r = W) A.

(** ** [LdaState]

    [eta] is either an immutable Python float or a reference to a numpy array
    living in the heap (arrays are mutable and shared by reference). *)

Definition loc := nat.

Inductive eta_val : Type :=
| EtaFloat (x : Qc)
| EtaArray (l : loc).

Record LdaState : Type := mkState {
  eta : eta_val;
  sstats : matrix;
  numdocs : Z
}.

(** [LdaState.__init__] *)
Definition LdaState_init (e : eta_val) (K W : nat) : LdaState :=
  {| eta := e; sstats := zeros K W; numdocs := 0 |}.

(** [LdaState.reset] *)
Definition reset (self : LdaState) : LdaState :=
  {| eta := eta self; sstats := mat_scale 0 (sstats self); numdocs := 0 |}.

(** [LdaState.merge]: [self.sstats += other.sstats; self.numdocs += other.numdocs].
    The result is the new value of [self].  The sums are those of exact
    arithmetic here; [merge64] below has them rounded as the doubles are. *)
Definition merge (self other : LdaState) : LdaState :=
  {| eta := eta self;
     sstats := mat_add (sstats self) (sstats other);
     numdocs := numdocs self + numdocs other |}.

(** [LdaState.merge] in double precision.  [sstats] is a float64 array
    ([numpy.zeros(shape)]) and [numdocs] a Python int, so
    [self.sstats += other.sstats] is one IEEE-754 binary64 addition per
    entry, rounded to nearest, and [self.numdocs += other.numdocs] is exact.
    The pair (sstats, numdocs) of a state, with the entries as binary64
    floats: *)
Abbreviation matrix64 := (list (list float)).

Record LdaState64 : Type := mkState64 {
  sstats64 : matrix64;
  numdocs64 : Z
}.

Definition mat_add64 (A B : matrix64) : matrix64 :=
  zip_with (zip_with PrimFloat.add) A B.

Definition merge64 (self other : LdaState64) : LdaState64 :=
  {| sstats64 := mat_add64 (sstats64 self) (sstats64 other);
     numdocs64 := numdocs64 self + numdocs64 other |}.

Definition mat_get64 (A : matrix64) (k w : nat) : option float :=
  match A !! k with
  | Some row => row !! w
  | None => None
  end.

Definition mat_shape64 (K W : nat) (A : matrix64) : Prop :=
  length A = K /\ Forall (fun r => length r = W) A.

(** A state of one topic over one term. *)
Definition state64_1x1 (x : float) (n : Z) : LdaState64 :=
  mkState64 ((x :: nil) :: nil) n.

(** The doubles nearest to [0.1], [0.2] and [0.3]. *)
Definition f64_0_1 : float := 0x1.999999999999ap-4%float.
Definition f64_0_2 : float := 0x1.999999999999ap-3%float.
Definition f64_0_3 : float := 0x1.3333333333333p-2%float.

(** The stretch factor of [LdaState.blend]; the source has this conditional
    twice, once for [self.numdocs] and once for [other.numdocs]. *)
Definition blend_scale (targetsize n : Z) : result Qc :=
  if (n =? 0)%Z || (targetsize =? n)%Z then Ok 1
  else py_div (1 * Z2Qc targetsize) (Z2Qc n).

(** [LdaState.blend] *)
Definition blend (self : LdaState) (rhot : Qc) (other : LdaState)
    (targetsize : option Z) : result LdaState :=
  let targetsize := match targetsize with
                    | None => numdocs self
                    | Some t => t
                    end in
  let? scale := blend_scale targetsize (numdocs self) in
  let sstats1 := mat_scale ((1 - rhot) * scale) (sstats self) in
  let? scale := blend_scale targetsize (numdocs other) in
  let sstats2 := mat_add sstats1 (mat_scale (rhot * scale) (sstats other)) in
  Ok {| eta := eta self; sstats := sstats2; numdocs := targetsize |}.

(** [LdaState.blend2] *)
Definition blend2 (self : LdaState) (rhot : Qc) (other : LdaState)
    (targetsize : option Z) : LdaState :=
  let targetsize := match targetsize with
                    | None => numdocs self
                    | Some t => t
                    end in
  {| eta := eta self;
     sstats := mat_add (sstats self) (sstats other);
     numdocs := targetsize |}.

Definition mat_get (A : matrix) (k w : nat) : option Qc :=
  match A !! k with
  | Some row => row !! w
  | None => None
  end.

(** The update of [sstats] as the specification words it (section 4.2): scale
    [self.sstats] by [(1-rho)*(target/numdocs)], treating [numdocs = 0] as
    scale [1]; scale [other.sstats] by [rho*(target/other.numdocs)]; add.
    Named apart from [blend], which is the code. *)
Definition blend_as_specified (self : LdaState) (rhot : Qc) (other : LdaState)
    (targetsize : option Z) : LdaState :=
  let target := match targetsize with
                | None => numdocs self
                | Some t => t
                end in
  let scale_self := if (numdocs self =? 0)%Z then 1
                    else Z2Qc target / Z2Qc (numdocs self) in
  let scale_other := Z2Qc target / Z2Qc (numdocs other) in
  {| eta := eta self;
     sstats := mat_add (mat_scale ((1 - rhot) * scale_self) (sstats self))
                       (mat_scale (rhot * scale_other) (sstats other));
     numdocs := target |}.


(** ** numpy helpers used by the model *)

Fixpoint rmapM {A B : Type} (f : A -> result B) (l : list A) : result (list B) :=
  match l with
  | nil => Ok nil
  | x :: l' => let? y := f x in let? ys := rmapM f l' in Ok (y :: ys)
  end.

Definition np_lookup {A : Type} (l : list A) (i : nat) : result A :=
  match l !! i with
  | Some x => Ok x
  | None => Raise IndexError
  end.

(** [1e-100] *)
Definition eps100 : Qc := Q2Qc (1 # (10 ^ 100)).
(** [1e99] *)
Definition big99 : Qc := Z2Qc (10 ^ 99).

(** A numpy float where the source goes on after a division by zero: a
    number, an infinity or nan.  (The sign of a zero is not modelled.) *)
Inductive np_float : Type :=
| Finite (x : Qc)
| PosInf
| NegInf
| NaN.

(** [x / s] on numpy floats: on a zero divisor numpy warns and goes on with
    an infinity of the sign of the dividend, or with nan for [0 / 0]. *)
Definition np_quot (x s : Qc) : np_float :=
  if bool_decide (s = 0)
  then if Qcltb 0 x then PosInf else if Qcltb x 0 then NegInf else NaN
  else Finite (x / s).

Definition np_sub (a b : np_float) : np_float :=
  match a, b with
  | NaN, _ | _, NaN => NaN
  | Finite x, Finite y => Finite (x - y)
  | PosInf, PosInf | NegInf, NegInf => NaN
  | PosInf, _ => PosInf
  | NegInf, _ => NegInf
  | Finite _, PosInf => NegInf
  | Finite _, NegInf => PosInf
  end.

Definition np_fdiv (a b : np_float) : np_float :=
  match a, b with
  | NaN, _ | _, NaN => NaN
  | Finite x, Finite y => np_quot x y
  | Finite _, _ => Finite 0
  | _, PosInf | _, NegInf => NaN
  | PosInf, Finite y => if Qcltb y 0 then NegInf else PosInf
  | NegInf, Finite y => if Qcltb y 0 then PosInf else NegInf
  end.

(** [v >= p] and [v < p], which are false for nan. *)
Definition np_ge (v : np_float) (p : Qc) : bool :=
  match v with
  | Finite x => bool_decide (p <= x)
  | PosInf => true
  | NegInf | NaN => false
  end.

Definition np_lt (v : np_float) (p : Qc) : bool :=
  match v with
  | Finite x => Qcltb x p
  | NegInf => true
  | PosInf | NaN => false
  end.

(** Array division inside the E-step.  numpy warns and yields inf/nan on a
    zero divisor; the arrays of the exact model hold neither, and it stops
    with [ZeroDivisionError] there, so that a run that returns has divided by
    no zero.  (The divisor is [phinorm], a sum of products of values of [exp]
    plus [1e-100].) *)
Definition np_div (u v : vec) : result vec :=
  rmapM (fun p => py_div (fst p) (snd p)) (zip u v).

(** [numpy.mean]: the sum over the number of elements; nan (with a warning)
    for an empty array. *)
Definition np_mean (v : vec) : np_float :=
  np_quot (vec_sum v) (Z2Qc (Z.of_nat (length v))).

(** Element-wise division where the source goes on with inf/nan on a zero
    divisor ([update_alpha], [update_eta]); the quotient by zero is [0] here. *)
Definition vec_div (u v : vec) : vec := zip_with Qcdiv u v.

Definition zeros_like (A : matrix) : matrix := map (map (fun _ => 0)) A.

Definition ncols (A : matrix) : nat :=
  match A with
  | nil => O
  | r :: _ => length r
  end.

(** [A[:, ids]] *)
Definition select_cols (A : matrix) (ids : list nat) : result matrix :=
  rmapM (fun row => rmapM (np_lookup row) ids) A.

(** [numpy.dot(v, B)] for [v] of length [K] and [B] of shape [K x N] *)
Definition dot_vm (N : nat) (v : vec) (B : matrix) : vec :=
  foldr (fun p acc => vec_add (vec_scale (fst p) (snd p)) acc)
        (replicate N 0) (zip v B).

(** [numpy.dot(x, B.T)] for [x] of length [N] and [B] of shape [K x N] *)
Definition dot_mv (x : vec) (B : matrix) : vec :=
  map (fun row => vec_sum (vec_mul x row)) B.

(** [numpy.outer(u, x)] *)
Definition outer (u x : vec) : matrix := map (fun a => vec_scale a x) u.

(** [row[ids] += vals] with numpy's fancy indexing: the sums are computed
    from the old row, then stored one after the other. *)
Definition scatter_add (row : vec) (ids : list nat) (vals : vec) : vec :=
  let tmp := zip_with (fun i v => (i, default 0 (row !! i) + v)) ids vals in
  foldl (fun r p => <[fst p := snd p]> r) row tmp.

(** [eta + sstats] for an array [eta] of shape [K x 1] (broadcast along the
    columns) or [K x W]. *)
Definition bcast_row (e s : vec) : vec :=
  match e with
  | x :: nil => map (Qcplus x) s
  | _ => vec_add e s
  end.

Definition all_positive (v : vec) : bool := forallb (Qcltb 0) v.

(** Python's [a / b] on two ints: floor division under Python 2, true
    division under Python 3 (the module has no [from __future__ import
    division]). *)
Definition py_int_div (floor : bool) (a b : Z) : result Qc :=
  if (b =? 0)%Z then Raise ZeroDivisionError
  else Ok (if floor then Z2Qc (a / b) else Z2Qc a / Z2Qc b).

(** [a % b] on two ints *)
Definition py_mod (a b : Z) : result Z :=
  if (b =? 0)%Z then Raise ZeroDivisionError else Ok (a mod b)%Z.

(** ** Documents, the model object and the world *)

(** A document: a sequence of [(term_id, count)] pairs. *)
Abbreviation doc := (list (nat * Qc)).

Record LdaModel : Type := mkModel {
  num_terms : nat;
  num_topics : nat;
  chunksize : Z;
  decay : Qc;
  offset : Qc;
  num_updates : Z;
  passes : Z;
  update_every : Z;
  eval_every : option Z;
  max_bound_iterations : Z;
  bound_improvement_threshold : Qc;
  optimize_alpha : bool;
  alpha : vec;
  optimize_eta : bool;
  model_eta : eta_val;
  iterations : Z;
  gamma_threshold : Qc;
  numworkers : Z;
  state : LdaState;
  expElogbeta : matrix
}.

(** The keyword arguments of [LdaModel.update]; [None] is Python's [None]. *)
Record update_args : Type := mkArgs {
  arg_chunksize : option Z;
  arg_decay : option Qc;
  arg_offset : option Qc;
  arg_passes : option Z;
  arg_update_every : option Z;
  arg_eval_every : option Z;
  arg_max_bound_iterations : option Z;
  arg_bound_improvement_threshold : option Qc
}.

(** What a run of [update] did, in order (instrumentation, not program
    state): the start of a pass and of a bound-iteration with the value of
    [num_updates] there (for a bound-iteration: after the reset), every E-step,
    and every M-step with the pass, the bound-iteration, [num_updates] at the
    call and the [rho] passed. *)
Inductive event : Type :=
| EvPassStart (pass_ : nat) (n : Z)
| EvBoundStart (pass_ bound_iteration : nat) (n : Z)
| EvEstep (pass_ bound_iteration chunk_no : nat)
| EvMstep (pass_ bound_iteration : nat) (n : Z) (rho : Qc).

Definition is_step (e : event) : bool :=
  match e with
  | EvEstep _ _ _ | EvMstep _ _ _ _ => true
  | _ => false
  end.

Definition event_pass (e : event) : nat :=
  match e with
  | EvPassStart p _ | EvBoundStart p _ _ | EvEstep p _ _ | EvMstep p _ _ _ => p
  end.

Definition truthy (z : Z) : bool := negb (z =? 0)%Z.
Definition or0 (z : option Z) : Z := default 0%Z z.


Definition set_alpha (a : vec) (m : LdaModel) : LdaModel :=
  mkModel (num_terms m) (num_topics m) (chunksize m) (decay m) (offset m)
    (num_updates m) (passes m) (update_every m) (eval_every m)
    (max_bound_iterations m) (bound_improvement_threshold m)
    (optimize_alpha m) a (optimize_eta m) (model_eta m) (iterations m)
    (gamma_threshold m) (numworkers m) (state m) (expElogbeta m).

Definition set_num_updates (n : Z) (m : LdaModel) : LdaModel :=
  mkModel (num_terms m) (num_topics m) (chunksize m) (decay m) (offset m)
    n (passes m) (update_every m) (eval_every m)
    (max_bound_iterations m) (bound_improvement_threshold m)
    (optimize_alpha m) (alpha m) (optimize_eta m) (model_eta m) (iterations m)
    (gamma_threshold m) (numworkers m) (state m) (expElogbeta m).

Definition set_state (st : LdaState) (m : LdaModel) : LdaModel :=
  mkModel (num_terms m) (num_topics m) (chunksize m) (decay m) (offset m)
    (num_updates m) (passes m) (update_every m) (eval_every m)
    (max_bound_iterations m) (bound_improvement_threshold m)
    (optimize_alpha m) (alpha m) (optimize_eta m) (model_eta m) (iterations m)
    (gamma_threshold m) (numworkers m) st (expElogbeta m).

Definition set_expElogbeta (e : matrix) (m : LdaModel) : LdaModel :=
  mkModel (num_terms m) (num_topics m) (chunksize m) (decay m) (offset m)
    (num_updates m) (passes m) (update_every m) (eval_every m)
    (max_bound_iterations m) (bound_improvement_threshold m)
    (optimize_alpha m) (alpha m) (optimize_eta m) (model_eta m) (iterations m)
    (gamma_threshold m) (numworkers m) (state m) e.

(** The variables of the per-document loop of [inference]. *)
Record doc_vars : Type := mkVars {
  gammad : vec;
  Elogthetad : vec;
  expElogthetad : vec;
  phinorm : vec
}.

(** ** A concrete instance, for the examples

    Rational stand-ins for the special functions, with the monotonicity and
    signs of the real ones ([stand_psi] increasing with derivative
    [stand_trigamma], [stand_exp] positive and increasing; [stand_pow] is
    exact for the exponent [-1]), a generator that always draws [1], a
    constant per-word bound and a chunker. *)

Definition stand_psi (x : Qc) : Qc := - (1 / x).
Definition stand_trigamma (x : Qc) : Qc := 1 / (x * x).
Definition stand_exp (x : Qc) : Qc :=
  if bool_decide (0 <= x) then 1 + x else 1 / (1 - x).
Definition stand_pow (x y : Qc) : result Qc :=
  if bool_decide (y = - (1)) then py_div 1 x else Ok 1.
Definition stand_random_gamma (g : nat) (n k : nat) : matrix * nat :=
  (mat_const n k 1, S g).
Definition stand_print_topics (m : LdaModel) (h : gmap loc matrix) (g : nat)
  : result unit * nat := (Ok tt, g).
Definition stand_perwordbound (m : LdaModel) (h : gmap loc matrix)
    (chunk : list doc) (gs : list matrix) (total_docs : Z) : np_float :=
  Finite (- (1)).

(** Modelled from the spec: [utils.grouper] is not in the source given; the
    corpus is cut into successive chunks of [chunksize] documents, the last
    one possibly shorter (section 3, Chunk).  It takes each chunk with
    [itertools.islice], which takes nothing when [chunksize] is [0] (no chunk
    at all) and raises [ValueError] when it is negative (no chunk either, and
    the generator ends with that exception). *)
Fixpoint chunks_of (fuel n : nat) (corpus : list doc) : list (list doc) :=
  match fuel, corpus with
  | S fuel', _ :: _ => take n corpus :: chunks_of fuel' n (drop n corpus)
  | _, _ => nil
  end.

Definition stand_grouper (corpus : list doc) (chunksize : Z)
  : list (list doc) * option exn :=
  if (chunksize <? 0)%Z
  then (nil,
        Some (ValueError "Stop argument for islice() must be None or an integer"))
  else if (chunksize =? 0)%Z then (nil, None)
  else (chunks_of (length corpus) (Z.to_nat chunksize) corpus, None).

(** A model of one topic over one term, as [__init__] leaves it with a float
    [eta], and a document. *)
Definition model_1x1 : LdaModel :=
  mkModel 1 1 1 1 1 0 1 1 (Some 0%Z) 1 (Q2Qc (1 # 1000)) false
          (Q2Qc (1 # 2) :: nil) false (EtaFloat (Q2Qc (1 # 2))) 2
          (Q2Qc (1 # 1000)) 1
          (mkState (EtaFloat (Q2Qc (1 # 2))) (mat_const 1 1 1) 0)
          (mat_const 1 1 1).

Definition doc_1 : doc := (O, 1) :: nil.

Definition no_args : update_args :=
  mkArgs None None None None None None None None.

(** A model of two topics over two terms with [eta='auto']: [eta] is the
    [2 x 1] array at location [0], shared by the model and its state. *)
Definition model_2x2 : LdaModel :=
  mkModel 2 2 2 1 1 0 1 1 (Some 0%Z) 1 (Q2Qc (1 # 1000)) false
          (Q2Qc (1 # 2) :: Q2Qc (1 # 2) :: nil) true (EtaArray O) 2
          (Q2Qc (1 # 1000)) 1
          (mkState (EtaArray O) (mat_const 2 2 1) 2)
          (mat_const 2 2 1).

Definition heap_2x2 : gmap loc matrix :=
  {[ O := (Q2Qc (1 # 2) :: nil) :: (Q2Qc (1 # 2) :: nil) :: nil ]}.

Definition other_2x2 : LdaState :=
  mkState (EtaArray O)
          ((Z2Qc 3 :: 1 :: nil) :: (1 :: Z2Qc 3 :: nil) :: nil) 2.


Definition mat_nonneg (A : matrix) : Prop :=
  Forall (Forall (fun x => 0 <= x)) A.

Section Lda.


(** [scipy.special.psi], [scipy.special.polygamma(1, .)] and [numpy.exp]. *)
Variables psi trigamma exp : Qc -> Qc.
(** Python's [pow(x, y)], which raises where the power is undefined. *)
Variable pow : Qc -> Qc -> result Qc.
(** Whether [/] on two ints is floor division (Python 2). *)
Variable py2_division : bool.
(** The state of numpy's global generator; [numpy.random.gamma(100., 1./100.,
    (n, k))] draws an [n x k] array and advances it. *)
Variable RNG : Type.
Variable random_gamma : RNG -> nat -> nat -> matrix * RNG.
(** [print_topics(5)], which only reads the model and its arrays (the topics
    through [get_lambda], the words through [id2word]) and may draw from the
    generator ([numpy.random.rand] in [show_topics]); it raises where a lookup
    fails: [KeyError] for a term id that [id2word] lacks.  What it returns
    ([None]) or raises, and the generator as it leaves it. *)
Variable print_topics : LdaModel -> gmap loc matrix -> RNG -> result unit * RNG.
(** The value of [log_perplexity] (the per-word bound of [bound], built
    from [gammaln] and [logsumexp]) as a function of what it reads: the model,
    the arrays, the chunk, the inferred gammas and [total_docs].  It is a
    numpy float, the quotient of the bound by the number of words: an
    infinity or nan for documents without words. *)
Variable perwordbound_of :
  LdaModel -> gmap loc matrix -> list doc -> list matrix -> Z -> np_float.
(** [utils.grouper(corpus, chunksize, as_numpy=True)], which is not part of
    this file, is a generator: the chunks that it yields, in order, and the
    exception with which it ends when it does not end normally. *)
Variable grouper : list doc -> Z -> list (list doc) * option exn.
(** [utils.is_corpus(bow)], which is not part of this file either: whether
    the argument is a corpus rather than one document. *)
Variable is_corpus : doc -> bool.
(** [sys.maxint] and [numpy.sqrt]. *)
Variable maxint : Z.
Variable sqrt : Qc -> Qc.
(** [len(utils.dict_from_corpus(corpus))], not part of this file either:
    the number of terms of a corpus. *)
Variable corpus_num_terms : list doc -> nat.

(** The heap of numpy arrays reachable through [eta], the model object and
    the generator. *)
Record World : Type := mkWorld {
  heap : gmap loc matrix;
  model : LdaModel;
  rng : RNG
}.

(** *** The monad of methods: a world goes in, a result or an exception comes
    out with the world as the method left it and the events it logged. *)
Definition M (A : Type) : Type := World -> result A * World * list event.

Definition ret {A : Type} (a : A) : M A := fun w => (Ok a, w, nil).
Definition raise {A : Type} (e : exn) : M A := fun w => (Raise e, w, nil).
Definition bind {A B : Type} (c : M A) (k : A -> M B) : M B :=
  fun w =>
    match c w with
    | (Ok a, w', t) =>
        match k a w' with
        | (r, w'', t') => (r, w'', t ++ t')
        end
    | (Raise e, w', t) => (Raise e, w', t)
    end.
Definition lift {A : Type} (r : result A) : M A := fun w => (r, w, nil).
Definition gets {A : Type} (f : World -> A) : M A := fun w => (Ok (f w), w, nil).
Definition modify (f : World -> World) : M unit := fun w => (Ok tt, f w, nil).
Definition tell (e : event) : M unit := fun w => (Ok tt, w, e :: nil).

Notation "x <- c ;; k" := (bind c (fun x => k))
  (at level 64, c at next level, right associativity).
Notation "c ;;; k" := (bind c (fun _ => k))
  (at level 64, right associativity).

Definition modify_model (f : LdaModel -> LdaModel) : M unit :=
  modify (fun w => mkWorld (heap w) (f (model w)) (rng w)).

(** *** [dirichlet_expectation] *)

(** For a 1-d array. *)
Definition dirichlet_expectation (a : vec) : vec :=
  map (fun x => psi x - psi (vec_sum a)) a.

(** For a 2-d array: row by row. *)
Definition dirichlet_expectation2 (A : matrix) : matrix :=
  map dirichlet_expectation A.

(** *** [LdaState.get_lambda], [LdaState.get_Elogbeta], [LdaModel.sync_state] *)

Definition get_lambda (h : gmap loc matrix) (st : LdaState) : matrix :=
  match eta st with
  | EtaFloat x => map (map (Qcplus x)) (sstats st)
  | EtaArray l => zip_with bcast_row (h !!! l) (sstats st)
  end.

Definition get_Elogbeta (h : gmap loc matrix) (st : LdaState) : matrix :=
  dirichlet_expectation2 (get_lambda h st).

Definition sync_state : M unit :=
  w <- gets id ;;
  modify_model (set_expElogbeta
                  (map (map exp) (get_Elogbeta (heap w) (state (model w))))).

(** *** [LdaModel.inference] *)

Definition phinorm_of (N : nat) (expElogthetad : vec) (expElogbetad : matrix)
  : vec :=
  map (fun x => x + eps100) (dot_vm N expElogthetad expElogbetad).

(** The right-hand side of the update of [gammad]. *)
Definition gamma_update (a cts : vec) (expElogbetad : matrix) (v : doc_vars)
  : result vec :=
  let? ratio := np_div cts (phinorm v) in
  Ok (vec_add a (vec_mul (expElogthetad v) (dot_mv ratio expElogbetad))).

(** One turn of the loop [for _ in xrange(self.iterations)], up to the test:
    the new variables and [meanchange]. *)
Definition gamma_iter (a cts : vec) (expElogbetad : matrix) (v : doc_vars)
  : result (doc_vars * np_float) :=
  let lastgamma := gammad v in
  let? gammad' := gamma_update a cts expElogbetad v in
  let Elogthetad' := dirichlet_expectation gammad' in
  let expElogthetad' := map exp Elogthetad' in
  let phinorm' := phinorm_of (length cts) expElogthetad' expElogbetad in
  let meanchange := np_mean (map Qcabs (vec_sub gammad' lastgamma)) in
  Ok (mkVars gammad' Elogthetad' expElogthetad' phinorm', meanchange).

(** The loop over [n] remaining turns; the flag tells whether it left by
    [break] (the source then counts the document as converged). *)
Fixpoint gamma_loop (n : nat) (a cts : vec) (threshold : Qc)
    (expElogbetad : matrix) (v : doc_vars) : result (doc_vars * bool) :=
  match n with
  | O => Ok (v, false)
  | S n' =>
      let? vm := gamma_iter a cts expElogbetad v in
      if np_lt (snd vm) threshold then Ok (fst vm, true)
      else gamma_loop n' a cts threshold expElogbetad (fst vm)
  end.

(** [k] turns of the loop body, the test left out: the variables after the
    [k]-th turn, for stating what the loop computes. *)
Fixpoint run_iters (k : nat) (a cts : vec) (expElogbetad : matrix)
    (v : doc_vars) : result doc_vars :=
  match k with
  | O => Ok v
  | S k' =>
      let? v' := run_iters k' a cts expElogbetad v in
      let? vm := gamma_iter a cts expElogbetad v' in
      Ok (fst vm)
  end.


(** The body of [for d, doc in enumerate(chunk)], given what it reads of the
    model: the final variables of the document, [cts/phinorm] for the
    sufficient statistics, and the flag of [gamma_loop]. *)
Definition estep_doc (a : vec) (iters : Z) (threshold : Qc) (beta : matrix)
    (dc : doc) (gammad0 Elogthetad0 expElogthetad0 : vec)
  : result (doc_vars * bool) :=
  let ids := map fst dc in
  let cts := map snd dc in
  let? expElogbetad := select_cols beta ids in
  let phinorm0 := phinorm_of (length cts) expElogthetad0 expElogbetad in
  gamma_loop (Z.to_nat iters) a cts threshold expElogbetad
             (mkVars gammad0 Elogthetad0 expElogthetad0 phinorm0).

(** [sstats[:, ids] += numpy.outer(expElogthetad.T, cts / phinorm)] *)
Definition collect_doc (sst : matrix) (dc : doc) (v : doc_vars)
  : result matrix :=
  let? ratio := np_div (map snd dc) (phinorm v) in
  Ok (zip_with (fun row add => scatter_add row (map fst dc) add)
               sst (outer (expElogthetad v) ratio)).

Fixpoint infer_docs (collect_sstats : bool) (Elogtheta expElogtheta : matrix)
    (d : nat) (chunk : list doc) (gamma : matrix) (sst : option matrix)
    (converged : nat) : M (matrix * option matrix * nat) :=
  match chunk with
  | nil => ret (gamma, sst, converged)
  | dc :: rest =>
      gammad0 <- lift (np_lookup gamma d) ;;
      Elogthetad0 <- lift (np_lookup Elogtheta d) ;;
      expElogthetad0 <- lift (np_lookup expElogtheta d) ;;
      self_expElogbeta <- gets (fun w => expElogbeta (model w)) ;;
      self_iterations <- gets (fun w => iterations (model w)) ;;
      self_alpha <- gets (fun w => alpha (model w)) ;;
      self_gamma_threshold <- gets (fun w => gamma_threshold (model w)) ;;
      vb <- lift (estep_doc self_alpha self_iterations self_gamma_threshold
                            self_expElogbeta dc
                            gammad0 Elogthetad0 expElogthetad0) ;;
      let gamma' := <[d := gammad (fst vb)]> gamma in
      let converged' := if snd vb then S converged else converged in
      sst' <- match sst with
              | Some s => s' <- lift (collect_doc s dc (fst vb)) ;; ret (Some s')
              | None => ret None
              end ;;
      infer_docs collect_sstats Elogtheta expElogtheta (S d) rest
                 gamma' sst' converged'
  end.

Definition draw_gamma (n k : nat) : M matrix :=
  fun w =>
    let gr := random_gamma (rng w) n k in
    (Ok (fst gr), mkWorld (heap w) (model w) (snd gr), nil).

Definition inference (chunk : list doc) (collect_sstats : bool)
  : M (matrix * option matrix) :=
  self_num_topics <- gets (fun w => num_topics (model w)) ;;
  gamma <- draw_gamma (length chunk) self_num_topics ;;
  let Elogtheta := dirichlet_expectation2 gamma in
  let expElogtheta := map (map exp) Elogtheta in
  self_expElogbeta <- gets (fun w => expElogbeta (model w)) ;;
  let sst := if collect_sstats then Some (zeros_like self_expElogbeta)
             else None in
  r <- infer_docs collect_sstats Elogtheta expElogtheta O chunk gamma sst O ;;
  match snd (fst r) with
  | Some s =>
      self_expElogbeta <- gets (fun w => expElogbeta (model w)) ;;
      ret (fst (fst r), Some (mat_mul s self_expElogbeta))
  | None => ret (fst (fst r), None)
  end.

(** [LdaModel.do_estep(chunk, state)] with [state] given: the gammas and the
    accumulator as the call leaves it. *)
Definition do_estep (chunk : list doc) (st : LdaState) : M (matrix * LdaState) :=
  r <- inference chunk true ;;
  match snd r with
  | Some s =>
      ret (fst r,
           mkState (eta st) (mat_add (sstats st) s)
                   (numdocs st + Z.of_nat (length (fst r))))
  | None => raise (RuntimeError "sstats is None")
  end.


(** *** [LdaModel.update_alpha], [LdaModel.update_eta] *)

(** The Newton step that both methods compute (the source has the same six
    lines twice): [N], the prior and [logphat] in, the step out. *)
Definition newton_step (N : Qc) (prior logphat : vec) : vec :=
  let gradf := zip_with (fun p l => N * (psi (vec_sum prior) - psi p + l))
                        prior logphat in
  let c := N * trigamma (vec_sum prior) in
  let q := map (fun p => - N * trigamma p) prior in
  let b := vec_sum (vec_div gradf q)
           / (1 / c + vec_sum (map (fun x => 1 / x) q)) in
  zip_with (fun g x => - (g - b) / x) gradf q.

(** [sum(dirichlet_expectation(g) for g in gs) / N], with Python's [sum]. *)
Definition mean_dirichlet_expectation (gs : matrix) : result vec :=
  match gs with
  | nil => Raise ZeroDivisionError
  | g :: rest =>
      let N := Z2Qc (Z.of_nat (length gs)) in
      Ok (map (fun x => x / N)
              (foldl vec_add (dirichlet_expectation g)
                     (map dirichlet_expectation rest)))
  end.

Definition update_alpha (gammat : matrix) (rho : Qc) : M vec :=
  logphat <- lift (mean_dirichlet_expectation gammat) ;;
  m <- gets model ;;
  let N := Z2Qc (Z.of_nat (length gammat)) in
  let dalpha := newton_step N (alpha m) logphat in
  (if all_positive (vec_add (vec_scale rho dalpha) (alpha m))
   then modify_model (set_alpha (vec_add (alpha m) (vec_scale rho dalpha)))
   else ret tt) ;;;
  m <- gets model ;;
  ret (alpha m).

Definition transpose (A : matrix) : matrix :=
  map (fun j => map (fun r => default 0 (r !! j)) A) (seq 0 (ncols A)).

(** [self.eta += rho * deta] updates the array in place: every holder of the
    reference sees the new values. *)
Definition update_eta (lambdat : matrix) (rho : Qc) : M unit :=
  m <- gets model ;;
  match model_eta m with
  | EtaFloat _ => raise (AttributeError "shape")
  | EtaArray l =>
      h <- gets heap ;;
      let E := h !!! l in
      if negb (ncols E =? 1)%nat
      then raise (ValueError "Can't use update_eta with eta matrices")
      else
        logphat <- lift (mean_dirichlet_expectation (transpose lambdat)) ;;
        if negb (length logphat =? num_topics m)%nat
        then raise (ValueError "cannot reshape array")
        else
          let N := Z2Qc (Z.of_nat (ncols lambdat)) in
          let prior := concat E in
          let deta := newton_step N prior logphat in
          if all_positive (vec_add (vec_scale rho deta) prior)
          then modify (fun w =>
                 mkWorld (<[l := map (fun x => x :: nil)
                                     (vec_add prior (vec_scale rho deta))]>
                            (heap w))
                         (model w) (rng w))
          else ret tt
  end.

(** *** [LdaModel.do_mstep] *)

(** [self.print_topics(5)] *)
Definition call_print_topics : M unit :=
  fun w =>
    let pr := print_topics (model w) (heap w) (rng w) in
    (fst pr, mkWorld (heap w) (model w) (snd pr), nil).

Definition do_mstep (rho : Qc) (other : LdaState) (extra_pass : bool) : M unit :=
  m <- gets model ;;
  st <- lift (blend (state m) rho other None) ;;
  modify_model (set_state st) ;;;
  sync_state ;;;
  call_print_topics ;;;
  m <- gets model ;;
  (if optimize_eta m
   then w <- gets id ;; update_eta (get_lambda (heap w) (state (model w))) rho
   else ret tt) ;;;
  if negb extra_pass
  then modify_model (fun m => set_num_updates (num_updates m + numdocs other) m)
  else ret tt.

(** *** [LdaModel.log_perplexity] (through [bound], which infers one
    document at a time) *)

Fixpoint bound_gammas (chunk : list doc) : M (list matrix) :=
  match chunk with
  | nil => ret nil
  | dc :: rest =>
      r <- inference (dc :: nil) false ;;
      gs <- bound_gammas rest ;;
      ret (fst r :: gs)
  end.

Definition log_perplexity (chunk : list doc) (total_docs : Z) : M np_float :=
  match chunk with
  | nil => raise ZeroDivisionError
  | _ =>
      gs <- bound_gammas chunk ;;
      w <- gets id ;;
      ret (perwordbound_of (model w) (heap w) chunk gs total_docs)
  end.

(** *** [LdaModel.update] *)

(** The local variables of [update] that its loops read. *)
Record run_cfg : Type := mkCfg {
  c_corpus : list doc;
  c_lencorpus : Z;
  c_chunksize : Z;
  c_decay : Qc;
  c_offset : Qc;
  c_passes : Z;
  c_update_every : Z;
  c_eval_every : option Z;
  c_max_bound_iterations : Z;
  c_bound_improvement_threshold : Qc
}.

(** The learning rate as a function of the pass and of the counter
    [num_updates]: [(offset + pass_ + num_updates / chunksize) ^ (-decay)]. *)
Definition rho_formula (c : run_cfg) (pass_ : nat) (n : Z) : result Qc :=
  let? q := py_int_div py2_division n (c_chunksize c) in
  pow (c_offset c + Z2Qc (Z.of_nat pass_) + q) (- c_decay c).

(** The learning rate as the specification words it (section 4.6):
    [(offset + p + numUpdates / chunksize) ^ (-decay)] with the quotient of
    the two numbers.  Named apart from [rho_formula], which is the code. *)
Definition rho_as_specified (c : run_cfg) (pass_ : nat) (n : Z) : result Qc :=
  if (c_chunksize c =? 0)%Z then Raise ZeroDivisionError
  else pow (c_offset c + Z2Qc (Z.of_nat pass_)
            + Z2Qc n / Z2Qc (c_chunksize c))
           (- c_decay c).

(** The closure [rho()], which reads [self.num_updates] when called. *)
Definition rho (c : run_cfg) (pass_ : nat) : M Qc :=
  m <- gets model ;;
  q <- lift (py_int_div py2_division (num_updates m) (c_chunksize c)) ;;
  lift (pow (c_offset c + Z2Qc (Z.of_nat pass_) + q) (- c_decay c)).

(** [self.do_mstep(rho(), other, pass_ > 0)] *)
Definition mstep_call (c : run_cfg) (pass_ bound_iteration : nat)
    (other : LdaState) : M unit :=
  r <- rho c pass_ ;;
  m <- gets model ;;
  tell (EvMstep pass_ bound_iteration (num_updates m) r) ;;;
  do_mstep r other (0 <? pass_)%nat.

(** [LdaState(self.eta, self.state.sstats.shape)] *)
Definition fresh_other : M LdaState :=
  m <- gets model ;;
  ret (mkState (model_eta m) (zeros_like (sstats (state m))) 0).

(** [eval_every and ((reallen == lencorpus) or
    ((chunk_no + 1) % (eval_every * self.numworkers) == 0))] *)
Definition eval_due (eval_every : option Z) (workers reallen lencorpus : Z)
    (chunk_no : nat) : result bool :=
  match eval_every with
  | None => Ok false
  | Some e =>
      if negb (truthy e) then Ok false
      else if (reallen =? lencorpus)%Z then Ok true
      else let? r := py_mod (Z.of_nat chunk_no + 1) (e * workers) in
           Ok (r =? 0)%Z
  end.

(** [update_every and (chunk_no + 1) % (update_every * self.numworkers) == 0] *)
Definition mstep_due (update_every workers : Z) (chunk_no : nat) : result bool :=
  if negb (truthy update_every) then Ok false
  else let? r := py_mod (Z.of_nat chunk_no + 1) (update_every * workers) in
       Ok (r =? 0)%Z.

(** The loop over the chunks; it carries [other], [dirty], [reallen] and the
    per-word bound if this bound-iteration has computed one. *)
Fixpoint chunk_loop (c : run_cfg) (pass_ bound_iteration chunk_no : nat)
    (chunks : list (list doc)) (other : LdaState) (dirty : bool) (reallen : Z)
    (perwordbound : option np_float)
  : M (LdaState * bool * Z * option np_float) :=
  match chunks with
  | nil => ret (other, dirty, reallen, perwordbound)
  | chunk :: rest =>
      let reallen := (reallen + Z.of_nat (length chunk))%Z in
      m <- gets model ;;
      due <- lift (eval_due (c_eval_every c) (numworkers m) reallen
                            (c_lencorpus c) chunk_no) ;;
      perwordbound <- (if due : bool
                       then x <- log_perplexity chunk (c_lencorpus c) ;;
                            ret (Some x)
                       else ret perwordbound) ;;
      tell (EvEstep pass_ bound_iteration chunk_no) ;;;
      go <- do_estep chunk other ;;
      m <- gets model ;;
      (if optimize_alpha m
       then r <- rho c pass_ ;; update_alpha (fst go) r ;;; ret tt
       else ret tt) ;;;
      m <- gets model ;;
      due <- lift (mstep_due (c_update_every c) (numworkers m) chunk_no) ;;
      if due : bool
      then mstep_call c pass_ bound_iteration (snd go) ;;;
           other <- fresh_other ;;
           chunk_loop c pass_ bound_iteration (S chunk_no) rest other false
                      reallen perwordbound
      else chunk_loop c pass_ bound_iteration (S chunk_no) rest (snd go) true
                      reallen perwordbound
  end.

(** The body of [for bound_iteration in xrange(max_bound_iterations)] up to
    the convergence test; [n0] is [num_updates_at_pass_start]. *)
Definition bound_iteration_body (c : run_cfg) (pass_ bound_iteration : nat)
    (n0 : Z) : M (option np_float) :=
  (if (0 <? bound_iteration)%nat
   then modify_model (set_num_updates n0)
   else ret tt) ;;;
  m <- gets model ;;
  tell (EvBoundStart pass_ bound_iteration (num_updates m)) ;;;
  other <- fresh_other ;;
  let chunks := grouper (c_corpus c) (c_chunksize c) in
  r <- chunk_loop c pass_ bound_iteration O (fst chunks) other false 0%Z
                  None ;;
  (match snd chunks with
   | Some e => raise e
   | None => ret tt
   end) ;;;
  if negb (snd (fst r) =? c_lencorpus c)%Z
  then raise (RuntimeError "input corpus size changed during training")
  else
    (if snd (fst (fst r)) : bool
     then mstep_call c pass_ bound_iteration (fst (fst (fst r)))
     else ret tt) ;;;
    ret (snd r).

(** [relative_improvement < bound_improvement_threshold] for
    [relative_improvement = (last_perwordbound - perwordbound) /
    last_perwordbound].  The operands are numpy floats, whose division raises
    nothing: where the previous bound is zero the quotient is nan or an
    infinity, and the test is false for nan. *)
Definition improvement_below (last_perwordbound perwordbound : np_float)
    (threshold : Qc) : bool :=
  np_lt (np_fdiv (np_sub last_perwordbound perwordbound) last_perwordbound)
        threshold.

(** [fuel] bound-iterations remain, the next one has index
    [bound_iteration]. *)
Fixpoint bound_loop (fuel : nat) (c : run_cfg) (pass_ bound_iteration : nat)
    (n0 : Z) (last_perwordbound : np_float) : M unit :=
  match fuel with
  | O => ret tt
  | S fuel' =>
      pwb <- bound_iteration_body c pass_ bound_iteration n0 ;;
      match pwb with
      | Some perwordbound =>
          if improvement_below last_perwordbound perwordbound
                               (c_bound_improvement_threshold c)
          then ret tt
          else bound_loop fuel' c pass_ (S bound_iteration) n0 perwordbound
      | None =>
          bound_loop fuel' c pass_ (S bound_iteration) n0 last_perwordbound
      end
  end.

Definition pass_body (c : run_cfg) (pass_ : nat) : M unit :=
  m <- gets model ;;
  tell (EvPassStart pass_ (num_updates m)) ;;;
  bound_loop (Z.to_nat (c_max_bound_iterations c)) c pass_ O
             (num_updates m) (Finite big99).

Fixpoint pass_loop (c : run_cfg) (passes_ : list nat) : M unit :=
  match passes_ with
  | nil => ret tt
  | pass_ :: rest => pass_body c pass_ ;;; pass_loop c rest
  end.

(** The keyword arguments of [update] resolved against the constructor's
    values, with [lencorpus] and [chunksize]: the first lines of [update]. *)
Definition update_cfg (m : LdaModel) (corpus : list doc) (a : update_args)
  : run_cfg :=
  let decay := default (decay m) (arg_decay a) in
  let offset := default (offset m) (arg_offset a) in
  let passes := default (passes m) (arg_passes a) in
  let update_every := default (update_every m) (arg_update_every a) in
  let eval_every := match arg_eval_every a with
                    | None => eval_every m
                    | Some e => Some e
                    end in
  let max_bound_iterations :=
    default (max_bound_iterations m) (arg_max_bound_iterations a) in
  let bound_improvement_threshold :=
    default (bound_improvement_threshold m)
            (arg_bound_improvement_threshold a) in
  let lencorpus := Z.of_nat (length corpus) in
  let chunksize := match arg_chunksize a with
                   | None => Z.min lencorpus (chunksize m)
                   | Some cs => cs
                   end in
  mkCfg corpus lencorpus chunksize decay offset passes update_every
        eval_every max_bound_iterations bound_improvement_threshold.

Definition update (corpus : list doc) (a : update_args) : M unit :=
  m <- gets model ;;
  let c := update_cfg m corpus a in
  if (c_lencorpus c =? 0)%Z then ret tt
  else
    modify_model (fun m =>
      set_state (mkState (eta (state m)) (sstats (state m))
                         (numdocs (state m) + c_lencorpus c)) m) ;;;
    (if truthy (c_update_every c)
     then if (1 <? c_max_bound_iterations c)%Z
          then raise (ValueError "It doesn't make sense to use max_bound_iterations in online mode.")
          else ret tt
     else ret tt) ;;;
    let updateafter :=
      if truthy (c_update_every c)
      then Z.min (c_lencorpus c)
                 (c_update_every c * numworkers m * c_chunksize c)
      else c_lencorpus c in
    (if (c_max_bound_iterations c <? 1)%Z
     then raise (ValueError "max_bound_iterations must be at least 1.")
     else ret tt) ;;;
    (if (1 <? c_max_bound_iterations c)%Z
        && negb (0 <? or0 (c_eval_every c))%Z
     then raise (ValueError "eval_every must be set (usually to 1) for max_bound_iterations > 1")
     else ret tt) ;;;
    lift (py_int_div py2_division (c_lencorpus c) updateafter) ;;;
    pass_loop c (seq 0 (Z.to_nat (c_passes c))).

(** *** Vocabulary of the statements about methods *)

Definition out_result {A : Type} (o : result A * World * list event) : result A :=
  fst (fst o).
Definition out_world {A : Type} (o : result A * World * list event) : World :=
  snd (fst o).
Definition out_events {A : Type} (o : result A * World * list event)
  : list event := snd o.

(** A method that leaves the model object and the arrays as they were and
    logs nothing (it may draw random numbers). *)
Definition read_only {A : Type} (c : M A) : Prop :=
  forall w,
    heap (out_world (c w)) = heap w /\
    model (out_world (c w)) = model w /\
    out_events (c w) = nil.

(** Two worlds that agree on the generator and on the attributes that
    [inference] reads. *)
Definition same_inputs (w1 w2 : World) : Prop :=
  rng w1 = rng w2 /\
  num_topics (model w1) = num_topics (model w2) /\
  alpha (model w1) = alpha (model w2) /\
  expElogbeta (model w1) = expElogbeta (model w2) /\
  iterations (model w1) = iterations (model w2) /\
  gamma_threshold (model w1) = gamma_threshold (model w2).

(** A method whose result depends on the world only through [same_inputs],
    and which keeps two such worlds in agreement. *)
Definition deterministic {A : Type} (c : M A) : Prop :=
  forall w1 w2,
    same_inputs w1 w2 ->
    out_result (c w1) = out_result (c w2) /\
    same_inputs (out_world (c w1)) (out_world (c w2)).

(** A method that logs nothing. *)
Definition silent {A : Type} (c : M A) : Prop :=
  forall w, out_events (c w) = nil.

(** A method that logs nothing and leaves [num_updates] as it was. *)
Definition quiet {A : Type} (c : M A) : Prop :=
  forall w,
    out_events (c w) = nil /\
    num_updates (model (out_world (c w))) = num_updates (model w).

(** From a world in [P], every event that [c] logs is in [G], and a result
    [a] of [c] comes with a world in [Q a]. *)
Definition triple {A : Type} (P : World -> Prop) (G : event -> Prop)
    (c : M A) (Q : A -> World -> Prop) : Prop :=
  forall w,
    P w ->
    Forall G (out_events (c w)) /\
    forall a, out_result (c w) = Ok a -> Q a (out_world (c w)).

Definition value_error {A : Type} (r : result A) : Prop :=
  exists msg, r = Raise (ValueError msg).

Definition has_step (t : list event) : Prop :=
  Exists (fun e => is_step e = true) t.

(** A method that raises [ValueError] only after it has logged a step. *)
Definition value_error_after_step {A : Type} (c : M A) : Prop :=
  forall w, value_error (out_result (c w)) -> has_step (out_events (c w)).

Definition no_value_error {A : Type} (c : M A) : Prop :=
  forall w, ~ value_error (out_result (c w)).

(** The configuration that [update] rejects on a non-empty corpus. *)
Definition rejected (c : run_cfg) : Prop :=
  (c_max_bound_iterations c < 1)%Z \/
  ((1 < c_max_bound_iterations c)%Z /\ c_update_every c <> 0%Z) \/
  ((1 < c_max_bound_iterations c)%Z /\ ~ (0 < or0 (c_eval_every c))%Z).

(** [updateafter], the number of documents between two M-steps: the
    divisor of [updates_per_pass = max(1, lencorpus / updateafter)]. *)
Definition updateafter_of (m : LdaModel) (c : run_cfg) : Z :=
  if truthy (c_update_every c)
  then Z.min (c_lencorpus c) (c_update_every c * numworkers m * c_chunksize c)
  else c_lencorpus c.

(** The chunker yields no chunk and ends with [ValueError]. *)
Definition chunker_raises (c : run_cfg) : Prop :=
  fst (grouper (c_corpus c) (c_chunksize c)) = nil /\
  exists msg,
    snd (grouper (c_corpus c) (c_chunksize c)) = Some (ValueError msg).

(** A configuration that [update] accepts and with which it gets as far as
    the first pass, where the chunker raises [ValueError] when asked for the
    first chunk. *)
Definition chunker_rejects (m : LdaModel) (c : run_cfg) : Prop :=
  ~ rejected c /\ updateafter_of m c <> 0%Z /\ (0 < c_passes c)%Z /\
  chunker_raises c.

(** The configuration that the specification says is rejected (section 4.8):
    [updateEvery > 0] where the code tests [update_every] for truth. *)
Definition rejected_as_specified (c : run_cfg) : Prop :=
  (c_max_bound_iterations c < 1)%Z \/
  ((1 < c_max_bound_iterations c)%Z /\ (0 < c_update_every c)%Z) \/
  ((1 < c_max_bound_iterations c)%Z /\ ~ (0 < or0 (c_eval_every c))%Z).

(** What the events of pass [pass_] say when [n0] was [num_updates] at its
    start: the pass and each bound-iteration start from [n0]; an M-step was
    given [rho_formula] of the counter at the call; and in batch mode
    ([update_every] false) that counter is [n0]. *)
Definition good_event (c : run_cfg) (pass_ : nat) (n0 : Z) (e : event) : Prop :=
  event_pass e = pass_ /\
  match e with
  | EvPassStart _ n => n = n0
  | EvBoundStart _ _ n => n = n0
  | EvEstep _ _ _ => True
  | EvMstep _ _ n r =>
      rho_formula c pass_ n = Ok r /\
      (truthy (c_update_every c) = false -> n = n0)
  end.

(** The counter is [n0] whenever the run is in batch mode. *)
Definition batch_at (c : run_cfg) (n0 : Z) (w : World) : Prop :=
  truthy (c_update_every c) = false -> num_updates (model w) = n0.

(** A result that is not a [ValueError]. *)
Definition not_value_error {A : Type} (r : result A) : Prop :=
  forall msg, r <> Raise (ValueError msg).

(** A method that has logged a step whenever it returns. *)
Definition step_if_ok {A : Type} (c : M A) : Prop :=
  forall w a, out_result (c w) = Ok a -> has_step (out_events (c w)).

(** From a model object in [P]: a result [a] of [c] comes with the model in
    [Q a], an exception with the model in [E]. *)
Definition always {A : Type} (P : LdaModel -> Prop) (c : M A)
    (Q : A -> LdaModel -> Prop) (E : LdaModel -> Prop) : Prop :=
  forall w,
    P (model w) ->
    match out_result (c w) with
    | Ok a => Q a (model (out_world (c w)))
    | Raise _ => E (model (out_world (c w)))
    end.

(** Two model objects with the same settings: every attribute but the
    counter [num_updates], [alpha], the state and the cache [expElogbeta]. *)
Definition same_config (m1 m2 : LdaModel) : Prop :=
  num_terms m1 = num_terms m2 /\ num_topics m1 = num_topics m2 /\
  chunksize m1 = chunksize m2 /\ decay m1 = decay m2 /\
  offset m1 = offset m2 /\ passes m1 = passes m2 /\
  update_every m1 = update_every m2 /\ eval_every m1 = eval_every m2 /\
  max_bound_iterations m1 = max_bound_iterations m2 /\
  bound_improvement_threshold m1 = bound_improvement_threshold m2 /\
  optimize_alpha m1 = optimize_alpha m2 /\
  optimize_eta m1 = optimize_eta m2 /\ model_eta m1 = model_eta m2 /\
  iterations m1 = iterations m2 /\ gamma_threshold m1 = gamma_threshold m2 /\
  numworkers m1 = numworkers m2.

(** [numpy.random.gamma(shape, scale, (n, k))] returns an array of [n] rows
    of [k] numbers. *)
Definition draws_shape : Prop :=
  forall g n k, mat_shape n k (fst (random_gamma g n k)).

(** What a run of [update] keeps of the model [m0] it was called on, [N]
    being [state.numdocs] once the corpus has been counted in. *)
Definition update_keeps (m0 : LdaModel) (N : Z) (m : LdaModel) : Prop :=
  same_config m0 m /\
  numdocs (state m) = N /\
  eta (state m) = eta (state m0) /\
  (optimize_alpha m0 = false -> alpha m = alpha m0).

(** The counter [num_updates] inside the loop over the chunks of pass
    [pass_], which found it at [n0]: in the first pass it has advanced by
    the documents of the M-steps done, that is by all [reallen] documents
    seen but those still collected in [other]; in a later pass every M-step
    is an extra pass and it has not moved.  A clean [other] is empty. *)
Definition counted (pass_ : nat) (n0 : Z) (other : LdaState) (dirty : bool)
    (reallen : Z) (m : LdaModel) : Prop :=
  (dirty = false -> numdocs other = 0%Z) /\
  match pass_ with
  | O => (num_updates m + numdocs other = n0 + reallen)%Z
  | S _ => num_updates m = n0
  end.

(** A document that mentions a term id outside a vocabulary of [W] terms. *)
Definition unknown_term (W : nat) (dc : doc) : Prop :=
  Exists (fun p => (W <= fst p)%nat) dc.

(** *** [LdaModel.get_document_topics] *)

(** Python's [sum(v)]: from [0], left to right. *)
Definition py_sum (v : vec) : Qc := foldl Qcplus 0 v.

(** [enumerate(l)], counting from [i]. *)
Fixpoint enumerate_from {A : Type} (i : nat) (l : list A) : list (nat * A) :=
  match l with
  | nil => nil
  | x :: l' => (i, x) :: enumerate_from (S i) l'
  end.

Definition enumerate {A : Type} (l : list A) : list (nat * A) :=
  enumerate_from O l.

(** What [get_document_topics] returns: the transformed corpus that
    [self._apply(corpus)] builds (an object of [interfaces], not modelled
    further), or the topics of one document. *)
Inductive topics_result : Type :=
| TransformedCorpus
| Topics (l : list (nat * np_float)).

(** [get_document_topics(bow, minimum_probability)]; [minimum_probability]
    is the value after the default [self.minimum_probability] has been
    filled in.  [gamma[0] / sum(gamma[0])] is array division. *)
Definition get_document_topics (bow : doc) (minimum_probability : Qc)
  : M topics_result :=
  if is_corpus bow then ret TransformedCorpus
  else
    r <- inference (bow :: nil) false ;;
    gamma0 <- lift (np_lookup (fst r) O) ;;
    let topic_dist := map (fun x => np_quot x (py_sum gamma0)) gamma0 in
    ret (Topics (List.filter
                   (fun p => np_ge (snd p) minimum_probability)
                   (enumerate topic_dist))).

(** *** [LdaModel.__init__], without a dispatcher ([distributed=False]) *)

(** The argument [alpha]: [None], one of the three names, an array or a
    float. *)
Inductive alpha_arg : Type :=
| AlphaNone
| AlphaSymmetric
| AlphaAsymmetric
| AlphaAuto
| AlphaArray (a : vec)
| AlphaFloat (x : Qc).

(** The argument [eta]: [None], ['auto'], or a float or an array. *)
Inductive eta_arg : Type :=
| EtaNone
| EtaAuto
| EtaGiven (e : eta_val).

(** The arguments of the constructor that the serial model reads;
    [i_id2word] holds the keys of the mapping, and [passes] is an int, as
    its default is. *)
Record init_args : Type := mkInit {
  i_corpus : option (list doc);
  i_num_topics : nat;
  i_id2word : option (list nat);
  i_chunksize : option Z;
  i_passes : Z;
  i_update_every : option Z;
  i_alpha : alpha_arg;
  i_eta : eta_arg;
  i_decay : Qc;
  i_offset : Qc;
  i_eval_every : option Z;
  i_iterations : Z;
  i_gamma_threshold : Qc;
  i_algorithm : option string;
  i_max_bound_iterations : option Z;
  i_bound_improvement_threshold : Qc
}.

(** [self.num_terms] *)
Definition init_num_terms (corpus : option (list doc))
    (id2word : option (list nat)) : result nat :=
  match id2word with
  | None =>
      match corpus with
      | None => Raise (ValueError "at least one of corpus/id2word must be specified, to establish input space dimensionality")
      | Some c => Ok (corpus_num_terms c)
      end
  | Some keys =>
      Ok (if (0 <? length keys)%nat then S (foldr Nat.max O keys) else O)
  end.

(** What the constructor makes of [update_every], [eval_every],
    [chunksize], [passes] and [max_bound_iterations]. *)
Record init_cfg : Type := mkInitCfg {
  ic_update_every : Z;
  ic_eval_every : Z;
  ic_chunksize : Z;
  ic_passes : Z;
  ic_max_bound_iterations : Z
}.

(** The branch [algorithm == 'batch']. *)
Definition init_batch (update_every eval_every chunksize : option Z)
    (passes : Z) (max_bound_iterations : option Z)
  : result (option Z * option Z * option Z * Z * option Z) :=
  let? update_every :=
    match update_every with
    | None => Ok (Some 0%Z)
    | Some u => if negb (u =? 0)%Z
                then Raise (ValueError "The batch algorithm requires update_every = 0.")
                else Ok (Some u)
    end in
  let? eval_every :=
    match eval_every with
    | None => Ok (Some 1%Z)
    | Some e => if (e =? 0)%Z
                then Raise (ValueError "The batch algorithm requires eval_every > 0.")
                else Ok (Some e)
    end in
  let? chunksize :=
    match chunksize with
    | None => Ok (Some maxint)
    | Some c => if (c <? maxint)%Z
                then Raise (ValueError "The batch algorithm does not use multiple chunks.")
                else Ok (Some c)
    end in
  let? passes :=
    if (1 <? passes)%Z
    then Raise (ValueError "The batch algorithm does not use multiple passes.")
    else Ok passes in
  let? max_bound_iterations :=
    match max_bound_iterations with
    | None => Ok (Some 1000%Z)
    | Some m => if (m <=? 1)%Z
                then Raise (ValueError "The batch algorithm uses multiple bound iterations.")
                else Ok (Some m)
    end in
  Ok (update_every, eval_every, chunksize, passes, max_bound_iterations).

(** The branch [algorithm == 'online']. *)
Definition init_online (update_every eval_every chunksize : option Z)
    (passes : Z) (max_bound_iterations : option Z)
  : result (option Z * option Z * option Z * Z * option Z) :=
  let? update_every :=
    match update_every with
    | None => Ok (Some 1%Z)
    | Some u => if (u <=? 0)%Z
                then Raise (ValueError "The online algorithm requires update_every > 0.")
                else Ok (Some u)
    end in
  let? max_bound_iterations :=
    match max_bound_iterations with
    | None => Ok (Some 1%Z)
    | Some m => if negb (m =? 1)%Z
                then Raise (ValueError "The online algorithm does not use multiple bound iterations.")
                else Ok (Some m)
    end in
  Ok (update_every, eval_every, chunksize, passes, max_bound_iterations).

(** The checks of [algorithm], then the defaults. *)
Definition init_algorithm (algorithm : option string)
    (update_every eval_every chunksize : option Z) (passes : Z)
    (max_bound_iterations : option Z) : result init_cfg :=
  let? r :=
    match algorithm with
    | Some name =>
        if (name =? "batch")%string
        then init_batch update_every eval_every chunksize passes
                        max_bound_iterations
        else if (name =? "online")%string
        then init_online update_every eval_every chunksize passes
                         max_bound_iterations
        else Raise (ValueError "Unknown algorithm specified.")
    | None =>
        Ok (update_every, eval_every, chunksize, passes, max_bound_iterations)
    end in
  match r with
  | (update_every, eval_every, chunksize, passes, max_bound_iterations) =>
      Ok (mkInitCfg (default 1%Z update_every) (default 10%Z eval_every)
                    (default 2000%Z chunksize) passes
                    (default 1%Z max_bound_iterations))
  end.

(** [self.alpha]; the value [1.0 / num_topics] that the symmetric case logs
    is computed also when there is no topic. *)
Definition init_alpha (K : nat) (a : alpha_arg) : result vec :=
  match a with
  | AlphaNone | AlphaSymmetric =>
      let? x := py_div 1 (Z2Qc (Z.of_nat K)) in
      Ok (replicate K x)
  | AlphaAsymmetric =>
      let v := map (fun i => 1 / (Z2Qc (Z.of_nat i) + sqrt (Z2Qc (Z.of_nat K))))
                   (seq 0 K) in
      Ok (map (fun x => x / vec_sum v) v)
  | AlphaAuto => Ok (replicate K (1 / Z2Qc (Z.of_nat K)))
  | AlphaArray v =>
      if negb (length v =? K)%nat
      then Raise (RuntimeError "invalid alpha shape (must match num_topics)")
      else Ok v
  | AlphaFloat x => Ok (replicate K x)
  end.

(** A location that holds no array yet. *)
Definition new_loc (h : gmap loc matrix) : loc := fresh (dom h).

(** [self.eta]; ['auto'] allocates a column of [num_topics] numbers. *)
Definition init_eta (K : nat) (e : eta_arg) : M eta_val :=
  match e with
  | EtaNone =>
      x <- lift (py_div 1 (Z2Qc (Z.of_nat K))) ;;
      ret (EtaFloat x)
  | EtaAuto =>
      h <- gets heap ;;
      let l := new_loc h in
      modify (fun w =>
        mkWorld (<[l := replicate K ((1 / Z2Qc (Z.of_nat K)) :: nil)]> (heap w))
                (model w) (rng w)) ;;;
      ret (EtaArray l)
  | EtaGiven v => ret v
  end.

Definition is_alpha_auto (a : alpha_arg) : bool :=
  match a with AlphaAuto => true | _ => false end.

Definition is_eta_auto (e : eta_arg) : bool :=
  match e with EtaAuto => true | _ => false end.

(** The constructor: on return the world holds the new model object. *)
Definition LdaModel_init (a : init_args) : M unit :=
  self_num_terms <- lift (init_num_terms (i_corpus a) (i_id2word a)) ;;
  (if (self_num_terms =? 0)%nat
   then raise (ValueError "cannot compute LDA over an empty collection (no terms)")
   else ret tt) ;;;
  cfg <- lift (init_algorithm (i_algorithm a) (i_update_every a)
                              (i_eval_every a) (i_chunksize a) (i_passes a)
                              (i_max_bound_iterations a)) ;;
  self_alpha <- lift (init_alpha (i_num_topics a) (i_alpha a)) ;;
  self_eta <- init_eta (i_num_topics a) (i_eta a) ;;
  sst <- draw_gamma (i_num_topics a) self_num_terms ;;
  modify_model (fun _ =>
    mkModel self_num_terms (i_num_topics a) (ic_chunksize cfg) (i_decay a)
            (i_offset a) 0 (ic_passes cfg) (ic_update_every cfg)
            (Some (ic_eval_every cfg)) (ic_max_bound_iterations cfg)
            (i_bound_improvement_threshold a) (is_alpha_auto (i_alpha a))
            self_alpha (is_eta_auto (i_eta a)) self_eta (i_iterations a)
            (i_gamma_threshold a) 1 (mkState self_eta sst 0) nil) ;;;
  sync_state ;;;
  match i_corpus a with
  | Some corpus => update corpus no_args
  | None => ret tt
  end.

(** * Properties *)

(** ** Scalars and arrays *)

Lemma Z2Qc_eq0 (n : Z) : Z2Qc n = 0 <-> n = 0%Z.
Proof.
  unfold Z2Qc. change 0 with (Q2Qc (inject_Z 0)).
  rewrite Q2Qc_eq_iff. unfold Qeq, inject_Z; simpl. lia.
Qed.

Lemma py_div_ok (x y : Qc) : y <> 0 -> py_div x y = Ok (x / y).
Proof. intros Hy. unfold py_div. rewrite bool_decide_eq_false_2; auto. Qed.

Lemma mat_shape_add K W A B :
  mat_shape K W A -> mat_shape K W B -> mat_shape K W (mat_add A B).
Proof.
  unfold mat_shape, mat_add. intros [HA FA] [HB FB]. split.
  - rewrite length_zip_with. lia.
  - clear HA HB. revert B FB. induction FA as [|r A Hr FA IH]; intros [|r' B] FB; simpl; auto.
    inversion FB; subst. constructor; auto.
    unfold vec_add. rewrite length_zip_with. lia.
Qed.

Lemma mat_shape_scale K W c A : mat_shape K W A -> mat_shape K W (mat_scale c A).
Proof.
  unfold mat_shape, mat_scale. intros [HA FA]. split.
  - by rewrite length_map.
  - apply Forall_fmap. eapply Forall_impl; [|exact FA].
    intros r Hr. simpl. unfold vec_scale. rewrite length_map. exact Hr.
Qed.

Lemma mat_shape_const K W c : mat_shape K W (mat_const K W c).
Proof.
  unfold mat_shape, mat_const. split.
  - apply length_replicate.
  - apply Forall_replicate. apply length_replicate.
Qed.

Lemma mat_get_add A B k w x y :
  mat_get A k w = Some x -> mat_get B k w = Some y ->
  mat_get (mat_add A B) k w = Some (x + y).
Proof.
  unfold mat_get, mat_add. intros HA HB.
  destruct (A !! k) as [ra|] eqn:Ea; [|discriminate].
  destruct (B !! k) as [rb|] eqn:Eb; [|discriminate].
  rewrite lookup_zip_with, Ea. simpl. rewrite Eb. simpl.
  unfold vec_add. rewrite lookup_zip_with, HA. simpl. by rewrite HB.
Qed.

Lemma mat_get_scale c A k w x :
  mat_get A k w = Some x -> mat_get (mat_scale c A) k w = Some (c * x).
Proof.
  unfold mat_get, mat_scale. intros HA.
  destruct (A !! k) as [ra|] eqn:Ea; [|discriminate].
  rewrite list_lookup_fmap, Ea. simpl.
  unfold vec_scale. rewrite list_lookup_fmap, HA. done.
Qed.

Lemma mat_get_shape K W A k w :
  mat_shape K W A -> (k < K)%nat -> (w < W)%nat -> is_Some (mat_get A k w).
Proof.
  intros [HA FA] Hk Hw. unfold mat_get.
  destruct (lookup_lt_is_Some_2 A k) as [r Hr]; [lia|].
  rewrite Hr. apply lookup_lt_is_Some_2.
  rewrite Forall_forall in FA. rewrite (FA r); [lia|].
  apply list_elem_of_In. eapply list_elem_of_lookup_2; eauto.
Qed.

Lemma vec_add_comm (u v : vec) : vec_add u v = vec_add v u.
Proof.
  unfold vec_add. revert v. induction u as [|x u IH]; intros [|y v]; simpl; auto.
  f_equal; [ring | apply IH].
Qed.

Lemma vec_add_assoc (u v w : vec) :
  vec_add (vec_add u v) w = vec_add u (vec_add v w).
Proof.
  unfold vec_add. revert v w.
  induction u as [|x u IH]; intros [|y v] [|z w]; simpl; auto.
  f_equal; [ring | apply IH].
Qed.

Lemma mat_add_comm (A B : matrix) : mat_add A B = mat_add B A.
Proof.
  unfold mat_add. revert B. induction A as [|r A IH]; intros [|r' B]; simpl; auto.
  f_equal; [apply vec_add_comm | apply IH].
Qed.

Lemma mat_add_assoc (A B C : matrix) :
  mat_add (mat_add A B) C = mat_add A (mat_add B C).
Proof.
  unfold mat_add. revert B C.
  induction A as [|r A IH]; intros [|r' B] [|r'' C]; simpl; auto.
  f_equal; [apply vec_add_assoc | apply IH].
Qed.

(** ** [LdaState.merge] *)

Lemma merge_comm (a b : LdaState) :
  sstats (merge a b) = sstats (merge b a) /\
  numdocs (merge a b) = numdocs (merge b a).
Proof. simpl. split; [apply mat_add_comm | lia]. Qed.

Lemma merge_assoc (a b c : LdaState) :
  sstats (merge (merge a b) c) = sstats (merge a (merge b c)) /\
  numdocs (merge (merge a b) c) = numdocs (merge a (merge b c)).
Proof. simpl. split; [apply mat_add_assoc | lia]. Qed.

(** In exact arithmetic: for states [a], [b] (and [c]) of one shape
    [K x W], after [merge(a, b)] every entry of the merged [sstats] is the sum
    of the two entries, the shape is kept, and [numdocs] is the sum of the two
    counts; on the pair (sstats, numdocs) [merge] is commutative and
    associative. *)
Lemma merge_exact (K W : nat) (a b c : LdaState) :
  mat_shape K W (sstats a) -> mat_shape K W (sstats b) ->
  mat_shape K W (sstats c) ->
  (mat_shape K W (sstats (merge a b)) /\
   (forall k w x y,
      mat_get (sstats a) k w = Some x -> mat_get (sstats b) k w = Some y ->
      mat_get (sstats (merge a b)) k w = Some (x + y)) /\
   numdocs (merge a b) = (numdocs a + numdocs b)%Z) /\
  (sstats (merge a b) = sstats (merge b a) /\
   numdocs (merge a b) = numdocs (merge b a)) /\
  (sstats (merge (merge a b) c) = sstats (merge a (merge b c)) /\
   numdocs (merge (merge a b) c) = numdocs (merge a (merge b c))).
Proof.
  intros Ha Hb Hc. split; [|split].
  - split; [|split].
    + simpl. by apply mat_shape_add.
    + intros k w x y Hx Hy. simpl. by apply mat_get_add.
    + reflexivity.
  - apply merge_comm.
  - apply merge_assoc.
Qed.

(** *** In double precision *)

Lemma SFadd_comm (prec emax : Z) (x y : SpecFloat.spec_float) :
  SpecFloat.SFadd prec emax x y = SpecFloat.SFadd prec emax y x.
Proof.
  destruct x as [sx|sx| |sx mx ex], y as [sy|sy| |sy my ey]; cbn;
    try reflexivity.
  - destruct sx, sy; reflexivity.
  - destruct sx, sy; reflexivity.
  - rewrite Z.min_comm, Z.add_comm. reflexivity.
Qed.

(** The addition of two doubles is commutative. *)
Lemma float_add_comm (x y : float) : PrimFloat.add x y = PrimFloat.add y x.
Proof.
  rewrite <- (FloatAxioms.SF2Prim_Prim2SF (PrimFloat.add x y)).
  rewrite <- (FloatAxioms.SF2Prim_Prim2SF (PrimFloat.add y x)).
  rewrite !FloatAxioms.add_spec. unfold FloatAxioms.SF64add.
  by rewrite SFadd_comm.
Qed.

Lemma zip_with_float_add_comm (u v : list float) :
  zip_with PrimFloat.add u v = zip_with PrimFloat.add v u.
Proof.
  revert v. induction u as [|x u IH]; intros [|y v]; cbn; try reflexivity.
  by rewrite float_add_comm, IH.
Qed.

Lemma mat_add64_comm (A B : matrix64) : mat_add64 A B = mat_add64 B A.
Proof.
  unfold mat_add64. revert B.
  induction A as [|r A IH]; intros [|r' B]; cbn; try reflexivity.
  by rewrite zip_with_float_add_comm, IH.
Qed.

Lemma mat_shape64_add (K W : nat) (A B : matrix64) :
  mat_shape64 K W A -> mat_shape64 K W B -> mat_shape64 K W (mat_add64 A B).
Proof.
  intros [HA1 HA2] [HB1 HB2]. unfold mat_add64. split.
  - rewrite length_zip_with. lia.
  - apply Forall_forall. intros r Hin.
    apply list_elem_of_In, elem_of_lookup_zip_with in Hin.
    destruct Hin as (i & u & v & -> & Hu & Hv).
    rewrite length_zip_with.
    rewrite (Forall_lookup_1 _ _ _ _ HA2 Hu), (Forall_lookup_1 _ _ _ _ HB2 Hv).
    lia.
Qed.

Lemma mat_get64_add (A B : matrix64) (k w : nat) (x y : float) :
  mat_get64 A k w = Some x -> mat_get64 B k w = Some y ->
  mat_get64 (mat_add64 A B) k w = Some (PrimFloat.add x y).
Proof.
  unfold mat_get64, mat_add64. intros HA HB.
  destruct (A !! k) as [u|] eqn:Hu; [|discriminate].
  destruct (B !! k) as [v|] eqn:Hv; [|discriminate].
  rewrite lookup_zip_with, Hu, Hv. cbn.
  rewrite lookup_zip_with, HA, HB. reflexivity.
Qed.

(** C3, as the code has it.  For states [a] and [b] of one shape [K x W]:
    after [merge(a, b)] the shape is kept, every entry of the merged [sstats]
    is the binary64 sum of the two entries (the value of
    [a.sstats + b.sstats], one rounded addition per entry) and [numdocs] is
    the sum of the two counts; on the pair (sstats, numdocs) [merge] is
    commutative; and on [numdocs] it is associative.  On [sstats] it is not:
    the rounded additions do not associate. *)
Theorem merge64_sum_commutative (K W : nat) (a b c : LdaState64) :
  mat_shape64 K W (sstats64 a) -> mat_shape64 K W (sstats64 b) ->
  (mat_shape64 K W (sstats64 (merge64 a b)) /\
   (forall k w x y,
      mat_get64 (sstats64 a) k w = Some x ->
      mat_get64 (sstats64 b) k w = Some y ->
      mat_get64 (sstats64 (merge64 a b)) k w = Some (PrimFloat.add x y)) /\
   numdocs64 (merge64 a b) = (numdocs64 a + numdocs64 b)%Z) /\
  merge64 a b = merge64 b a /\
  numdocs64 (merge64 (merge64 a b) c) = numdocs64 (merge64 a (merge64 b c)).
Proof.
  intros Ha Hb. split; [|split].
  - split; [|split].
    + cbn. by apply mat_shape64_add.
    + intros k w x y Hx Hy. cbn. by apply mat_get64_add.
    + reflexivity.
  - unfold merge64. f_equal; [apply mat_add64_comm | lia].
  - cbn. lia.
Qed.

(** ** [LdaState.blend] *)

Lemma blend_scale_guard (target n : Z) :
  n = 0%Z \/ target = n -> blend_scale target n = Ok 1.
Proof.
  intros H. unfold blend_scale.
  destruct H as [-> | ->]; [reflexivity|].
  rewrite Z.eqb_refl. by rewrite orb_true_r.
Qed.

Lemma blend_scale_divides (target n : Z) :
  n <> 0%Z -> blend_scale target n = Ok (Z2Qc target / Z2Qc n).
Proof.
  intros Hn. unfold blend_scale.
  assert (Hq : Z2Qc n <> 0) by (by rewrite Z2Qc_eq0).
  destruct (Z.eqb_spec n 0) as [|_]; [contradiction|]. simpl.
  destruct (Z.eqb_spec target n) as [->|_].
  - f_equal. by field.
  - rewrite py_div_ok by assumption. f_equal. by field.
Qed.

Lemma blend_scale_total (target n : Z) :
  blend_scale target n = Ok (if (n =? 0)%Z then 1 else Z2Qc target / Z2Qc n).
Proof.
  destruct (Z.eqb_spec n 0) as [->|Hn].
  - apply blend_scale_guard. by left.
  - by apply blend_scale_divides.
Qed.

(** The second scenario of the specification (S2), for every [K] and [W]. *)
Lemma vec_S2 (W : nat) :
  vec_add (vec_scale ((1 - Q2Qc (1 # 2)) * 1) (replicate W 0))
          (vec_scale (Q2Qc (1 # 2) * (Z2Qc 10 / Z2Qc 5)) (replicate W (Z2Qc 10)))
  = replicate W (Z2Qc 10).
Proof.
  induction W as [|W IH]; [reflexivity|].
  simpl. rewrite IH. f_equal.
Qed.

Lemma blend_S2 (e : eta_val) (K W : nat) :
  blend (mkState e (zeros K W) 0) (Q2Qc (1 # 2))
        (mkState e (mat_const K W (Z2Qc 10)) 5) (Some 10%Z)
  = Ok (mkState e (mat_const K W (Z2Qc 10)) 10).
Proof.
  unfold blend. rewrite !blend_scale_total. simpl. do 2 f_equal.
  unfold zeros, mat_const, mat_add, mat_scale.
  induction K as [|K IH]; [reflexivity|].
  simpl. f_equal; [apply vec_S2 | exact IH].
Qed.

(** C1, as the code has it.  For states [s], [o] of one shape, every [rho] and
    every [targetSize] [t] (the default being [s.numdocs]), [blend] returns,
    sets every entry of [s.sstats] to
    [(1-rho)*scale_s*s.sstats + rho*scale_o*o.sstats] with
    [scale_s = t/s.numdocs] (1 when [s.numdocs = 0]) and
    [scale_o = t/o.numdocs] (1 when [o.numdocs = 0]), and sets
    [s.numdocs = t]; in particular the scenario S2 yields [10*ones(K,W)] and
    [numdocs = 10]. *)
Theorem blend_formula (K W : nat) (s o : LdaState) (rho : Qc) (t : option Z) :
  mat_shape K W (sstats s) -> mat_shape K W (sstats o) ->
  let target := default (numdocs s) t in
  let scale_s := if (numdocs s =? 0)%Z then 1
                 else Z2Qc target / Z2Qc (numdocs s) in
  let scale_o := if (numdocs o =? 0)%Z then 1
                 else Z2Qc target / Z2Qc (numdocs o) in
  (exists s',
     blend s rho o t = Ok s' /\
     numdocs s' = target /\
     mat_shape K W (sstats s') /\
     forall k w x y,
       mat_get (sstats s) k w = Some x -> mat_get (sstats o) k w = Some y ->
       mat_get (sstats s') k w
       = Some ((1 - rho) * scale_s * x + rho * scale_o * y)) /\
  (forall e K' W',
     blend (mkState e (zeros K' W') 0) (Q2Qc (1 # 2))
           (mkState e (mat_const K' W' (Z2Qc 10)) 5) (Some 10%Z)
     = Ok (mkState e (mat_const K' W' (Z2Qc 10)) 10)).
Proof.
  intros Hs Ho target scale_s scale_o. split; [|apply blend_S2].
  unfold blend.
  replace (match t with Some t0 => t0 | None => numdocs s end) with target
    by (by destruct t).
  rewrite !blend_scale_total. simpl. fold scale_s scale_o.
  eexists; split; [reflexivity|]. simpl. split; [reflexivity|]. split.
  - apply mat_shape_add; by apply mat_shape_scale.
  - intros k w x y Hx Hy.
    apply mat_get_add; by apply mat_get_scale.
Qed.

(** C1 as stated fails where [o.numdocs = 0]: the stated factor of [o.sstats]
    is [rho*(t/o.numdocs)], a quotient by zero (which is [0] in [Qc] and an
    error in Python), while the code takes the scale [1] there. *)
Lemma blend_as_specified_fails :
  let s := mkState (EtaFloat 1) (mat_const 1 1 0) 0 in
  let o := mkState (EtaFloat 1) (mat_const 1 1 (Z2Qc 10)) 0 in
  blend s (Q2Qc (1 # 2)) o (Some 10%Z)
    = Ok (mkState (EtaFloat 1) (mat_const 1 1 (Z2Qc 5)) 10) /\
  sstats (blend_as_specified s (Q2Qc (1 # 2)) o (Some 10%Z)) = mat_const 1 1 0 /\
  blend s (Q2Qc (1 # 2)) o (Some 10%Z)
    <> Ok (blend_as_specified s (Q2Qc (1 # 2)) o (Some 10%Z)).
Proof.
  split; [reflexivity|]. split; [reflexivity|]. intros H. discriminate H.
Qed.

(** C10.  [blend] is total with respect to division: for every pair of
    states, every [rho] and every target it returns a state and never raises
    [ZeroDivisionError]; each of the two stretch factors is [1], with no
    division, when the respective [numdocs] is [0] or equals the target, and
    is the quotient by a non-zero [numdocs] otherwise. *)
Theorem blend_never_divides_by_zero (s o : LdaState) (rho : Qc) (t : option Z) :
  (exists s', blend s rho o t = Ok s') /\
  blend s rho o t <> Raise ZeroDivisionError /\
  (forall target n, n = 0%Z \/ target = n -> blend_scale target n = Ok 1) /\
  (forall target n, n <> 0%Z -> target <> n ->
     Z2Qc n <> 0 /\
     blend_scale target n = py_div (1 * Z2Qc target) (Z2Qc n) /\
     blend_scale target n = Ok (Z2Qc target / Z2Qc n)).
Proof.
  assert (Hex : exists s', blend s rho o t = Ok s').
  { unfold blend. rewrite !blend_scale_total. simpl. eauto. }
  split; [exact Hex|]. split; [|split].
  - destruct Hex as [s' ->]. discriminate.
  - apply blend_scale_guard.
  - intros target n Hn Ht. split; [by rewrite Z2Qc_eq0|]. split.
    + unfold blend_scale.
      destruct (Z.eqb_spec n 0); [contradiction|].
      destruct (Z.eqb_spec target n); [contradiction|]. reflexivity.
    + by apply blend_scale_divides.
Qed.

(** ** The per-document loop of [inference] *)

Lemma eps100_pos : 0 < eps100.
Proof. reflexivity. Qed.

Lemma rbind_ok {A B : Type} (r : result A) (k : A -> result B) (b : B) :
  rbind r k = Ok b -> exists a, r = Ok a /\ k a = Ok b.
Proof. destruct r as [a|e]; simpl; [eauto | discriminate]. Qed.


Lemma rmapM_length {A B : Type} (f : A -> result B) (l : list A) ys :
  rmapM f l = Ok ys -> length ys = length l.
Proof.
  revert ys. induction l as [|x l IH]; simpl; intros ys H.
  - by inversion H.
  - apply rbind_ok in H as [y [_ H]]. apply rbind_ok in H as [zs [Hz H]].
    inversion H; subst. simpl. f_equal. by apply IH.
Qed.

Lemma gamma_iter_spec (a cts : vec) (B : matrix) (v v' : doc_vars)
    (mc : np_float) :
  gamma_iter a cts B v = Ok (v', mc) ->
  exists ratio,
    np_div cts (phinorm v) = Ok ratio /\
    gammad v' = vec_add a (vec_mul (expElogthetad v) (dot_mv ratio B)) /\
    Elogthetad v' = dirichlet_expectation (gammad v') /\
    expElogthetad v' = map exp (Elogthetad v') /\
    phinorm v' = phinorm_of (length cts) (expElogthetad v') B /\
    np_mean (map Qcabs (vec_sub (gammad v') (gammad v))) = mc.
Proof.
  unfold gamma_iter, gamma_update. intros H.
  apply rbind_ok in H as [g [Hg H]].
  apply rbind_ok in Hg as [ratio [Hr Hg]]. inversion Hg; subst g; clear Hg.
  cbv zeta in H. inversion H; subst; clear H.
  exists ratio. simpl. repeat split; auto.
Qed.



Lemma Qcltb_spec (x y : Qc) : Qcltb x y = true <-> x < y.
Proof. unfold Qcltb. apply bool_decide_eq_true. Qed.


(** *** The loop returns: no division by zero *)


Lemma Z2Qc_of_nat_ne0 (n : nat) : (0 < n)%nat -> Z2Qc (Z.of_nat n) <> 0.
Proof. intros Hn. rewrite Z2Qc_eq0. lia. Qed.

(** The mean of an array that is not empty is a number. *)
Lemma np_mean_ok (v : vec) :
  (0 < length v)%nat ->
  np_mean v = Finite (vec_sum v / Z2Qc (Z.of_nat (length v))).
Proof.
  intros Hv. unfold np_mean, np_quot.
  rewrite bool_decide_eq_false_2; [reflexivity|].
  by apply Z2Qc_of_nat_ne0.
Qed.

Lemma vec_add_nonneg (u v : vec) :
  Forall (fun x => 0 <= x) u -> Forall (fun x => 0 <= x) v ->
  Forall (fun x => 0 <= x) (vec_add u v).
Proof.
  unfold vec_add. intros Hu. revert v.
  induction Hu as [|x u Hx Hu IH]; intros [|y v] Hv; simpl; auto.
  inversion Hv; subst. constructor; [by apply Qcplus_nonneg_nonneg | by apply IH].
Qed.

Lemma vec_scale_nonneg (c : Qc) (v : vec) :
  0 <= c -> Forall (fun x => 0 <= x) v ->
  Forall (fun x => 0 <= x) (vec_scale c v).
Proof.
  intros Hc Hv. unfold vec_scale. apply Forall_fmap.
  eapply Forall_impl; [|exact Hv]. intros x Hx. simpl.
  by apply Qcmult_nonneg_nonneg.
Qed.

Lemma dot_vm_nonneg (N : nat) (v : vec) (B : matrix) :
  Forall (fun x => 0 <= x) v -> mat_nonneg B ->
  Forall (fun x => 0 <= x) (dot_vm N v B).
Proof.
  unfold dot_vm, mat_nonneg. intros Hv. revert B.
  induction Hv as [|x v Hx Hv IH]; intros [|r B] HB; simpl;
    try (apply Forall_replicate; apply Qcle_refl).
  inversion HB; subst.
  apply vec_add_nonneg; [by apply vec_scale_nonneg | by apply IH].
Qed.

Lemma phinorm_of_pos (N : nat) (X : vec) (B : matrix) :
  Forall (fun x => 0 <= x) X -> mat_nonneg B ->
  Forall (fun x => 0 < x) (phinorm_of N X B).
Proof.
  intros HX HB. unfold phinorm_of. apply Forall_fmap.
  eapply Forall_impl; [|exact (dot_vm_nonneg N X B HX HB)].
  intros x Hx. simpl. apply Qcplus_nonneg_pos; [exact Hx | apply eps100_pos].
Qed.

Section Positive.

Hypothesis exp_pos : forall x, 0 < exp x.

Lemma map_exp_nonneg (v : vec) : Forall (fun x => 0 <= x) (map exp v).
Proof using exp_pos.
  apply Forall_fmap, Forall_forall. intros x _. simpl.
  apply Qclt_le_weak, exp_pos.
Qed.









End Positive.

(** *** The empty document *)

Lemma select_cols_nil (beta : matrix) :
  select_cols beta nil = Ok (map (fun _ => nil) beta).
Proof.
  unfold select_cols. induction beta as [|r beta IH]; simpl in *; [done|].
  by rewrite IH.
Qed.

Lemma dot_vm_nil (X : vec) (B : matrix) :
  dot_vm 0 X (map (fun _ => nil) B) = nil.
Proof.
  unfold dot_vm. revert B. induction X as [|x X IH]; intros [|r B]; simpl; auto.
Qed.

Lemma vec_add_mul_zeros (a X : vec) (B : matrix) :
  length a = length X -> length a = length B ->
  vec_add a (vec_mul X (dot_mv nil (map (fun _ : vec => nil) B))) = a.
Proof.
  unfold vec_add, vec_mul, dot_mv. revert X B.
  induction a as [|x a IH]; intros [|y X] [|r B] H1 H2; simpl in *;
    try discriminate; auto.
  f_equal; [ring | apply IH; lia].
Qed.

Lemma vec_sum_abs_sub_self (a : vec) :
  vec_sum (map Qcabs (vec_sub a a)) = 0.
Proof.
  unfold vec_sub. induction a as [|x a IH]; simpl; [done|].
  rewrite IH. replace (x - x) with 0 by ring. reflexivity.
Qed.

Lemma gamma_iter_empty (K : nat) (a : vec) (B : matrix) (v : doc_vars) :
  (0 < K)%nat -> length a = K -> length B = K ->
  length (gammad v) = K -> length (expElogthetad v) = K ->
  exists v',
    gamma_iter a nil (map (fun _ => nil) B) v
    = Ok (v', np_mean (map Qcabs (vec_sub a (gammad v)))) /\
    gammad v' = a /\ length (expElogthetad v') = K /\ phinorm v' = nil.
Proof.
  intros HK Ha HB Hg HX. unfold gamma_iter, gamma_update. simpl.
  rewrite vec_add_mul_zeros by (rewrite ?length_map; lia).
  eexists. split; [reflexivity|]. simpl.
  split; [done|]. split.
  - unfold dirichlet_expectation. rewrite !length_map. done.
  - unfold phinorm_of. by rewrite dot_vm_nil.
Qed.

Lemma gamma_loop_empty (K n : nat) (a : vec) (thr : Qc) (B : matrix)
    (v : doc_vars) :
  (0 < K)%nat -> length a = K -> length B = K ->
  length (gammad v) = K -> length (expElogthetad v) = K ->
  exists v' conv,
    gamma_loop (S n) a nil thr (map (fun _ => nil) B) v = Ok (v', conv) /\
    gammad v' = a /\ phinorm v' = nil.
Proof.
  intros HK Ha HB. revert v. induction n as [|n IH]; intros v Hg HX.
  - destruct (gamma_iter_empty K a B v HK Ha HB Hg HX)
      as (v1 & Hit & Hg1 & _ & Hp1).
    cbn [gamma_loop]. rewrite Hit. cbn [rbind fst snd].
    destruct (np_lt (np_mean (map Qcabs (vec_sub a (gammad v)))) thr); eauto.
  - destruct (gamma_iter_empty K a B v HK Ha HB Hg HX)
      as (v1 & Hit & Hg1 & HX1 & Hp1).
    change (gamma_loop (S (S n)) a nil thr (map (fun _ => nil) B) v)
      with (let? vm := gamma_iter a nil (map (fun _ => nil) B) v in
            if np_lt (snd vm) thr then Ok (fst vm, true)
            else gamma_loop (S n) a nil thr (map (fun _ => nil) B) (fst vm)).
    rewrite Hit. cbn [rbind fst snd].
    destruct (np_lt (np_mean (map Qcabs (vec_sub a (gammad v)))) thr);
      [eauto|].
    apply IH; [by rewrite Hg1 | done].
Qed.

(** The mean change of a turn that finds [gammad = alpha] is [0]. *)
Lemma np_mean_abs_sub_self (K : nat) (a : vec) :
  (0 < K)%nat -> length a = K ->
  np_mean (map Qcabs (vec_sub a a)) = Finite 0.
Proof.
  intros HK Ha. rewrite np_mean_ok.
  - rewrite vec_sum_abs_sub_self. f_equal. unfold Qcdiv. ring.
  - unfold vec_sub. rewrite length_map, length_zip_with. lia.
Qed.

(** Once [gammad] is [alpha], the next turn leaves by [break]. *)
Lemma gamma_loop_empty_at_alpha (K n : nat) (a : vec) (thr : Qc) (B : matrix)
    (v : doc_vars) :
  (0 < K)%nat -> length a = K -> length B = K -> 0 < thr ->
  gammad v = a -> length (expElogthetad v) = K ->
  exists v',
    gamma_loop (S n) a nil thr (map (fun _ => nil) B) v = Ok (v', true).
Proof.
  intros HK Ha HB Hthr Hg HX.
  destruct (gamma_iter_empty K a B v HK Ha HB) as (v1 & Hit & _);
    [by rewrite Hg | done |].
  rewrite Hg, (np_mean_abs_sub_self K a HK Ha) in Hit.
  cbn [gamma_loop]. rewrite Hit. cbn [rbind fst snd np_lt].
  assert (Hlt : Qcltb 0 thr = true) by (by apply Qcltb_spec).
  rewrite Hlt. eauto.
Qed.

(** The loop on an empty document, with [K >= 1] topics and at least one
    turn allowed: the normalizer [phinorm] is the empty array, so the loop
    divides by nothing and returns; after one turn [gammad] is [alpha]; the
    returned [gammad] is [alpha]; and [alpha] is a fixed point whose turn has
    mean change [0], so with a positive threshold and a second turn allowed
    the loop leaves by [break]. *)
Lemma estep_doc_empty (K : nat) (a : vec) (iters : Z)
    (thr : Qc) (beta : matrix) (g0 E0 X0 : vec) :
  (0 < K)%nat -> length a = K -> length beta = K ->
  length g0 = K -> length X0 = K -> (1 <= iters)%Z ->
  let B := map (fun _ : vec => nil) beta in
  let v0 := mkVars g0 E0 X0 nil in
  select_cols beta nil = Ok B /\
  phinorm_of 0 X0 B = nil /\
  (exists v1, run_iters 1 a nil B v0 = Ok v1 /\ gammad v1 = a /\
              phinorm v1 = nil) /\
  (exists v conv,
     estep_doc a iters thr beta nil g0 E0 X0 = Ok (v, conv) /\
     gammad v = a /\ phinorm v = nil /\
     (0 < thr -> (2 <= iters)%Z -> conv = true)) /\
  np_mean (map Qcabs (vec_sub a a)) = Finite 0.
Proof.
  intros HK Ha Hbeta Hg0 HX0 Hiters B v0.
  assert (HB : length B = K) by (unfold B; by rewrite length_map).
  assert (Hphi : phinorm_of 0 X0 B = nil).
  { unfold phinorm_of, B. by rewrite dot_vm_nil. }
  split; [apply select_cols_nil|]. split; [exact Hphi|]. split; [|split].
  - destruct (gamma_iter_empty K a beta v0 HK Ha Hbeta Hg0 HX0)
      as (v1 & Hit & Hg1 & _ & Hp1).
    exists v1. unfold B. cbn [run_iters rbind]. rewrite Hit.
    cbn [rbind fst]. auto.
  - unfold estep_doc. rewrite select_cols_nil. simpl. fold B.
    rewrite Hphi. fold v0.
    destruct (Z.to_nat iters) as [|n] eqn:Hn; [lia|].
    destruct (gamma_loop_empty K n a thr beta v0 HK Ha Hbeta Hg0 HX0)
      as (v & conv & Hloop & Hg & Hp).
    fold B in Hloop. exists v, conv. split; [exact Hloop|].
    split; [exact Hg|]. split; [exact Hp|].
    intros Hthr H2. destruct n as [|n']; [lia|].
    destruct (gamma_iter_empty K a beta v0 HK Ha Hbeta Hg0 HX0)
      as (v1 & Hit & Hg1 & HX1 & _).
    fold B in Hit.
    change (gamma_loop (S (S n')) a nil thr B v0)
      with (let? vm := gamma_iter a nil B v0 in
            if np_lt (snd vm) thr then Ok (fst vm, true)
            else gamma_loop (S n') a nil thr B (fst vm)) in Hloop.
    rewrite Hit in Hloop. cbn [rbind fst snd] in Hloop.
    destruct (np_lt (np_mean (map Qcabs (vec_sub a (gammad v0)))) thr);
      [by inversion Hloop|].
    destruct (gamma_loop_empty_at_alpha K n' a thr beta v1
                HK Ha Hbeta Hthr Hg1 HX1) as (v' & Hl').
    fold B in Hl'. rewrite Hl' in Hloop. by inversion Hloop.
  - by apply (np_mean_abs_sub_self K).
Qed.

(** ** [inference] only reads the model *)

Lemma read_only_ret {A : Type} (a : A) : read_only (ret a).
Proof. intros w. by cbv. Qed.

Lemma read_only_raise {A : Type} (e : exn) : read_only (@raise A e).
Proof. intros w. by cbv. Qed.

Lemma read_only_lift {A : Type} (r : result A) : read_only (lift r).
Proof. intros w. by cbv. Qed.

Lemma read_only_gets {A : Type} (f : World -> A) : read_only (gets f).
Proof. intros w. by cbv. Qed.

Lemma read_only_draw_gamma (n k : nat) : read_only (draw_gamma n k).
Proof. intros w. by cbv. Qed.

Lemma read_only_bind {A B : Type} (c : M A) (k : A -> M B) :
  read_only c -> (forall a, read_only (k a)) -> read_only (bind c k).
Proof.
  intros Hc Hk w. unfold bind.
  specialize (Hc w). destruct (c w) as [[r w'] t].
  unfold out_world, out_events in *. simpl in Hc. destruct Hc as (Hh & Hm & Ht).
  destruct r as [a|e]; simpl.
  - specialize (Hk a w'). destruct (k a w') as [[r' w''] t'].
    unfold out_world, out_events in Hk. simpl in *.
    destruct Hk as (Hh' & Hm' & Ht'). subst t t'. split; [congruence|].
    split; [congruence | done].
  - auto.
Qed.

Ltac read_only_tac :=
  repeat first
    [ apply read_only_ret | apply read_only_raise | apply read_only_lift
    | apply read_only_gets | apply read_only_draw_gamma
    | assumption
    | apply read_only_bind; [|intros ?]
    | match goal with
      | |- read_only (match ?x with _ => _ end) => destruct x
      end ].

Lemma read_only_infer_docs (collect : bool) (Elogtheta expElogtheta : matrix)
    (chunk : list doc) :
  forall d gamma sst converged,
    read_only (infer_docs collect Elogtheta expElogtheta d chunk gamma sst
                          converged).
Proof.
  induction chunk as [|dc rest IH]; intros d gamma sst converged; simpl.
  - apply read_only_ret.
  - read_only_tac. apply IH.
Qed.

Lemma read_only_inference (chunk : list doc) (collect : bool) :
  read_only (inference chunk collect).
Proof.
  unfold inference. read_only_tac. apply read_only_infer_docs.
Qed.

Lemma deterministic_ret {A : Type} (a : A) : deterministic (ret a).
Proof. intros w1 w2 H. by cbv. Qed.

Lemma deterministic_raise {A : Type} (e : exn) : deterministic (@raise A e).
Proof. intros w1 w2 H. by cbv. Qed.

Lemma deterministic_lift {A : Type} (r : result A) : deterministic (lift r).
Proof. intros w1 w2 H. by cbv. Qed.

Lemma deterministic_gets {A : Type} (f : World -> A) :
  (forall w1 w2, same_inputs w1 w2 -> f w1 = f w2) -> deterministic (gets f).
Proof.
  intros Hf w1 w2 H. unfold gets, out_result, out_world. simpl.
  split; [f_equal; by apply Hf | done].
Qed.

Lemma deterministic_draw_gamma (n k : nat) : deterministic (draw_gamma n k).
Proof.
  intros w1 w2 H. unfold draw_gamma, out_result, out_world; simpl.
  destruct H as (Hr & Hrest). rewrite Hr. split; [done|].
  unfold same_inputs. simpl. auto.
Qed.

Lemma deterministic_bind {A B : Type} (c : M A) (k : A -> M B) :
  deterministic c -> (forall a, deterministic (k a)) ->
  deterministic (bind c k).
Proof.
  intros Hc Hk w1 w2 H. unfold bind.
  specialize (Hc w1 w2 H).
  destruct (c w1) as [[r1 w1'] t1], (c w2) as [[r2 w2'] t2].
  unfold out_result, out_world in *. simpl in Hc. destruct Hc as (Hr & Hw).
  subst r2. destruct r1 as [a|e]; simpl; [|auto].
  specialize (Hk a w1' w2' Hw).
  destruct (k a w1') as [[r1 w1''] t1'], (k a w2') as [[r2 w2''] t2'].
  exact Hk.
Qed.

Ltac deterministic_tac :=
  repeat first
    [ apply deterministic_ret | apply deterministic_raise
    | apply deterministic_lift | apply deterministic_draw_gamma
    | assumption
    | apply deterministic_gets;
      let H := fresh in
      intros ? ? H; destruct H as (? & ? & ? & ? & ? & ?); assumption
    | apply deterministic_bind; [|intros ?]
    | match goal with
      | |- deterministic (match ?x with _ => _ end) => destruct x
      end ].

Lemma deterministic_infer_docs (collect : bool)
    (Elogtheta expElogtheta : matrix) (chunk : list doc) :
  forall d gamma sst converged,
    deterministic (infer_docs collect Elogtheta expElogtheta d chunk gamma sst
                              converged).
Proof.
  induction chunk as [|dc rest IH]; intros d gamma sst converged; simpl.
  - apply deterministic_ret.
  - deterministic_tac. apply IH.
Qed.

Lemma deterministic_inference (chunk : list doc) (collect : bool) :
  deterministic (inference chunk collect).
Proof.
  unfold inference. deterministic_tac. apply deterministic_infer_docs.
Qed.

(** C9.  [inference(chunk, collect_sstats=False)] leaves the model object
    (alpha, eta, the state with its sstats, num_updates, expElogbeta, ...) and
    the arrays behind [eta] exactly as they were, hence [lambda] too, and logs
    no step; its result is a function of the generator state and of the
    attributes it reads, so two calls from the same model state and the same
    generator state return the same gamma. *)
Theorem inference_is_read_only (chunk : list doc) :
  (forall w,
     let o := inference chunk false w in
     heap (out_world o) = heap w /\
     model (out_world o) = model w /\
     get_lambda (heap (out_world o)) (state (model (out_world o)))
     = get_lambda (heap w) (state (model w)) /\
     out_events o = nil) /\
  (forall w1 w2,
     same_inputs w1 w2 ->
     out_result (inference chunk false w1)
     = out_result (inference chunk false w2)) /\
  (forall w1 w2,
     model w1 = model w2 -> rng w1 = rng w2 ->
     out_result (inference chunk false w1)
     = out_result (inference chunk false w2)).
Proof.
  split; [|split].
  - intros w o. destruct (read_only_inference chunk false w) as (Hh & Hm & Ht).
    fold o in Hh, Hm, Ht. rewrite Hh, Hm. repeat split; auto.
  - intros w1 w2 H. by apply deterministic_inference.
  - intros w1 w2 Hm Hr. apply deterministic_inference.
    unfold same_inputs. rewrite Hm. repeat split; auto.
Qed.

(** ** [update_alpha] *)

Lemma all_positive_spec (v : vec) :
  all_positive v = true <-> Forall (fun x => 0 < x) v.
Proof.
  unfold all_positive. rewrite forallb_forall, Forall_forall.
  split; intros H x Hx; apply Qcltb_spec; auto.
Qed.

Lemma set_alpha_same (m : LdaModel) : set_alpha (alpha m) m = m.
Proof. by destruct m. Qed.

(** C5.  For a call [update_alpha(gammat, rho)] on a non-empty batch, with
    [dalpha] the Newton step it computes: the method returns; the new [alpha]
    is [alpha + rho*dalpha] when that is strictly positive element-wise and
    the old [alpha], untouched, otherwise; nothing else of the model changes;
    the value returned is the (possibly unchanged) [self.alpha]; and from a
    strictly positive [alpha], the new [alpha] equals [alpha + rho*dalpha] if
    and only if that is strictly positive, and is strictly positive either
    way. *)
Theorem update_alpha_keeps_alpha_positive (w : World) (gammat : matrix)
    (rho : Qc) :
  gammat <> nil ->
  Forall (fun x => 0 < x) (alpha (model w)) ->
  exists logphat a',
    let a := alpha (model w) in
    let N := Z2Qc (Z.of_nat (length gammat)) in
    let dalpha := newton_step N a logphat in
    let cand := vec_add a (vec_scale rho dalpha) in
    mean_dirichlet_expectation gammat = Ok logphat /\
    update_alpha gammat rho w
    = (Ok a', mkWorld (heap w) (set_alpha a' (model w)) (rng w), nil) /\
    (Forall (fun x => 0 < x) cand -> a' = cand) /\
    (~ Forall (fun x => 0 < x) cand ->
     a' = a /\ out_world (update_alpha gammat rho w) = w) /\
    (a' = cand <-> Forall (fun x => 0 < x) cand) /\
    Forall (fun x => 0 < x) a'.
Proof using psi trigamma RNG.
  intros Hne Hpos.
  destruct gammat as [|g rest]; [done|]. clear Hne.
  set (gammat := g :: rest).
  destruct (mean_dirichlet_expectation gammat) as [logphat|e] eqn:Hlog;
    [|discriminate Hlog].
  set (a := alpha (model w)).
  set (N := Z2Qc (Z.of_nat (length gammat))).
  set (dalpha := newton_step N a logphat).
  set (cand := vec_add a (vec_scale rho dalpha)).
  assert (Hcomm : vec_add (vec_scale rho dalpha) a = cand)
    by apply vec_add_comm.
  exists logphat.
  destruct (all_positive cand) eqn:Hall.
  - exists cand. cbv zeta. fold a N dalpha cand.
    assert (Hc : Forall (fun x => 0 < x) cand) by (by apply all_positive_spec).
    split; [done|]. split.
    { unfold update_alpha, bind, lift, gets, modify_model, modify, ret.
      rewrite Hlog. cbv beta iota zeta. fold a N dalpha.
      rewrite Hcomm, Hall. reflexivity. }
    split; [done|]. split; [intros Hn; contradiction|].
    split; [split; [intros _; exact Hc | reflexivity] | exact Hc].
  - exists a. cbv zeta. fold a N dalpha cand.
    assert (Hc : ~ Forall (fun x => 0 < x) cand).
    { intros Hc. apply all_positive_spec in Hc. congruence. }
    assert (Hrun : update_alpha gammat rho w = (Ok a, w, nil)).
    { unfold update_alpha, bind, lift, gets, modify_model, modify, ret.
      rewrite Hlog. cbv beta iota zeta. fold a N dalpha.
      rewrite Hcomm, Hall. reflexivity. }
    split; [done|]. split.
    { rewrite Hrun. unfold a. rewrite set_alpha_same. by destruct w. }
    split; [intros; contradiction|]. split.
    { intros _. split; [done|]. by rewrite Hrun. }
    split; [|exact Hpos].
    split; [|intros; contradiction].
    intros Heq. exfalso. apply Hc. rewrite <- Heq. exact Hpos.
Qed.

(** ** [do_mstep] and the cache [expElogbeta] *)

Lemma update_eta_frame (lambdat : matrix) (rho : Qc) (w : World) :
  let o := update_eta lambdat rho w in
  model (out_world o) = model w /\
  rng (out_world o) = rng w /\
  out_events o = nil /\
  (heap (out_world o) = heap w \/
   exists l deta,
     model_eta (model w) = EtaArray l /\
     all_positive (vec_add (vec_scale rho deta) (concat (heap w !!! l))) = true /\
     heap (out_world o)
     = <[l := map (fun x => x :: nil)
                  (vec_add (concat (heap w !!! l)) (vec_scale rho deta))]>
         (heap w)).
Proof.
  unfold update_eta, bind, gets, lift, raise, modify, ret,
    out_world, out_events.
  cbv beta iota zeta.
  destruct (model_eta (model w)) as [x|l]; [simpl; auto|].
  destruct (negb (ncols (heap w !!! l) =? 1)%nat); [simpl; auto|].
  destruct (mean_dirichlet_expectation (transpose lambdat)) as [logphat|e];
    [|simpl; auto].
  cbv beta iota.
  destruct (negb (length logphat =? num_topics (model w))%nat); [simpl; auto|].
  match goal with
  | |- context [all_positive (vec_add (vec_scale rho ?d) _)] => set (deta := d)
  end.
  destruct (all_positive (vec_add (vec_scale rho deta) (concat (heap w !!! l))))
    eqn:Hall; simpl; [|auto].
  repeat split; auto. right. exists l, deta. auto.
Qed.

(** C4, as the code has it.  When [do_mstep] returns, the state is the blend
    and the cache [expElogbeta] is [exp(dirichlet_expectation(eta + sstats))]
    for the new [sstats] and for [eta] as it was before the call; the method
    calls [update_eta] only after it has refreshed the cache.  So the cache
    matches the current [lambda] when [optimize_eta] is off, while an accepted
    step of [update_eta], which changes the array behind [eta] in place,
    leaves the cache computed from the old [eta]. *)
Theorem do_mstep_syncs_before_eta_update (w : World) (rho : Qc)
    (other : LdaState) (extra_pass : bool) :
  let o := do_mstep rho other extra_pass w in
  match out_result o with
  | Ok _ =>
      exists st,
        blend (state (model w)) rho other None = Ok st /\
        state (model (out_world o)) = st /\
        expElogbeta (model (out_world o))
        = map (map exp) (get_Elogbeta (heap w) st) /\
        (optimize_eta (model w) = false ->
         heap (out_world o) = heap w /\
         expElogbeta (model (out_world o))
         = map (map exp) (get_Elogbeta (heap (out_world o))
                                       (state (model (out_world o))))) /\
        (heap (out_world o) = heap w \/
         exists l deta,
           optimize_eta (model w) = true /\
           model_eta (model w) = EtaArray l /\
           heap (out_world o)
           = <[l := map (fun x => x :: nil)
                        (vec_add (concat (heap w !!! l)) (vec_scale rho deta))]>
               (heap w))
  | Raise _ => True
  end.
Proof.
  unfold do_mstep, sync_state, call_print_topics, bind, gets, lift,
    modify_model, modify, ret, out_result, out_world.
  cbv beta iota zeta.
  destruct (blend (state (model w)) rho other None) as [st|e]; [|exact I].
  cbn [fst snd heap model rng id optimize_eta set_state set_expElogbeta state
       expElogbeta].
  match goal with
  | |- context [print_topics ?m ?h ?g] =>
      destruct (print_topics m h g) as [[pt|e] g']
  end; cbn [fst snd heap model rng id optimize_eta set_state set_expElogbeta
            state expElogbeta]; [|exact I].
  destruct (optimize_eta (model w)) eqn:Hopt.
  - match goal with
    | |- context [update_eta ?lam rho ?w1] =>
        pose proof (update_eta_frame lam rho w1) as Hf;
        destruct (update_eta lam rho w1) as [[r w2] t]
    end.
    unfold out_world, out_events in Hf. cbn [fst snd heap model rng] in Hf.
    destruct Hf as (Hm & Hr & Ht & Hh).
    destruct r as [u|e]; [|exact I].
    destruct (negb extra_pass); cbn [fst snd model heap];
      (exists st; rewrite Hm; cbn [model_eta set_state set_expElogbeta
                                    set_num_updates state expElogbeta];
       split; [done|]; split; [done|]; split; [done|];
       split; [intros; discriminate|];
       destruct Hh as [Hh | (l & deta & Heta & _ & Hh)];
       [by left | right; exists l, deta; auto]).
  - destruct (negb extra_pass); cbn [fst snd model heap set_num_updates
                                     set_state set_expElogbeta state
                                     expElogbeta];
      (exists st; repeat split; auto).
Qed.

(** ** A small logic for the methods *)

Lemma bind_run {A B : Type} (c : M A) (k : A -> M B) (w : World) :
  bind c k w
  = match out_result (c w) with
    | Ok a =>
        (out_result (k a (out_world (c w))),
         out_world (k a (out_world (c w))),
         out_events (c w) ++ out_events (k a (out_world (c w))))
    | Raise e => (Raise e, out_world (c w), out_events (c w))
    end.
Proof.
  unfold bind, out_result, out_world, out_events.
  destruct (c w) as [[[a|e] w'] t]; simpl; [|done].
  by destruct (k a w') as [[r w''] t'].
Qed.

Lemma out_result_mk {A : Type} (r : result A) (w : World) (t : list event) :
  out_result (r, w, t) = r.
Proof. reflexivity. Qed.

Lemma out_world_mk {A : Type} (r : result A) (w : World) (t : list event) :
  out_world (r, w, t) = w.
Proof. reflexivity. Qed.

Lemma out_events_mk {A : Type} (r : result A) (w : World) (t : list event) :
  out_events (r, w, t) = t.
Proof. reflexivity. Qed.

Lemma silent_bind {A B : Type} (c : M A) (k : A -> M B) :
  silent c -> (forall a, silent (k a)) -> silent (bind c k).
Proof.
  intros Hc Hk w. rewrite bind_run. specialize (Hc w).
  destruct (out_result (c w)) as [a|e]; rewrite out_events_mk.
  - by rewrite Hc, Hk.
  - exact Hc.
Qed.

Lemma quiet_silent {A : Type} (c : M A) : quiet c -> silent c.
Proof. intros H w. apply H. Qed.

Lemma quiet_bind {A B : Type} (c : M A) (k : A -> M B) :
  quiet c -> (forall a, quiet (k a)) -> quiet (bind c k).
Proof.
  intros Hc Hk w. rewrite bind_run. destruct (Hc w) as [Ht Hn].
  destruct (out_result (c w)) as [a|e];
    rewrite out_events_mk, out_world_mk.
  - destruct (Hk a (out_world (c w))) as [Ht' Hn']. rewrite Ht, Ht'.
    split; [done | congruence].
  - auto.
Qed.

Lemma read_only_quiet {A : Type} (c : M A) : read_only c -> quiet c.
Proof. intros H w. destruct (H w) as (_ & Hm & Ht). by rewrite Hm. Qed.

Lemma quiet_ret {A : Type} (a : A) : quiet (ret a).
Proof. apply read_only_quiet, read_only_ret. Qed.

Lemma quiet_raise {A : Type} (e : exn) : quiet (@raise A e).
Proof. apply read_only_quiet, read_only_raise. Qed.

Lemma quiet_lift {A : Type} (r : result A) : quiet (lift r).
Proof. apply read_only_quiet, read_only_lift. Qed.

Lemma quiet_gets {A : Type} (f : World -> A) : quiet (gets f).
Proof. apply read_only_quiet, read_only_gets. Qed.

Lemma quiet_inference (chunk : list doc) (collect : bool) :
  quiet (inference chunk collect).
Proof. apply read_only_quiet, read_only_inference. Qed.

Ltac quiet_tac :=
  repeat first
    [ apply quiet_ret | apply quiet_raise | apply quiet_lift | apply quiet_gets
    | apply quiet_inference
    | assumption
    | apply quiet_bind; [|intros ?]
    | match goal with
      | |- quiet (match ?x with _ => _ end) => destruct x
      | |- quiet (if ?x then _ else _) => destruct x
      end ].

Lemma quiet_bound_gammas (chunk : list doc) : quiet (bound_gammas chunk).
Proof. induction chunk as [|dc rest IH]; simpl; quiet_tac. Qed.

Lemma quiet_log_perplexity (chunk : list doc) (total_docs : Z) :
  quiet (log_perplexity chunk total_docs).
Proof.
  unfold log_perplexity. destruct chunk; [apply quiet_raise|].
  quiet_tac. apply quiet_bound_gammas.
Qed.

Lemma quiet_do_estep (chunk : list doc) (st : LdaState) :
  quiet (do_estep chunk st).
Proof. unfold do_estep. quiet_tac. Qed.

Lemma quiet_set_alpha (a : vec) : quiet (modify_model (set_alpha a)).
Proof. intros w. by cbv. Qed.

Lemma quiet_update_alpha (gammat : matrix) (r : Qc) :
  quiet (update_alpha gammat r).
Proof. unfold update_alpha. quiet_tac. apply quiet_set_alpha. Qed.

Lemma quiet_fresh_other : quiet fresh_other.
Proof. unfold fresh_other. quiet_tac. Qed.

Lemma rho_run (c : run_cfg) (pass_ : nat) (w : World) :
  rho c pass_ w = (rho_formula c pass_ (num_updates (model w)), w, nil).
Proof.
  unfold rho, rho_formula, bind, gets, lift.
  destruct (py_int_div py2_division (num_updates (model w)) (c_chunksize c));
    reflexivity.
Qed.

Lemma quiet_rho (c : run_cfg) (pass_ : nat) : quiet (rho c pass_).
Proof. intros w. by rewrite rho_run. Qed.

Lemma silent_update_eta (lambdat : matrix) (r : Qc) :
  silent (update_eta lambdat r).
Proof. intros w. apply (update_eta_frame lambdat r w). Qed.

Lemma silent_modify (f : World -> World) : silent (modify f).
Proof. intros w. by cbv. Qed.

Lemma silent_call_print_topics : silent call_print_topics.
Proof. intros w. reflexivity. Qed.

Lemma silent_do_mstep (r : Qc) (other : LdaState) (extra_pass : bool) :
  silent (do_mstep r other extra_pass).
Proof.
  unfold do_mstep, sync_state, modify_model.
  repeat first
    [ apply silent_modify | apply silent_update_eta
    | apply silent_call_print_topics
    | apply quiet_silent; quiet_tac; fail
    | apply silent_bind; [|intros ?]
    | match goal with
      | |- silent (if ?x then _ else _) => destruct x
      end ].
Qed.

Lemma triple_bind {A B : Type} (P : World -> Prop) (G : event -> Prop)
    (c : M A) (R : A -> World -> Prop) (k : A -> M B) (Q : B -> World -> Prop) :
  triple P G c R -> (forall a, triple (R a) G (k a) Q) ->
  triple P G (bind c k) Q.
Proof.
  intros Hc Hk w HP. rewrite bind_run. destruct (Hc w HP) as [Ht HR].
  destruct (out_result (c w)) as [a|e];
    rewrite out_events_mk, out_result_mk, ?out_world_mk.
  - destruct (Hk a (out_world (c w)) (HR a eq_refl)) as [Ht' HQ].
    split; [by apply Forall_app | exact HQ].
  - split; [exact Ht | discriminate].
Qed.

Lemma triple_conseq {A : Type} (P P' : World -> Prop) (G : event -> Prop)
    (c : M A) (Q Q' : A -> World -> Prop) :
  (forall w, P' w -> P w) -> (forall a w, Q a w -> Q' a w) ->
  triple P G c Q -> triple P' G c Q'.
Proof.
  intros HP HQ Hc w Hw. destruct (Hc w (HP w Hw)) as [Ht Hq].
  split; [exact Ht | intros a Ha; by apply HQ, Hq].
Qed.

Lemma triple_ret {A : Type} (P : World -> Prop) (G : event -> Prop) (a : A) :
  triple P G (ret a) (fun _ w => P w).
Proof. intros w HP. split; [constructor | intros ? _; exact HP]. Qed.

Lemma triple_raise {A : Type} (P : World -> Prop) (G : event -> Prop)
    (e : exn) (Q : A -> World -> Prop) :
  triple P G (raise e) Q.
Proof. intros w HP. split; [constructor | discriminate]. Qed.

Lemma triple_lift {A : Type} (P : World -> Prop) (G : event -> Prop)
    (r : result A) :
  triple P G (lift r) (fun a w => P w /\ r = Ok a).
Proof. intros w HP. split; [constructor | intros a Ha; by split]. Qed.

Lemma triple_gets {A : Type} (P : World -> Prop) (G : event -> Prop)
    (f : World -> A) :
  triple P G (gets f) (fun a w => P w /\ a = f w).
Proof.
  intros w HP. split; [constructor|]. intros a Ha. inversion Ha. by split.
Qed.

Lemma triple_tell (P : World -> Prop) (G : event -> Prop) (e : event) :
  (forall w, P w -> G e) -> triple P G (tell e) (fun _ w => P w).
Proof.
  intros HG w HP. split; [|intros ? _; exact HP].
  constructor; [by apply (HG w) | constructor].
Qed.

Lemma triple_quiet {A : Type} (phi : Z -> Prop) (G : event -> Prop) (c : M A) :
  quiet c ->
  triple (fun w => phi (num_updates (model w))) G c
         (fun _ w => phi (num_updates (model w))).
Proof.
  intros Hc w HP. destruct (Hc w) as [Ht Hn]. rewrite Ht, Hn.
  split; [constructor | auto].
Qed.

Lemma triple_silent {A : Type} (P : World -> Prop) (G : event -> Prop)
    (c : M A) :
  silent c -> triple P G c (fun _ _ => True).
Proof. intros Hc w HP. rewrite (Hc w). split; [constructor | auto]. Qed.

(** *** The learning rate at the M-steps *)

Lemma mstep_call_good (c : run_cfg) (pass_ bound_iteration : nat) (n0 : Z)
    (other : LdaState) :
  triple (batch_at c n0) (good_event c pass_ n0)
         (mstep_call c pass_ bound_iteration other) (fun _ _ => True).
Proof.
  intros w HP. split; [|auto].
  unfold mstep_call. rewrite bind_run, rho_run, out_result_mk, out_world_mk.
  destruct (rho_formula c pass_ (num_updates (model w))) as [r|e] eqn:Hr;
    rewrite out_events_mk; [|rewrite out_events_mk; constructor].
  rewrite out_events_mk. simpl.
  rewrite bind_run. unfold gets at 1 2 3.
  rewrite out_result_mk, out_world_mk, !out_events_mk. simpl.
  rewrite bind_run. unfold tell at 1 2 3.
  rewrite out_result_mk, out_world_mk, !out_events_mk.
  rewrite (silent_do_mstep r other _ w). simpl.
  constructor; [|constructor].
  split; [reflexivity|]. split; [exact Hr | exact HP].
Qed.

Lemma batch_at_quiet {A : Type} (c : run_cfg) (n0 : Z) (G : event -> Prop)
    (m : M A) :
  quiet m -> triple (batch_at c n0) G m (fun _ w => batch_at c n0 w).
Proof.
  intros Hm.
  apply (triple_quiet (fun n => truthy (c_update_every c) = false -> n = n0)
           G m Hm).
Qed.

Lemma mstep_due_true (ue workers : Z) (chunk_no : nat) :
  mstep_due ue workers chunk_no = Ok true -> truthy ue = true.
Proof.
  unfold mstep_due. destruct (truthy ue); [done|]. simpl. discriminate.
Qed.

Lemma triple_pure {A : Type} (P : World -> Prop) (phi : Prop)
    (G : event -> Prop) (c : M A) (Q : A -> World -> Prop) :
  (phi -> triple P G c Q) -> triple (fun w => P w /\ phi) G c Q.
Proof. intros H w [HP Hphi]. by apply H. Qed.

Lemma chunk_loop_good (c : run_cfg) (pass_ bound_iteration : nat) (n0 : Z)
    (chunks : list (list doc)) :
  forall chunk_no other dirty reallen perwordbound,
    triple (batch_at c n0) (good_event c pass_ n0)
           (chunk_loop c pass_ bound_iteration chunk_no chunks other dirty
                       reallen perwordbound)
           (fun _ w => batch_at c n0 w).
Proof.
  induction chunks as [|chunk rest IH];
    intros chunk_no other dirty reallen perwordbound.
  - simpl. apply triple_ret.
  - cbn [chunk_loop].
    eapply triple_bind; [apply batch_at_quiet, quiet_gets|]. intros m.
    eapply triple_bind; [apply batch_at_quiet, quiet_lift|]. intros due.
    eapply triple_bind.
    { apply batch_at_quiet. destruct due; [|apply quiet_ret].
      apply quiet_bind; [apply quiet_log_perplexity|]. intros ?.
      apply quiet_ret. }
    intros pwb.
    eapply triple_bind.
    { apply triple_tell. intros w _. by split. }
    intros ?.
    eapply triple_bind; [apply batch_at_quiet, quiet_do_estep|]. intros go.
    eapply triple_bind; [apply batch_at_quiet, quiet_gets|]. intros m1.
    eapply triple_bind.
    { apply batch_at_quiet. destruct (optimize_alpha m1); [|apply quiet_ret].
      apply quiet_bind; [apply quiet_rho|]. intros r.
      apply quiet_bind; [apply quiet_update_alpha|]. intros ?.
      apply quiet_ret. }
    intros ?.
    eapply triple_bind; [apply batch_at_quiet, quiet_gets|]. intros m2.
    eapply triple_bind; [apply triple_lift|]. intros due2.
    apply triple_pure. intros Hdue.
    destruct due2.
    + apply mstep_due_true in Hdue.
      eapply triple_bind; [apply mstep_call_good|]. intros ?.
      apply (triple_conseq (batch_at c n0) _ _ _ (fun _ w => batch_at c n0 w)).
      { intros w _ Hb. congruence. }
      { auto. }
      eapply triple_bind; [apply batch_at_quiet, quiet_fresh_other|].
      intros other'. apply IH.
    + apply IH.
Qed.

Lemma triple_ret_any {A : Type} (P : World -> Prop) (G : event -> Prop)
    (a : A) :
  triple P G (ret a) (fun _ _ => True).
Proof. apply triple_silent. intros w. reflexivity. Qed.

Lemma triple_lift_any {A : Type} (P : World -> Prop) (G : event -> Prop)
    (r : result A) :
  triple P G (lift r) (fun _ _ => True).
Proof. apply triple_silent. intros w. reflexivity. Qed.

Lemma triple_gets_bind {A B : Type} (P : World -> Prop) (G : event -> Prop)
    (f : World -> A) (k : A -> M B) (Q : B -> World -> Prop) :
  (forall w0, P w0 -> triple (fun w => w = w0) G (k (f w0)) Q) ->
  triple P G (bind (gets f) k) Q.
Proof.
  intros H w HP. rewrite bind_run. unfold gets at 1 2 3 4.
  rewrite out_result_mk, out_world_mk, !out_events_mk. simpl.
  destruct (H w HP w eq_refl) as [Ht HQ].
  rewrite out_result_mk, out_world_mk. split; [exact Ht | exact HQ].
Qed.

Lemma bound_iteration_body_good (c : run_cfg) (pass_ bound_iteration : nat)
    (n0 : Z) :
  triple (fun w => bound_iteration = O -> num_updates (model w) = n0)
         (good_event c pass_ n0)
         (bound_iteration_body c pass_ bound_iteration n0)
         (fun _ _ => True).
Proof.
  unfold bound_iteration_body.
  eapply (triple_bind _ _ _ (fun _ w => num_updates (model w) = n0)).
  { intros w HP. destruct bound_iteration as [|b]; simpl.
    - split; [constructor|]. intros _ _. by apply HP.
    - split; [constructor|]. intros _ _. reflexivity. }
  intros ?. apply triple_gets_bind. intros w0 Hw0.
  eapply triple_bind.
  { apply triple_tell. intros w ->. split; [reflexivity | exact Hw0]. }
  intros ?.
  apply (triple_conseq (batch_at c n0) _ _ _ (fun _ _ => True)).
  { intros w -> _. exact Hw0. }
  { auto. }
  eapply triple_bind; [apply batch_at_quiet, quiet_fresh_other|].
  intros other.
  cbv zeta.
  eapply triple_bind; [apply chunk_loop_good|]. intros r.
  eapply triple_bind.
  { apply batch_at_quiet.
    destruct (snd (grouper (c_corpus c) (c_chunksize c)));
      [apply quiet_raise | apply quiet_ret]. }
  intros ?.
  destruct (negb (snd (fst r) =? c_lencorpus c)%Z); [apply triple_raise|].
  eapply (triple_bind _ _ _ (fun _ _ => True)).
  - destruct (snd (fst (fst r))); [apply mstep_call_good|].
    apply triple_ret_any.
  - intros ?. apply triple_ret_any.
Qed.

Lemma bound_loop_good (fuel : nat) (c : run_cfg) (pass_ : nat) (n0 : Z) :
  forall bound_iteration last_perwordbound,
    triple (fun w => bound_iteration = O -> num_updates (model w) = n0)
           (good_event c pass_ n0)
           (bound_loop fuel c pass_ bound_iteration n0 last_perwordbound)
           (fun _ _ => True).
Proof.
  induction fuel as [|fuel IH]; intros b last; cbn [bound_loop].
  - apply triple_ret_any.
  - eapply triple_bind; [apply bound_iteration_body_good|]. intros pwb.
    assert (Hnext : forall l,
      triple (fun _ : World => True) (good_event c pass_ n0)
             (bound_loop fuel c pass_ (S b) n0 l) (fun _ _ => True)).
    { intros l. eapply triple_conseq; [| |apply (IH (S b) l)]; auto.
      intros w _ Hb. discriminate. }
    destruct pwb as [perwordbound|]; [|apply Hnext].
    destruct (improvement_below last perwordbound
                (c_bound_improvement_threshold c)); [|apply Hnext].
    apply triple_ret_any.
Qed.

Lemma pass_body_good (c : run_cfg) (pass_ : nat) (w : World) :
  Forall (good_event c pass_ (num_updates (model w)))
         (out_events (pass_body c pass_ w)).
Proof.
  assert (H : triple (fun w' => w' = w)
                (good_event c pass_ (num_updates (model w)))
                (pass_body c pass_) (fun _ _ => True)).
  { unfold pass_body. apply triple_gets_bind. intros w0 ->.
    eapply triple_bind.
    { apply triple_tell. intros w1 _. by split. }
    intros ?.
    eapply triple_conseq; [| |apply bound_loop_good]; auto.
    intros w1 -> _. reflexivity. }
  by apply (H w).
Qed.

Lemma pass_loop_good (c : run_cfg) (passes_ : list nat) :
  NoDup passes_ ->
  forall w,
    exists f : nat -> Z,
      Forall (fun e => In (event_pass e) passes_ /\
                       good_event c (event_pass e) (f (event_pass e)) e)
             (out_events (pass_loop c passes_ w)).
Proof.
  induction 1 as [|p rest Hnotin Hnd IH]; intros w.
  - exists (fun _ => 0%Z). simpl. constructor.
  - cbn [pass_loop]. rewrite bind_run.
    pose proof (pass_body_good c p w) as Hp.
    set (n0 := num_updates (model w)) in *.
    assert (Hhead : forall f : nat -> Z, f p = n0 ->
      Forall (fun e => In (event_pass e) (p :: rest) /\
                       good_event c (event_pass e) (f (event_pass e)) e)
             (out_events (pass_body c p w))).
    { intros f Hf. eapply Forall_impl; [|exact Hp].
      intros e He. simpl in He. destruct He as [Hpe He].
      rewrite Hpe, Hf. split; [by left|]. by split. }
    destruct (out_result (pass_body c p w)) as [u|e]; rewrite out_events_mk.
    + destruct (IH (out_world (pass_body c p w))) as [f Hf].
      exists (fun q => if Nat.eq_dec q p then n0 else f q).
      apply Forall_app. split.
      * apply (Hhead (fun q => if Nat.eq_dec q p then n0 else f q)).
        by destruct (Nat.eq_dec p p).
      * eapply Forall_impl; [|exact Hf].
        intros e He. simpl in He. destruct He as [Hin He].
        split; [by right|].
        destruct (Nat.eq_dec (event_pass e) p) as [Heq|_]; [|exact He].
        exfalso. apply Hnotin. apply list_elem_of_In. by rewrite <- Heq.
    + exists (fun _ => n0). by apply (Hhead (fun _ => n0)).
Qed.

Lemma bind_ret_run {A B : Type} (a : A) (k : A -> M B) (w : World) :
  bind (ret a) k w = k a w.
Proof. unfold bind, ret. by destruct (k a w) as [[r w'] t]. Qed.

Lemma bind_raise_run {A B : Type} (e : exn) (k : A -> M B) (w : World) :
  bind (raise e) k w = (Raise e, w, nil).
Proof. reflexivity. Qed.

Lemma bind_gets_run {A B : Type} (f : World -> A) (k : A -> M B) (w : World) :
  bind (gets f) k w = k (f w) w.
Proof. unfold bind, gets. by destruct (k (f w) w) as [[r w'] t]. Qed.

Lemma bind_modify_run {B : Type} (f : World -> World) (k : unit -> M B)
    (w : World) :
  bind (modify f) k w = k tt (f w).
Proof. unfold bind, modify. by destruct (k tt (f w)) as [[r w'] t]. Qed.

Lemma bind_lift_run {A B : Type} (r : result A) (k : A -> M B) (w : World) :
  bind (lift r) k w
  = match r with
    | Ok a => k a w
    | Raise e => (Raise e, w, nil)
    end.
Proof.
  unfold bind, lift. destruct r as [a|e]; [|done].
  by destruct (k a w) as [[r' w'] t].
Qed.

(** The four ways a call of [update] goes: an empty corpus returns at once;
    a rejected configuration raises [ValueError] before anything is logged;
    [updates_per_pass] may divide by zero; otherwise the passes run. *)
Lemma update_run (corpus : list doc) (a : update_args) (w : World) :
  let c := update_cfg (model w) corpus a in
  (corpus = nil /\ update corpus a w = (Ok tt, w, nil)) \/
  (corpus <> nil /\ rejected c /\
   exists msg w1, update corpus a w = (Raise (ValueError msg), w1, nil)) \/
  (corpus <> nil /\ ~ rejected c /\ updateafter_of (model w) c = 0%Z /\
   exists w1, update corpus a w = (Raise ZeroDivisionError, w1, nil)) \/
  (corpus <> nil /\ ~ rejected c /\ updateafter_of (model w) c <> 0%Z /\
   exists w1,
     update corpus a w = pass_loop c (seq 0 (Z.to_nat (c_passes c))) w1).
Proof.
  intros c. unfold update. rewrite bind_gets_run. fold c.
  destruct corpus as [|d corpus'].
  { left. split; [done|]. reflexivity. }
  right. set (corpus := d :: corpus') in *.
  assert (Hne : corpus <> nil) by discriminate.
  assert (Hlen : (c_lencorpus c =? 0)%Z = false).
  { unfold c, update_cfg, corpus. simpl. reflexivity. }
  rewrite Hlen. unfold modify_model. rewrite bind_modify_run.
  match goal with |- context [bind _ _ ?x] => set (w1 := x) end.
  cbv zeta.
  change (if truthy (c_update_every c)
          then Z.min (c_lencorpus c)
                     (c_update_every c * numworkers (model w) * c_chunksize c)
          else c_lencorpus c)
    with (updateafter_of (model w) c).
  set (rest := pass_loop c (seq 0 (Z.to_nat (c_passes c)))).
  assert (Hfin : ~ rejected c ->
    (corpus <> nil /\ ~ rejected c /\ updateafter_of (model w) c = 0%Z /\
     exists w1',
       bind (lift (py_int_div py2_division (c_lencorpus c)
                              (updateafter_of (model w) c)))
            (fun _ => rest) w1
       = (Raise ZeroDivisionError, w1', nil)) \/
    (corpus <> nil /\ ~ rejected c /\ updateafter_of (model w) c <> 0%Z /\
     exists w1',
       bind (lift (py_int_div py2_division (c_lencorpus c)
                              (updateafter_of (model w) c)))
            (fun _ => rest) w1
       = rest w1')).
  { intros Hnr. rewrite bind_lift_run. unfold py_int_div.
    destruct (Z.eqb_spec (updateafter_of (model w) c) 0) as [Hz|Hz];
      [left|right]; (split; [exact Hne|]); (split; [exact Hnr|]);
      (split; [exact Hz|]); eauto. }
  destruct (Z.ltb_spec 1 (c_max_bound_iterations c)) as [H1|H1];
    destruct (truthy (c_update_every c)) eqn:Hue.
  - (* online with several bound iterations *)
    rewrite bind_raise_run. left. split; [exact Hne|]. split; [|eauto].
    right. left. split; [exact H1|]. unfold truthy in Hue.
    intros Heq. rewrite Heq in Hue. discriminate.
  - rewrite bind_ret_run.
    destruct (Z.ltb_spec (c_max_bound_iterations c) 1) as [H2|H2]; [lia|].
    rewrite bind_ret_run.
    destruct (Z.ltb_spec 0 (or0 (c_eval_every c))) as [H3|H3];
      cbn [andb negb].
    + rewrite bind_ret_run. right. apply Hfin.
      unfold rejected, truthy in *. intros [Hr|[[_ Hr]|[_ Hr]]];
        [lia| |lia].
      apply Hr. destruct (Z.eqb_spec (c_update_every c) 0); [done|].
      discriminate.
    + rewrite bind_raise_run. left. split; [exact Hne|]. split; [|eauto].
      right. right. split; [exact H1 | lia].
  - rewrite bind_ret_run.
    destruct (Z.ltb_spec (c_max_bound_iterations c) 1) as [H2|H2].
    + rewrite bind_raise_run. left. split; [exact Hne|]. split; [|eauto].
      by left.
    + rewrite bind_ret_run. cbn [andb]. rewrite bind_ret_run.
      right. apply Hfin.
      unfold rejected. intros [Hr|[[Hr _]|[Hr _]]]; lia.
  - rewrite bind_ret_run.
    destruct (Z.ltb_spec (c_max_bound_iterations c) 1) as [H2|H2].
    + rewrite bind_raise_run. left. split; [exact Hne|]. split; [|eauto].
      by left.
    + rewrite bind_ret_run. cbn [andb]. rewrite bind_ret_run.
      right. apply Hfin.
      unfold rejected. intros [Hr|[[Hr _]|[Hr _]]]; lia.
Qed.

(** [update] logs what its passes log, and nothing when it returns early or
    rejects the configuration. *)
Lemma update_events (corpus : list doc) (a : update_args) (w : World) :
  let c := update_cfg (model w) corpus a in
  out_events (update corpus a w) = nil \/
  (~ (truthy (c_update_every c) = true /\ (1 < c_max_bound_iterations c)%Z) /\
   exists w1,
     out_events (update corpus a w)
     = out_events (pass_loop c (seq 0 (Z.to_nat (c_passes c))) w1)).
Proof.
  intros c.
  destruct (update_run corpus a w)
    as [[_ H] | [(_ & _ & msg & w1 & H) | [(_ & _ & _ & w1 & H)
                                          | (_ & Hnr & _ & w1 & H)]]];
    fold c in H; rewrite H; try (by left).
  right. split; [|eauto]. fold c in Hnr.
  intros [Hue Hmbi]. apply Hnr. right. left. split; [exact Hmbi|].
  intros Heq. unfold truthy in Hue. rewrite Heq in Hue. discriminate.
Qed.

Lemma mstep_call_run (c : run_cfg) (pass_ bound_iteration : nat)
    (other : LdaState) (w : World) :
  mstep_call c pass_ bound_iteration other w
  = match rho_formula c pass_ (num_updates (model w)) with
    | Ok r =>
        let o := do_mstep r other (0 <? pass_)%nat w in
        (out_result o, out_world o,
         EvMstep pass_ bound_iteration (num_updates (model w)) r
           :: out_events o)
    | Raise e => (Raise e, w, nil)
    end.
Proof.
  unfold mstep_call. rewrite bind_run, rho_run, out_result_mk, out_world_mk,
    out_events_mk.
  destruct (rho_formula c pass_ (num_updates (model w))) as [r|e];
    [|reflexivity].
  rewrite bind_gets_run. unfold bind, tell. cbv zeta.
  by destruct (do_mstep r other (0 <? pass_)%nat w) as [[r' w'] t'].
Qed.

Lemma bound_iteration_body_reset (c : run_cfg) (pass_ bound_iteration : nat)
    (n0 : Z) (w : World) :
  bound_iteration_body c pass_ (S bound_iteration) n0 w
  = bound_iteration_body c pass_ (S bound_iteration) n0
      (mkWorld (heap w) (set_num_updates n0 (model w)) (rng w)).
Proof.
  unfold bound_iteration_body. cbn [Nat.ltb Nat.leb]. unfold modify_model.
  rewrite !bind_modify_run. reflexivity.
Qed.

Lemma rho_formula_ok (c : run_cfg) (pass_ : nat) (n : Z) (r : Qc) :
  rho_formula c pass_ n = Ok r ->
  c_chunksize c <> 0%Z /\
  pow (c_offset c + Z2Qc (Z.of_nat pass_)
       + (if py2_division then Z2Qc (n / c_chunksize c)
          else Z2Qc n / Z2Qc (c_chunksize c)))
      (- c_decay c) = Ok r.
Proof.
  unfold rho_formula, py_int_div.
  destruct (Z.eqb_spec (c_chunksize c) 0) as [Hz|Hz]; [discriminate|].
  cbn [rbind]. intros H. by split.
Qed.

(** C6, as the code has it.  In a run of [update], with the arguments
    resolved as [update] does.  Every M-step call computes [rho] from the
    value of [num_updates] at the call and hands it to [do_mstep]: the rate is
    [(offset + pass_ + q) ^ (-decay)] for the pass (counted from 0), where [q]
    is [num_updates / chunksize] as Python divides two ints: the floor
    quotient under Python 2, the true quotient under Python 3.  A
    bound-iteration after the first runs as from [num_updates] reset to its
    value at the start of the pass, whatever it finds; so every
    bound-iteration of a pass starts with [num_updates] at that value; and
    when more than one bound-iteration is allowed, every M-step of a pass is
    called at that same value, so all of them are given the same [rho]. *)
Theorem update_learning_rate_schedule (corpus : list doc) (a : update_args)
    (w : World) :
  let c := update_cfg (model w) corpus a in
  let t := out_events (update corpus a w) in
  (forall p b other w1,
     mstep_call c p b other w1
     = match rho_formula c p (num_updates (model w1)) with
       | Ok r =>
           let o := do_mstep r other (0 <? p)%nat w1 in
           (out_result o, out_world o,
            EvMstep p b (num_updates (model w1)) r :: out_events o)
       | Raise e => (Raise e, w1, nil)
       end) /\
  (forall p b n0 w1,
     bound_iteration_body c p (S b) n0 w1
     = bound_iteration_body c p (S b) n0
         (mkWorld (heap w1) (set_num_updates n0 (model w1)) (rng w1))) /\
  (forall p b n r,
     In (EvMstep p b n r) t ->
     c_chunksize c <> 0%Z /\
     pow (c_offset c + Z2Qc (Z.of_nat p)
          + (if py2_division then Z2Qc (n / c_chunksize c)
             else Z2Qc n / Z2Qc (c_chunksize c)))
         (- c_decay c) = Ok r) /\
  (forall p b n n0,
     In (EvPassStart p n0) t -> In (EvBoundStart p b n) t -> n = n0) /\
  (forall p b n r n0,
     (1 < c_max_bound_iterations c)%Z ->
     In (EvPassStart p n0) t -> In (EvMstep p b n r) t -> n = n0) /\
  (forall p b b' n n' r r',
     (1 < c_max_bound_iterations c)%Z ->
     In (EvMstep p b n r) t -> In (EvMstep p b' n' r') t ->
     n = n' /\ r = r').
Proof.
  intros c t.
  split; [intros p b other w1; apply mstep_call_run|].
  split; [intros p b n0 w1; apply bound_iteration_body_reset|].
  assert (Hgood : exists f : nat -> Z,
            Forall (fun e => good_event c (event_pass e) (f (event_pass e)) e) t /\
            (t = nil \/
             ~ (truthy (c_update_every c) = true /\
                (1 < c_max_bound_iterations c)%Z))).
  { destruct (update_events corpus a w) as [Hnil | (Hb & w1 & Hev)].
    - exists (fun _ => 0%Z). unfold t. rewrite Hnil. split; [constructor|by left].
    - fold c in Hb, Hev.
      destruct (pass_loop_good c (seq 0 (Z.to_nat (c_passes c)))
                  (NoDup_seq _ _) w1) as [f Hf].
      exists f. unfold t. rewrite Hev. split; [|by right].
      eapply Forall_impl; [|exact Hf]. intros e He. apply He. }
  destruct Hgood as (f & Hall & Hbatch).
  rewrite Forall_forall in Hall.
  assert (Hm : forall p b n r, In (EvMstep p b n r) t ->
            rho_formula c p n = Ok r /\
            ((1 < c_max_bound_iterations c)%Z -> n = f p)).
  { intros p b n r Hin. destruct (Hall _ Hin) as [_ [Hr Hn]].
    cbn [event_pass] in Hr, Hn.
    split; [exact Hr|]. intros Hmbi. apply Hn.
    destruct Hbatch as [Hnil | Hb]; [rewrite Hnil in Hin; destruct Hin|].
    destruct (truthy (c_update_every c)); [|done].
    exfalso. apply Hb. by split. }
  split; [|split; [|split]].
  - intros p b n r Hin. destruct (Hm p b n r Hin) as [Hr _].
    by apply rho_formula_ok.
  - intros p b n n0 Hp Hb.
    destruct (Hall _ Hp) as [_ H1]. destruct (Hall _ Hb) as [_ H2].
    simpl in *. congruence.
  - intros p b n r n0 Hmbi Hp Hin.
    destruct (Hall _ Hp) as [_ H1]. simpl in H1.
    destruct (Hm p b n r Hin) as [_ Hn]. rewrite Hn by assumption. done.
  - intros p b b' n n' r r' Hmbi H1 H2.
    destruct (Hm p b n r H1) as [Hr Hn].
    destruct (Hm p b' n' r' H2) as [Hr' Hn'].
    specialize (Hn Hmbi). specialize (Hn' Hmbi).
    split; [congruence|]. subst n n'. congruence.
Qed.

(** ** [ValueError] comes at the entry of [update] or after a step *)

Lemma nve_rbind {A B : Type} (r : result A) (k : A -> result B) :
  not_value_error r -> (forall a, not_value_error (k a)) ->
  not_value_error (rbind r k).
Proof.
  intros Hr Hk msg. destruct r as [a|e]; simpl; [apply Hk|].
  intros H. inversion H; subst. by apply (Hr msg).
Qed.

Lemma nve_ok {A : Type} (a : A) : not_value_error (Ok a).
Proof. intros msg. discriminate. Qed.

Lemma nve_py_div (x y : Qc) : not_value_error (py_div x y).
Proof. unfold py_div. intros msg. destruct (bool_decide (y = 0)); discriminate. Qed.

Lemma nve_np_lookup {A : Type} (l : list A) (i : nat) :
  not_value_error (np_lookup l i).
Proof. unfold np_lookup. intros msg. destruct (l !! i); discriminate. Qed.

Lemma nve_rmapM {A B : Type} (f : A -> result B) (l : list A) :
  (forall x, not_value_error (f x)) -> not_value_error (rmapM f l).
Proof.
  intros Hf. induction l as [|x l IH]; simpl; [apply nve_ok|].
  apply nve_rbind; [apply Hf|]. intros y.
  apply nve_rbind; [apply IH|]. intros ys. apply nve_ok.
Qed.

Lemma nve_np_div (u v : vec) : not_value_error (np_div u v).
Proof. apply nve_rmapM. intros p. apply nve_py_div. Qed.

Lemma nve_gamma_iter (a cts : vec) (B : matrix) (v : doc_vars) :
  not_value_error (gamma_iter a cts B v).
Proof.
  unfold gamma_iter, gamma_update.
  apply nve_rbind.
  - apply nve_rbind; [apply nve_np_div|]. intros ?. apply nve_ok.
  - intros g. apply nve_ok.
Qed.

Lemma nve_gamma_loop (n : nat) (a cts : vec) (thr : Qc) (B : matrix)
    (v : doc_vars) :
  not_value_error (gamma_loop n a cts thr B v).
Proof.
  revert v. induction n as [|n IH]; intros v; simpl; [apply nve_ok|].
  apply nve_rbind; [apply nve_gamma_iter|]. intros vm.
  destruct (np_lt (snd vm) thr); [apply nve_ok | apply IH].
Qed.

Lemma nve_estep_doc (a : vec) (iters : Z) (thr : Qc) (beta : matrix)
    (dc : doc) (g0 E0 X0 : vec) :
  not_value_error (estep_doc a iters thr beta dc g0 E0 X0).
Proof.
  unfold estep_doc, select_cols. apply nve_rbind.
  - apply nve_rmapM. intros row. apply nve_rmapM. intros i.
    apply nve_np_lookup.
  - intros B. apply nve_gamma_loop.
Qed.

Lemma nve_collect_doc (sst : matrix) (dc : doc) (v : doc_vars) :
  not_value_error (collect_doc sst dc v).
Proof.
  unfold collect_doc. apply nve_rbind; [apply nve_np_div|].
  intros ?. apply nve_ok.
Qed.

Lemma nve_py_mod (x y : Z) : not_value_error (py_mod x y).
Proof. unfold py_mod. intros msg. destruct (y =? 0)%Z; discriminate. Qed.

Lemma nve_eval_due (ee : option Z) (workers reallen lencorpus : Z)
    (chunk_no : nat) :
  not_value_error (eval_due ee workers reallen lencorpus chunk_no).
Proof.
  unfold eval_due. destruct ee as [e|]; [|apply nve_ok].
  destruct (negb (truthy e)); [apply nve_ok|].
  destruct (reallen =? lencorpus)%Z; [apply nve_ok|].
  apply nve_rbind; [apply nve_py_mod|]. intros ?. apply nve_ok.
Qed.

Lemma no_value_error_bind {A B : Type} (c : M A) (k : A -> M B) :
  no_value_error c -> (forall a, no_value_error (k a)) ->
  no_value_error (bind c k).
Proof.
  intros Hc Hk w [msg H]. rewrite bind_run in H.
  destruct (out_result (c w)) as [a|e] eqn:Hr; rewrite out_result_mk in H.
  - apply (Hk a (out_world (c w))). by exists msg.
  - apply (Hc w). exists msg. rewrite Hr. inversion H. reflexivity.
Qed.

Lemma no_value_error_ret {A : Type} (a : A) : no_value_error (ret a).
Proof. intros w [msg H]. discriminate. Qed.

Lemma no_value_error_gets {A : Type} (f : World -> A) :
  no_value_error (gets f).
Proof. intros w [msg H]. discriminate. Qed.

Lemma no_value_error_modify (f : World -> World) : no_value_error (modify f).
Proof. intros w [msg H]. discriminate. Qed.

Lemma no_value_error_tell (e : event) : no_value_error (tell e).
Proof. intros w [msg H]. discriminate. Qed.

Lemma no_value_error_lift {A : Type} (r : result A) :
  not_value_error r -> no_value_error (lift r).
Proof. intros Hr w [msg H]. by apply (Hr msg). Qed.

Lemma no_value_error_raise {A : Type} (e : exn) :
  (forall msg, e <> ValueError msg) -> no_value_error (@raise A e).
Proof.
  intros He w [msg H]. unfold raise, out_result in H. simpl in H.
  inversion H. by apply (He msg).
Qed.

Lemma no_value_error_draw_gamma (n k : nat) : no_value_error (draw_gamma n k).
Proof. intros w [msg H]. discriminate. Qed.

Ltac nve_tac :=
  repeat first
    [ apply no_value_error_ret | apply no_value_error_gets
    | apply no_value_error_modify | apply no_value_error_tell
    | apply no_value_error_draw_gamma
    | apply no_value_error_raise; discriminate
    | apply no_value_error_lift;
      first [ apply nve_np_lookup | apply nve_estep_doc | apply nve_collect_doc
            | apply nve_eval_due | apply nve_py_div | apply nve_ok ]
    | assumption
    | apply no_value_error_bind; [|intros ?]
    | match goal with
      | |- no_value_error (match ?x with _ => _ end) => destruct x
      end ].

Lemma no_value_error_infer_docs (collect : bool)
    (Elogtheta expElogtheta : matrix) (chunk : list doc) :
  forall d gamma sst converged,
    no_value_error (infer_docs collect Elogtheta expElogtheta d chunk gamma
                               sst converged).
Proof.
  induction chunk as [|dc rest IH]; intros d gamma sst converged; simpl.
  - apply no_value_error_ret.
  - nve_tac. apply IH.
Qed.

Lemma no_value_error_inference (chunk : list doc) (collect : bool) :
  no_value_error (inference chunk collect).
Proof.
  unfold inference. nve_tac. apply no_value_error_infer_docs.
Qed.

Lemma no_value_error_bound_gammas (chunk : list doc) :
  no_value_error (bound_gammas chunk).
Proof.
  induction chunk as [|dc rest IH]; simpl; [apply no_value_error_ret|].
  apply no_value_error_bind; [apply no_value_error_inference|]. intros r.
  apply no_value_error_bind; [exact IH|]. intros gs. apply no_value_error_ret.
Qed.

Lemma no_value_error_log_perplexity (chunk : list doc) (total_docs : Z) :
  no_value_error (log_perplexity chunk total_docs).
Proof.
  unfold log_perplexity. destruct chunk as [|dc rest].
  - apply no_value_error_raise. discriminate.
  - apply no_value_error_bind; [apply no_value_error_bound_gammas|].
    intros gs. nve_tac.
Qed.

Lemma has_step_app_l (t1 t2 : list event) : has_step t1 -> has_step (t1 ++ t2).
Proof. intros H. apply Exists_app. by left. Qed.

Lemma has_step_app_r (t1 t2 : list event) : has_step t2 -> has_step (t1 ++ t2).
Proof. intros H. apply Exists_app. by right. Qed.

Lemma veas_of_nve {A : Type} (c : M A) :
  no_value_error c -> value_error_after_step c.
Proof. intros H w Hv. by destruct (H w). Qed.

Lemma veas_bind {A B : Type} (c : M A) (k : A -> M B) :
  value_error_after_step c -> (forall a, value_error_after_step (k a)) ->
  value_error_after_step (bind c k).
Proof.
  intros Hc Hk w. rewrite bind_run.
  destruct (out_result (c w)) as [a|e] eqn:Hr;
    rewrite out_result_mk, out_events_mk; intros Hv.
  - apply has_step_app_r. by apply Hk.
  - apply Hc. destruct Hv as [msg Hv]. exists msg. rewrite Hr.
    inversion Hv. reflexivity.
Qed.

Lemma veas_after_step {B : Type} (e : event) (k : unit -> M B) :
  is_step e = true -> value_error_after_step (bind (tell e) k).
Proof.
  intros He w _. rewrite bind_run. unfold tell at 1 2 3.
  rewrite out_result_mk, out_events_mk.
  apply has_step_app_l. by constructor.
Qed.

Lemma step_if_ok_bind_r {A B : Type} (c : M A) (k : A -> M B) :
  (forall a, step_if_ok (k a)) -> step_if_ok (bind c k).
Proof.
  intros Hk w b. rewrite bind_run.
  destruct (out_result (c w)) as [a|e];
    rewrite out_result_mk, out_events_mk; [|discriminate].
  intros Hb. apply has_step_app_r. by apply (Hk a _ b).
Qed.

Lemma step_if_ok_after_step {B : Type} (e : event) (k : unit -> M B) :
  is_step e = true -> step_if_ok (bind (tell e) k).
Proof.
  intros He w b _. rewrite bind_run. unfold tell at 1 2 3.
  rewrite out_result_mk, out_events_mk.
  apply has_step_app_l. by constructor.
Qed.

Lemma chunk_loop_veas (c : run_cfg) (pass_ bound_iteration : nat)
    (chunks : list (list doc)) :
  forall chunk_no other dirty reallen perwordbound,
    value_error_after_step
      (chunk_loop c pass_ bound_iteration chunk_no chunks other dirty reallen
                  perwordbound).
Proof.
  destruct chunks as [|chunk rest];
    intros chunk_no other dirty reallen perwordbound; cbn [chunk_loop].
  - apply veas_of_nve, no_value_error_ret.
  - apply veas_bind; [apply veas_of_nve, no_value_error_gets|]. intros m.
    apply veas_bind.
    { apply veas_of_nve, no_value_error_lift, nve_eval_due. }
    intros due. apply veas_bind.
    { apply veas_of_nve. destruct due; [|apply no_value_error_ret].
      apply no_value_error_bind; [apply no_value_error_log_perplexity|].
      intros ?. apply no_value_error_ret. }
    intros pwb. by apply veas_after_step.
Qed.

(** A loop over at least one chunk that returns has logged a step. *)
Lemma chunk_loop_step_if_ok (c : run_cfg) (pass_ bound_iteration : nat)
    (chunk : list doc) (rest : list (list doc)) :
  forall chunk_no other dirty reallen perwordbound,
    step_if_ok (chunk_loop c pass_ bound_iteration chunk_no (chunk :: rest)
                           other dirty reallen perwordbound).
Proof.
  intros chunk_no other dirty reallen perwordbound. cbn [chunk_loop].
  apply step_if_ok_bind_r. intros m.
  apply step_if_ok_bind_r. intros due.
  apply step_if_ok_bind_r. intros pwb.
  by apply step_if_ok_after_step.
Qed.

Lemma chunk_loop_dirty (c : run_cfg) (pass_ bound_iteration : nat)
    (chunks : list (list doc)) :
  forall chunk_no other reallen perwordbound w r,
    out_result (chunk_loop c pass_ bound_iteration chunk_no chunks other false
                           reallen perwordbound w) = Ok r ->
    snd (fst (fst r)) = true ->
    has_step (out_events
                (chunk_loop c pass_ bound_iteration chunk_no chunks other false
                            reallen perwordbound w)).
Proof.
  destruct chunks as [|chunk rest];
    intros chunk_no other reallen perwordbound w r Hr Hd.
  - simpl in Hr. inversion Hr; subst. discriminate.
  - by apply (chunk_loop_step_if_ok c pass_ bound_iteration chunk rest
                chunk_no other false reallen perwordbound w r).
Qed.

Lemma bound_iteration_body_veas (c : run_cfg) (pass_ bound_iteration : nat)
    (n0 : Z) :
  ~ chunker_raises c ->
  value_error_after_step (bound_iteration_body c pass_ bound_iteration n0).
Proof.
  intros HG. unfold bound_iteration_body.
  apply veas_bind.
  { apply veas_of_nve.
    destruct (0 <? bound_iteration)%nat;
      [apply no_value_error_modify | apply no_value_error_ret]. }
  intros ?. apply veas_bind; [apply veas_of_nve, no_value_error_gets|].
  intros m. apply veas_bind; [apply veas_of_nve, no_value_error_tell|].
  intros ?. apply veas_bind.
  { apply veas_of_nve. unfold fresh_other. nve_tac. }
  intros other w. cbv zeta. rewrite bind_run.
  set (G := grouper (c_corpus c) (c_chunksize c)) in *.
  destruct (out_result (chunk_loop c pass_ bound_iteration 0 (fst G) other
                          false 0%Z None w)) as [r|e] eqn:Hr;
    rewrite out_result_mk, out_events_mk.
  - intros Hv.
    destruct (snd G) as [e|] eqn:HsG.
    + rewrite bind_raise_run in Hv. rewrite out_result_mk in Hv.
      destruct Hv as [msg Hv]. inversion Hv; subst e.
      destruct (fst G) as [|chunk rest] eqn:HfG.
      * exfalso. apply HG. split; [exact HfG|]. by exists msg.
      * apply has_step_app_l.
        by apply (chunk_loop_step_if_ok c pass_ bound_iteration chunk rest
                    O other false 0%Z None w r).
    + rewrite bind_ret_run in Hv.
      destruct (negb (snd (fst r) =? c_lencorpus c)%Z).
      { destruct Hv as [msg Hv]. discriminate. }
      destruct (snd (fst (fst r))) eqn:Hd.
      * apply has_step_app_l. by apply (chunk_loop_dirty _ _ _ _ _ _ _ _ _ r).
      * exfalso. destruct Hv as [msg Hv]. discriminate.
  - intros Hv. apply chunk_loop_veas. destruct Hv as [msg Hv].
    exists msg. rewrite Hr. inversion Hv. reflexivity.
Qed.

Lemma bound_loop_veas (fuel : nat) (c : run_cfg) (pass_ : nat) (n0 : Z) :
  ~ chunker_raises c ->
  forall bound_iteration last_perwordbound,
    value_error_after_step
      (bound_loop fuel c pass_ bound_iteration n0 last_perwordbound).
Proof.
  intros HG.
  induction fuel as [|fuel IH]; intros b last; cbn [bound_loop].
  - apply veas_of_nve, no_value_error_ret.
  - apply veas_bind; [by apply bound_iteration_body_veas|]. intros pwb.
    destruct pwb as [perwordbound|]; [|apply IH].
    destruct (improvement_below last perwordbound
                (c_bound_improvement_threshold c)); [|apply IH].
    apply veas_of_nve, no_value_error_ret.
Qed.

Lemma pass_loop_veas (c : run_cfg) (passes_ : list nat) :
  ~ chunker_raises c ->
  value_error_after_step (pass_loop c passes_).
Proof.
  intros HG.
  induction passes_ as [|p rest IH]; cbn [pass_loop].
  - apply veas_of_nve, no_value_error_ret.
  - apply veas_bind; [|intros ?; exact IH].
    unfold pass_body.
    apply veas_bind; [apply veas_of_nve, no_value_error_gets|]. intros m.
    apply veas_bind; [apply veas_of_nve, no_value_error_tell|]. intros ?.
    by apply bound_loop_veas.
Qed.

(** When the chunker yields nothing and raises, the first bound-iteration of
    the first pass stops there: the pass and the bound-iteration have started,
    no chunk has been seen. *)
Lemma pass_loop_chunker_raises (c : run_cfg) (e : exn) (p : nat)
    (rest : list nat) (w : World) :
  fst (grouper (c_corpus c) (c_chunksize c)) = nil ->
  snd (grouper (c_corpus c) (c_chunksize c)) = Some e ->
  (1 <= c_max_bound_iterations c)%Z ->
  pass_loop c (p :: rest) w
  = (Raise e, w,
     EvPassStart p (num_updates (model w))
       :: EvBoundStart p 0 (num_updates (model w)) :: nil).
Proof.
  intros HfG HsG Hmbi. cbn [pass_loop]. unfold pass_body.
  destruct (Z.to_nat (c_max_bound_iterations c)) as [|fuel] eqn:Hf; [lia|].
  cbn [bound_loop]. unfold bound_iteration_body. rewrite HfG, HsG.
  reflexivity.
Qed.

Lemma chunker_raises_dec (c : run_cfg) :
  chunker_raises c \/ ~ chunker_raises c.
Proof.
  unfold chunker_raises.
  destruct (fst (grouper (c_corpus c) (c_chunksize c))) as [|ch chs].
  - destruct (snd (grouper (c_corpus c) (c_chunksize c))) as [e|].
    + destruct e; try (right; intros [_ [msg' H]]; discriminate).
      left. split; [reflexivity | by eexists].
    + right. intros [_ [msg' H]]. discriminate.
  - right. intros [H _]. discriminate.
Qed.

(** C8, as the code has it.  On an empty corpus [update] returns at once,
    whatever the configuration.  On a non-empty corpus, with the arguments
    resolved as [update] does: [update] raises [ValueError] with nothing
    logged when [max_bound_iterations < 1], or [max_bound_iterations > 1]
    with [update_every] non-zero (online mode), or [max_bound_iterations > 1]
    with [eval_every] not set to a positive value.  A [ValueError] before any
    E-step or M-step comes exactly from these checks or, the configuration
    having passed them, from the chunker when the first pass asks it for the
    first chunk. *)
Theorem update_rejects_configuration (corpus : list doc) (a : update_args)
    (w : World) :
  let c := update_cfg (model w) corpus a in
  let o := update corpus a w in
  (corpus = nil -> o = (Ok tt, w, nil)) /\
  (corpus <> nil ->
   (rejected c -> value_error (out_result o) /\ out_events o = nil) /\
   (chunker_rejects (model w) c ->
    value_error (out_result o) /\ ~ has_step (out_events o)) /\
   (~ rejected c -> ~ chunker_rejects (model w) c ->
    value_error (out_result o) -> has_step (out_events o)) /\
   (value_error (out_result o) /\ ~ has_step (out_events o)
    <-> rejected c \/ chunker_rejects (model w) c)).
Proof.
  intros c o. split.
  { intros ->. reflexivity. }
  intros Hne.
  assert (Hyes : rejected c ->
                 value_error (out_result o) /\ out_events o = nil).
  { intros Hrej.
    destruct (update_run corpus a w)
      as [[Hnil _] | [(_ & _ & msg & w1 & H) | [(_ & Hnr & _) | (_ & Hnr & _)]]];
      try contradiction.
    unfold o. rewrite H. split; [by exists msg | reflexivity]. }
  assert (Hch : chunker_rejects (model w) c ->
                value_error (out_result o) /\ ~ has_step (out_events o)).
  { intros (Hnr & Hua & Hp & HfG & msg & HsG).
    destruct (update_run corpus a w)
      as [[Hnil _] | [(_ & Hrej & _) | [(_ & _ & Hz & _) | (_ & _ & _ & w1 & H)]]];
      try contradiction.
    fold c in H. unfold o. rewrite H.
    destruct (Z.to_nat (c_passes c)) as [|k] eqn:Hk; [lia|].
    cbn [seq].
    rewrite (pass_loop_chunker_raises c (ValueError msg)); [|exact HfG|exact HsG|].
    - split; [by exists msg|].
      unfold out_events, has_step. cbn [snd]. rewrite Exists_cons.
      intros [Hs|Hs]; [discriminate|]. rewrite Exists_cons in Hs.
      destruct Hs as [Hs|Hs]; [discriminate | inversion Hs].
    - destruct (Z.le_gt_cases 1 (c_max_bound_iterations c)) as [Hle|Hgt];
        [exact Hle|]. exfalso. apply Hnr. left. lia. }
  assert (Hno : ~ rejected c -> ~ chunker_rejects (model w) c ->
                value_error (out_result o) -> has_step (out_events o)).
  { intros Hnr Hnc.
    destruct (update_run corpus a w)
      as [[Hnil _] | [(_ & Hrej & _) | [(_ & _ & _ & w1 & H)
                                       | (_ & _ & Hua & w1 & H)]]];
      try contradiction; unfold o; rewrite H.
    - intros [msg Hv]. discriminate.
    - fold c.
      destruct (chunker_raises_dec c) as [HG|HG]; [|by apply pass_loop_veas].
      destruct (Z.to_nat (c_passes c)) as [|k] eqn:Hk.
      + intros [msg Hv]. discriminate.
      + exfalso. apply Hnc. split; [exact Hnr|]. split; [exact Hua|].
        split; [lia | exact HG]. }
  split; [exact Hyes|]. split; [exact Hch|]. split; [exact Hno|]. split.
  - intros [Hv Hns].
    destruct (update_run corpus a w)
      as [[Hnil _] | [(_ & Hrej & _) | [(_ & Hnr & Hz & _)
                                       | (_ & Hnr & Hua & _)]]];
      try contradiction; try (left; exact Hrej).
    + exfalso. fold c in Hnr, Hz.
      apply Hns. apply Hno; [exact Hnr| |exact Hv].
      intros (_ & Hua & _). contradiction.
    + fold c in Hnr, Hua.
      destruct (chunker_raises_dec c) as [HG|HG].
      * destruct (Z.to_nat (c_passes c)) as [|k] eqn:Hk.
        -- exfalso. apply Hns. apply Hno; [exact Hnr| |exact Hv].
           intros (_ & _ & Hp & _). lia.
        -- right. split; [exact Hnr|]. split; [exact Hua|].
           split; [lia | exact HG].
      * exfalso. apply Hns. apply Hno; [exact Hnr| |exact Hv].
        intros (_ & _ & _ & HG'). contradiction.
  - intros [Hrej|Hc].
    + destruct (Hyes Hrej) as [Hv Ht]. split; [exact Hv|].
      rewrite Ht. intros Hs. inversion Hs.
    + by apply Hch.
Qed.

(** * Further properties of the code *)

(** ** The accumulator [LdaState] *)

Lemma vec_scale_0 (v : vec) : vec_scale 0 v = replicate (length v) 0.
Proof.
  induction v as [|x v IH]; simpl; [reflexivity|].
  rewrite IH. f_equal; ring.
Qed.

Lemma vec_scale_1 (v : vec) : vec_scale 1 v = v.
Proof.
  induction v as [|x v IH]; simpl; [reflexivity|].
  rewrite IH. f_equal; ring.
Qed.

Lemma vec_add_zeros_l (v : vec) : vec_add (replicate (length v) 0) v = v.
Proof.
  unfold vec_add. induction v as [|x v IH]; simpl; [reflexivity|].
  rewrite IH. f_equal; ring.
Qed.

Lemma vec_add_zeros_r (v : vec) : vec_add v (replicate (length v) 0) = v.
Proof. rewrite vec_add_comm. apply vec_add_zeros_l. Qed.

Lemma mat_scale_0 (K W : nat) (A : matrix) :
  mat_shape K W A -> mat_scale 0 A = zeros K W.
Proof.
  intros [HK HW]. subst K. unfold mat_scale, zeros, mat_const.
  induction HW as [|r A Hr _ IH]; simpl; [reflexivity|].
  rewrite IH, vec_scale_0, Hr. reflexivity.
Qed.

Lemma mat_scale_1 (A : matrix) : mat_scale 1 A = A.
Proof.
  unfold mat_scale. induction A as [|r A IH]; simpl; [reflexivity|].
  by rewrite IH, vec_scale_1.
Qed.

Lemma mat_add_zeros_l (K W : nat) (A : matrix) :
  mat_shape K W A -> mat_add (zeros K W) A = A.
Proof.
  intros [HK HW]. subst K. unfold mat_add, zeros, mat_const.
  induction HW as [|r A Hr _ IH]; simpl; [reflexivity|].
  rewrite IH. f_equal. rewrite <- Hr. apply vec_add_zeros_l.
Qed.

Lemma mat_add_zeros_r (K W : nat) (A : matrix) :
  mat_shape K W A -> mat_add A (zeros K W) = A.
Proof. intros H. rewrite mat_add_comm. by apply mat_add_zeros_l. Qed.

(** X1.  For states of one shape [K x W]: [reset] leaves an all-zero
    [sstats] of the same shape, [numdocs = 0] and the same [eta]; merging
    another state into a reset accumulator, or into a freshly constructed
    one, gives exactly the other's [sstats] and [numdocs]. *)
Theorem reset_then_merge_gives_other (K W : nat) (s o : LdaState) :
  mat_shape K W (sstats s) -> mat_shape K W (sstats o) ->
  reset s = LdaState_init (eta s) K W /\
  merge (reset s) o = mkState (eta s) (sstats o) (numdocs o) /\
  merge (LdaState_init (eta s) K W) o
  = mkState (eta s) (sstats o) (numdocs o).
Proof.
  intros Hs Ho.
  assert (Hr : reset s = LdaState_init (eta s) K W).
  { unfold reset, LdaState_init. by rewrite (mat_scale_0 K W). }
  split; [exact Hr|]. rewrite Hr. split; unfold merge, LdaState_init; simpl;
    by rewrite (mat_add_zeros_l K W).
Qed.

(** The two stretch factors of [blend], as [blend_scale] computes them. *)
Lemma blend_run (s o : LdaState) (rho : Qc) (t : option Z) :
  let target := default (numdocs s) t in
  let scale_s := if (numdocs s =? 0)%Z then 1
                 else Z2Qc target / Z2Qc (numdocs s) in
  let scale_o := if (numdocs o =? 0)%Z then 1
                 else Z2Qc target / Z2Qc (numdocs o) in
  blend s rho o t
  = Ok (mkState (eta s)
                (mat_add (mat_scale ((1 - rho) * scale_s) (sstats s))
                         (mat_scale (rho * scale_o) (sstats o)))
                target).
Proof.
  intros target scale_s scale_o. unfold blend.
  replace (match t with Some t0 => t0 | None => numdocs s end) with target
    by (by destruct t).
  rewrite !blend_scale_total. reflexivity.
Qed.

Lemma Z2Qc_div_self (n : Z) : n <> 0%Z -> Z2Qc n / Z2Qc n = 1.
Proof. intros Hn. field. by rewrite Z2Qc_eq0. Qed.

(** X2.  The two ends of the interpolation, for states of one shape.  With
    [rhot = 0] the other state is ignored: [sstats] is only stretched to the
    target, and with the default target [blend] changes nothing at all.
    With [rhot = 1] the state's own statistics are ignored: [sstats] becomes
    the other's, stretched to the target, and exactly the other's when the
    target is [other.numdocs]. *)
Theorem blend_at_rho_0_and_1 (K W : nat) (s o : LdaState) (t : option Z) :
  mat_shape K W (sstats s) -> mat_shape K W (sstats o) ->
  let target := default (numdocs s) t in
  let scale_s := if (numdocs s =? 0)%Z then 1
                 else Z2Qc target / Z2Qc (numdocs s) in
  let scale_o := if (numdocs o =? 0)%Z then 1
                 else Z2Qc target / Z2Qc (numdocs o) in
  blend s 0 o t = Ok (mkState (eta s) (mat_scale scale_s (sstats s)) target) /\
  blend s 1 o t = Ok (mkState (eta s) (mat_scale scale_o (sstats o)) target) /\
  blend s 0 o None = Ok s /\
  blend s 1 o (Some (numdocs o))
  = Ok (mkState (eta s) (sstats o) (numdocs o)).
Proof.
  intros Hs Ho target scale_s scale_o.
  assert (H0 : forall t',
            blend s 0 o t'
            = Ok (mkState (eta s)
                    (mat_scale (if (numdocs s =? 0)%Z then 1
                                else Z2Qc (default (numdocs s) t')
                                     / Z2Qc (numdocs s)) (sstats s))
                    (default (numdocs s) t'))).
  { intros t'. rewrite blend_run. cbv zeta. do 2 f_equal.
    match goal with
    | |- mat_add (mat_scale ?a _) (mat_scale ?b _) = mat_scale ?c _ =>
        replace a with c by ring; replace b with 0 by ring
    end.
    rewrite (mat_scale_0 K W (sstats o) Ho).
    apply mat_add_zeros_r. by apply mat_shape_scale. }
  assert (H1 : forall t',
            blend s 1 o t'
            = Ok (mkState (eta s)
                    (mat_scale (if (numdocs o =? 0)%Z then 1
                                else Z2Qc (default (numdocs s) t')
                                     / Z2Qc (numdocs o)) (sstats o))
                    (default (numdocs s) t'))).
  { intros t'. rewrite blend_run. cbv zeta. do 2 f_equal.
    match goal with
    | |- mat_add (mat_scale ?a _) (mat_scale ?b _) = mat_scale ?c _ =>
        replace a with 0 by ring; replace b with c by ring
    end.
    rewrite (mat_scale_0 K W (sstats s) Hs).
    apply mat_add_zeros_l. by apply mat_shape_scale. }
  split; [apply H0|]. split; [apply H1|]. split.
  - rewrite H0. simpl.
    destruct (Z.eqb_spec (numdocs s) 0) as [_|Hn].
    + rewrite mat_scale_1. by destruct s.
    + rewrite Z2Qc_div_self by exact Hn. rewrite mat_scale_1. by destruct s.
  - rewrite H1. simpl.
    destruct (Z.eqb_spec (numdocs o) 0) as [_|Hn].
    + by rewrite mat_scale_1.
    + rewrite Z2Qc_div_self by exact Hn. by rewrite mat_scale_1.
Qed.

Lemma mat_add_nonneg (A B : matrix) :
  mat_nonneg A -> mat_nonneg B -> mat_nonneg (mat_add A B).
Proof.
  unfold mat_nonneg, mat_add. intros HA. revert B.
  induction HA as [|r A Hr _ IH]; intros [|r' B] HB; simpl; auto.
  inversion HB; subst. constructor; [by apply vec_add_nonneg | by apply IH].
Qed.

Lemma mat_scale_nonneg (c : Qc) (A : matrix) :
  0 <= c -> mat_nonneg A -> mat_nonneg (mat_scale c A).
Proof.
  unfold mat_nonneg, mat_scale. intros Hc HA. apply Forall_fmap.
  eapply Forall_impl; [|exact HA]. intros r Hr. simpl.
  by apply vec_scale_nonneg.
Qed.

Lemma Z2Qc_nonneg (n : Z) : (0 <= n)%Z -> 0 <= Z2Qc n.
Proof.
  intros Hn. unfold Z2Qc, Qcle.
  change (this (Q2Qc (inject_Z n))) with (Qred (inject_Z n)).
  rewrite Qred_correct. unfold Qle. simpl. lia.
Qed.

Lemma Z2Qc_pos (n : Z) : (0 < n)%Z -> 0 < Z2Qc n.
Proof.
  intros Hn. unfold Z2Qc, Qclt.
  change (this (Q2Qc (inject_Z n))) with (Qred (inject_Z n)).
  rewrite Qred_correct. unfold Qlt. simpl. lia.
Qed.

Lemma Qcdiv_nonneg (x y : Qc) : 0 <= x -> 0 < y -> 0 <= x / y.
Proof.
  intros Hx Hy. unfold Qcdiv. apply Qcmult_nonneg_nonneg; [exact Hx|].
  apply Qclt_le_weak. by apply Qcinv_pos.
Qed.

Lemma blend_factor_nonneg (target n : Z) :
  (0 <= target)%Z -> (0 <= n)%Z ->
  0 <= (if (n =? 0)%Z then 1 else Z2Qc target / Z2Qc n).
Proof.
  intros Ht Hn. destruct (Z.eqb_spec n 0) as [_|Hne]; [discriminate|].
  apply Qcdiv_nonneg; [by apply Z2Qc_nonneg | apply Z2Qc_pos; lia].
Qed.

(** X3.  [blend] keeps the topics well-defined.  For states of one shape
    with non-negative statistics and document counts, a non-negative target
    and [0 <= rhot <= 1], [blend] returns a state of the same shape whose
    statistics are again non-negative; so with a positive scalar [eta] every
    entry of [lambda = eta + sstats] stays strictly positive. *)
Theorem blend_keeps_sstats_nonneg (K W : nat) (s o : LdaState) (rho : Qc)
    (t : option Z) :
  mat_shape K W (sstats s) -> mat_shape K W (sstats o) ->
  mat_nonneg (sstats s) -> mat_nonneg (sstats o) ->
  (0 <= numdocs s)%Z -> (0 <= numdocs o)%Z -> (0 <= default (numdocs s) t)%Z ->
  0 <= rho -> rho <= 1 ->
  exists s',
    blend s rho o t = Ok s' /\
    mat_shape K W (sstats s') /\ mat_nonneg (sstats s') /\
    forall h x, eta s = EtaFloat x -> 0 < x ->
      mat_shape K W (get_lambda h s') /\
      Forall (Forall (fun y => 0 < y)) (get_lambda h s').
Proof.
  intros Hs Ho Hsn Hon Hns Hno Ht Hr0 Hr1.
  rewrite blend_run. cbv zeta. eexists. split; [reflexivity|].
  cbn [sstats eta].
  assert (Hnn : mat_nonneg
            (mat_add
               (mat_scale ((1 - rho) * (if (numdocs s =? 0)%Z then 1
                  else Z2Qc (default (numdocs s) t) / Z2Qc (numdocs s)))
                  (sstats s))
               (mat_scale (rho * (if (numdocs o =? 0)%Z then 1
                  else Z2Qc (default (numdocs s) t) / Z2Qc (numdocs o)))
                  (sstats o)))).
  { apply mat_add_nonneg; apply mat_scale_nonneg; try assumption;
      apply Qcmult_nonneg_nonneg; try (by apply blend_factor_nonneg);
      try exact Hr0.
    apply (Qcplus_le_mono_r _ _ rho). by ring_simplify. }
  assert (Hsh : mat_shape K W
            (mat_add
               (mat_scale ((1 - rho) * (if (numdocs s =? 0)%Z then 1
                  else Z2Qc (default (numdocs s) t) / Z2Qc (numdocs s)))
                  (sstats s))
               (mat_scale (rho * (if (numdocs o =? 0)%Z then 1
                  else Z2Qc (default (numdocs s) t) / Z2Qc (numdocs o)))
                  (sstats o)))).
  { apply mat_shape_add; by apply mat_shape_scale. }
  split; [exact Hsh|]. split; [exact Hnn|].
  intros h x He Hx. unfold get_lambda. cbn [eta sstats]. rewrite He.
  split.
  - destruct Hsh as [HK HW]. split; [by rewrite length_map|].
    apply Forall_fmap. eapply Forall_impl; [|exact HW].
    intros r Hr. simpl. by rewrite length_map.
  - apply Forall_fmap. eapply Forall_impl; [|exact Hnn].
    intros r Hr. simpl. apply Forall_fmap.
    eapply Forall_impl; [|exact Hr]. intros y Hy. simpl.
    rewrite Qcplus_comm. by apply Qcplus_nonneg_pos.
Qed.

(** ** A logic of model invariants, for results and for exceptions *)

Lemma always_bind {A B : Type} (P : LdaModel -> Prop) (c : M A)
    (Q : A -> LdaModel -> Prop) (k : A -> M B) (R : B -> LdaModel -> Prop)
    (E : LdaModel -> Prop) :
  always P c Q E -> (forall a, always (Q a) (k a) R E) ->
  always P (bind c k) R E.
Proof.
  intros Hc Hk w HP. rewrite bind_run. specialize (Hc w HP).
  destruct (out_result (c w)) as [a|e]; rewrite out_result_mk, out_world_mk.
  - by apply Hk.
  - exact Hc.
Qed.

Lemma always_conseq {A : Type} (P P' : LdaModel -> Prop) (c : M A)
    (Q Q' : A -> LdaModel -> Prop) (E E' : LdaModel -> Prop) :
  (forall m, P' m -> P m) -> (forall a m, Q a m -> Q' a m) ->
  (forall m, E m -> E' m) ->
  always P c Q E -> always P' c Q' E'.
Proof.
  intros HP HQ HE Hc w Hw. specialize (Hc w (HP _ Hw)).
  destruct (out_result (c w)); auto.
Qed.

Lemma always_pure {A : Type} (phi : Prop) (P : LdaModel -> Prop) (c : M A)
    (Q : A -> LdaModel -> Prop) (E : LdaModel -> Prop) :
  (phi -> always P c Q E) -> always (fun m => P m /\ phi) c Q E.
Proof. intros H w [HP Hphi]. by apply H. Qed.

Lemma always_conj {A : Type} (P P' : LdaModel -> Prop) (c : M A)
    (Q Q' : A -> LdaModel -> Prop) (E E' : LdaModel -> Prop) :
  always P c Q E -> always P' c Q' E' ->
  always (fun m => P m /\ P' m) c (fun a m => Q a m /\ Q' a m)
         (fun m => E m /\ E' m).
Proof.
  intros H H' w [HP HP']. specialize (H w HP). specialize (H' w HP').
  destruct (out_result (c w)); auto.
Qed.

Lemma always_any {A : Type} (P : LdaModel -> Prop) (c : M A) :
  always P c (fun _ _ => True) (fun _ => True).
Proof. intros w _. by destruct (out_result (c w)). Qed.

Lemma always_ret {A : Type} (P : LdaModel -> Prop) (a : A)
    (E : LdaModel -> Prop) :
  always P (ret a) (fun x m => P m /\ x = a) E.
Proof. intros w HP. by split. Qed.

Lemma always_raise {A : Type} (P : LdaModel -> Prop) (e : exn)
    (Q : A -> LdaModel -> Prop) :
  always P (raise e) Q P.
Proof. intros w HP. exact HP. Qed.

Lemma always_lift {A : Type} (P : LdaModel -> Prop) (r : result A) :
  always P (lift r) (fun a m => P m /\ r = Ok a) P.
Proof. intros w HP. unfold lift, out_result, out_world. simpl. by destruct r. Qed.

Lemma always_gets {A : Type} (P : LdaModel -> Prop) (f : LdaModel -> A)
    (E : LdaModel -> Prop) :
  always P (gets (fun w => f (model w))) (fun a m => P m /\ a = f m) E.
Proof. intros w HP. by split. Qed.

Lemma always_gets_model (P : LdaModel -> Prop) (E : LdaModel -> Prop) :
  always P (gets model) (fun a m => P m /\ a = m) E.
Proof. intros w HP. by split. Qed.

Lemma always_modify_model (P : LdaModel -> Prop) (f : LdaModel -> LdaModel)
    (E : LdaModel -> Prop) :
  always P (modify_model f) (fun _ m => exists m1, P m1 /\ m = f m1) E.
Proof. intros w HP. exists (model w). by split. Qed.

Lemma always_tell (P : LdaModel -> Prop) (e : event) (E : LdaModel -> Prop) :
  always P (tell e) (fun _ m => P m) E.
Proof. intros w HP. exact HP. Qed.

Lemma always_read_only {A : Type} (P : LdaModel -> Prop) (c : M A) :
  read_only c -> always P c (fun _ m => P m) P.
Proof.
  intros Hc w HP. destruct (Hc w) as (_ & Hm & _). rewrite Hm.
  by destruct (out_result (c w)).
Qed.

(** [always] with the same assertion before, after and on an exception. *)
Lemma always_inv_bind {A B : Type} (P : LdaModel -> Prop) (c : M A)
    (k : A -> M B) :
  always P c (fun _ m => P m) P ->
  (forall a, always P (k a) (fun _ m => P m) P) ->
  always P (bind c k) (fun _ m => P m) P.
Proof. intros Hc Hk. eapply always_bind; [exact Hc | exact Hk]. Qed.

(** *** The methods under that logic *)

Lemma read_only_tell_free_rho (c : run_cfg) (pass_ : nat) :
  read_only (rho c pass_).
Proof. intros w. by rewrite rho_run. Qed.

Lemma read_only_bound_gammas (chunk : list doc) :
  read_only (bound_gammas chunk).
Proof.
  induction chunk as [|dc rest IH]; cbn [bound_gammas];
    [apply read_only_ret|].
  apply read_only_bind; [apply read_only_inference|]. intros r.
  apply read_only_bind; [exact IH|]. intros gs. apply read_only_ret.
Qed.

Lemma read_only_log_perplexity (chunk : list doc) (total_docs : Z) :
  read_only (log_perplexity chunk total_docs).
Proof.
  unfold log_perplexity. destruct chunk; [apply read_only_raise|].
  apply read_only_bind; [apply read_only_bound_gammas|]. intros gs.
  apply read_only_bind; [apply read_only_gets|]. intros w.
  apply read_only_ret.
Qed.

Lemma read_only_do_estep (chunk : list doc) (st : LdaState) :
  read_only (do_estep chunk st).
Proof.
  unfold do_estep. apply read_only_bind; [apply read_only_inference|].
  intros r. destruct (snd r); [apply read_only_ret | apply read_only_raise].
Qed.

Lemma read_only_fresh_other : read_only fresh_other.
Proof. unfold fresh_other. read_only_tac. Qed.

(** The gammas that [inference] returns: one row per document. *)
Lemma infer_docs_rows (collect : bool) (Elogtheta expElogtheta : matrix)
    (chunk : list doc) :
  forall d gamma sst converged,
    always (fun _ => True)
           (infer_docs collect Elogtheta expElogtheta d chunk gamma sst
                       converged)
           (fun r _ => length (fst (fst r)) = length gamma)
           (fun _ => True).
Proof.
  induction chunk as [|dc rest IH]; intros d gamma sst converged;
    cbn [infer_docs].
  - intros w _. reflexivity.
  - do 8 (eapply always_bind; [apply always_any|]; intros ?).
    eapply always_bind; [apply always_any|]. intros sst'.
    eapply always_conseq; [| | |apply IH]; auto.
    intros r m Hr. cbv beta in Hr. rewrite Hr. apply length_insert.
Qed.

Lemma inference_rows (chunk : list doc) (collect : bool) :
  always (fun _ => True) (inference chunk collect)
         (fun r _ => draws_shape -> length (fst r) = length chunk)
         (fun _ => True).
Proof.
  unfold inference.
  eapply always_bind; [apply always_any|]. intros K.
  eapply (always_bind _ _ (fun g _ =>
            True /\ (draws_shape -> length g = length chunk))).
  { intros w _. split; [exact I|]. intros H.
    apply (H (rng w) (length chunk) K). }
  intros gamma. apply always_pure. intros Hg.
  eapply always_bind; [apply always_any|]. intros beta.
  eapply (always_bind _ _ (fun r _ =>
            True /\ length (fst (fst r)) = length gamma)).
  { eapply always_conseq; [| | |apply infer_docs_rows]; auto. }
  intros r. apply always_pure. intros Hr.
  destruct (snd (fst r)) as [s|].
  - eapply always_bind; [apply always_any|]. intros beta'.
    intros w _. cbn. intros H. rewrite Hr. by apply Hg.
  - intros w _. cbn. intros H. rewrite Hr. by apply Hg.
Qed.

(** [do_estep] adds one document per row of gamma to the accumulator it is
    given, and keeps its [eta]. *)
Lemma do_estep_result (chunk : list doc) (st : LdaState) :
  always (fun _ => True) (do_estep chunk st)
         (fun r _ =>
            eta (snd r) = eta st /\
            (draws_shape ->
             length (fst r) = length chunk /\
             numdocs (snd r) = (numdocs st + Z.of_nat (length chunk))%Z))
         (fun _ => True).
Proof.
  unfold do_estep.
  eapply (always_bind _ _ (fun r _ =>
            True /\ (draws_shape -> length (fst r) = length chunk))).
  { eapply always_conseq; [| | |apply inference_rows]; auto. }
  intros r. apply always_pure. intros Hr.
  destruct (snd r) as [s|]; [|intros w _; exact I].
  intros w _. cbn. split; [reflexivity|]. intros H.
  rewrite (Hr H). by split.
Qed.

Lemma do_estep_always (P : LdaModel -> Prop) (chunk : list doc)
    (st : LdaState) :
  always P (do_estep chunk st)
         (fun r m =>
            P m /\ eta (snd r) = eta st /\
            (draws_shape ->
             numdocs (snd r) = (numdocs st + Z.of_nat (length chunk))%Z))
         P.
Proof.
  eapply always_conseq;
    [| | |apply (always_conj _ _ _ _ _ _ _
                   (always_read_only P _ (read_only_do_estep chunk st))
                   (do_estep_result chunk st))].
  - intros m Hm. by split.
  - intros r m (HP & He & Hn). split; [exact HP|]. split; [exact He|].
    intros H. by apply Hn.
  - intros m [HP _]. exact HP.
Qed.

(** The model object after [update_alpha]: at most [alpha] has changed. *)
Lemma update_alpha_model (gammat : matrix) (rho : Qc) (w : World) :
  exists a, model (out_world (update_alpha gammat rho w)) = set_alpha a (model w).
Proof.
  unfold update_alpha, bind, lift, gets, modify_model, modify, ret, out_world.
  destruct (mean_dirichlet_expectation gammat) as [logphat|e];
    cbv beta iota zeta.
  - match goal with
    | |- context [all_positive ?v] => destruct (all_positive v)
    end; cbn [fst snd model]; eauto.
    exists (alpha (model w)). by rewrite set_alpha_same.
  - exists (alpha (model w)). cbn [fst snd]. by rewrite set_alpha_same.
Qed.

Lemma update_alpha_always (P : LdaModel -> Prop) (gammat : matrix) (rho : Qc) :
  (forall a m, P m -> P (set_alpha a m)) ->
  always P (update_alpha gammat rho) (fun _ m => P m) P.
Proof.
  intros HP w Hw. destruct (update_alpha_model gammat rho w) as [a ->].
  destruct (out_result (update_alpha gammat rho w)); by apply HP.
Qed.

(** The model object after [do_mstep]: the state is the blend, the cache is
    the one [sync_state] computed, and the counter has advanced by
    [other.numdocs] if the method returned and this was no extra pass. *)
Lemma do_mstep_model (rho : Qc) (other : LdaState) (extra_pass : bool)
    (w : World) :
  let o := do_mstep rho other extra_pass w in
  exists st,
    blend (state (model w)) rho other None = Ok st /\
    let m1 := set_expElogbeta (map (map exp) (get_Elogbeta (heap w) st))
                              (set_state st (model w)) in
    model (out_world o)
    = match out_result o with
      | Ok _ =>
          if extra_pass then m1
          else set_num_updates (num_updates (model w) + numdocs other) m1
      | Raise _ => m1
      end.
Proof.
  unfold do_mstep, sync_state, call_print_topics, bind, gets, lift,
    modify_model, modify, ret, out_result, out_world.
  cbv beta iota zeta.
  rewrite (blend_run (state (model w)) other rho None). cbv zeta.
  eexists. split; [reflexivity|].
  cbn [fst snd heap model rng id optimize_eta set_state set_expElogbeta state
       expElogbeta].
  match goal with
  | |- context [print_topics ?m ?h ?g] =>
      destruct (print_topics m h g) as [[pt|e] g']
  end; cbn [fst snd heap model rng id optimize_eta set_state set_expElogbeta
            state expElogbeta]; [|reflexivity].
  destruct (optimize_eta (model w)) eqn:Hopt.
  - match goal with
    | |- context [update_eta ?lam rho ?w1] =>
        pose proof (update_eta_frame lam rho w1) as Hf;
        destruct (update_eta lam rho w1) as [[r w2] t]
    end.
    unfold out_world, out_events in Hf. cbn [fst snd heap model rng] in Hf.
    destruct Hf as (Hm & _).
    destruct r as [u|e]; cbn [fst snd]; [|exact Hm].
    destruct extra_pass; cbn [negb fst snd model]; rewrite Hm; reflexivity.
  - destruct extra_pass; reflexivity.
Qed.

Lemma blend_default_numdocs (s o st : LdaState) (rho : Qc) :
  blend s rho o None = Ok st -> numdocs st = numdocs s /\ eta st = eta s.
Proof. rewrite blend_run. intros H. inversion H. by split. Qed.

Lemma same_config_refl (m : LdaModel) : same_config m m.
Proof. unfold same_config. repeat split. Qed.

Lemma always_ro {A : Type} (P E : LdaModel -> Prop) (c : M A) :
  read_only c -> (forall m, P m -> E m) -> always P c (fun _ m => P m) E.
Proof.
  intros Hc HE. eapply always_conseq; [| | |apply (always_read_only P c Hc)];
    auto.
Qed.

Lemma always_return {A : Type} (P : LdaModel -> Prop) (a : A)
    (Q : A -> LdaModel -> Prop) (E : LdaModel -> Prop) :
  (forall m, P m -> Q a m) -> always P (ret a) Q E.
Proof. intros H w HP. by apply H. Qed.

Lemma always_throw {A : Type} (P : LdaModel -> Prop) (e : exn)
    (Q : A -> LdaModel -> Prop) (E : LdaModel -> Prop) :
  (forall m, P m -> E m) -> always P (raise e) Q E.
Proof. intros H w HP. by apply H. Qed.

(** *** What [update] keeps, and how it counts *)

Lemma update_keeps_set_alpha (m0 : LdaModel) (N : Z) (a : vec) (m : LdaModel) :
  optimize_alpha m0 = true ->
  update_keeps m0 N m -> update_keeps m0 N (set_alpha a m).
Proof.
  intros Hoa (Hc & Hn & He & Ha). split; [exact Hc|]. split; [exact Hn|].
  split; [exact He|]. intros Hf. congruence.
Qed.

Lemma update_keeps_set_num_updates (m0 : LdaModel) (N n : Z) (m : LdaModel) :
  update_keeps m0 N m -> update_keeps m0 N (set_num_updates n m).
Proof.
  intros (Hc & Hn & He & Ha). split; [exact Hc|]. split; [exact Hn|].
  split; [exact He | exact Ha].
Qed.

Lemma update_keeps_mstep (m0 : LdaModel) (N : Z) (st : LdaState) (E : matrix)
    (m : LdaModel) :
  numdocs st = numdocs (state m) -> eta st = eta (state m) ->
  update_keeps m0 N m ->
  update_keeps m0 N (set_expElogbeta E (set_state st m)).
Proof.
  intros Hnd Heta (Hc & Hn & He & Ha). split; [exact Hc|].
  split; [cbn; congruence|]. split; [cbn; congruence | exact Ha].
Qed.

Lemma do_mstep_always (m0 : LdaModel) (N : Z) (D : Prop) (n : Z) (r : Qc)
    (other : LdaState) (extra_pass : bool) :
  always (fun m => update_keeps m0 N m /\ (D -> num_updates m = n))
         (do_mstep r other extra_pass)
         (fun _ m =>
            update_keeps m0 N m /\
            (D -> num_updates m
                  = if extra_pass then n else (n + numdocs other)%Z))
         (update_keeps m0 N).
Proof.
  intros w [HK Hn].
  destruct (do_mstep_model r other extra_pass w) as (st & Hb & Hm).
  cbv zeta in Hm. apply blend_default_numdocs in Hb. destruct Hb as [Hnd Heta].
  rewrite Hm.
  pose proof (update_keeps_mstep m0 N st
                (map (map exp) (get_Elogbeta (heap w) st)) (model w)
                Hnd Heta HK) as HK1.
  destruct (out_result (do_mstep r other extra_pass w)); [|exact HK1].
  destruct extra_pass.
  - split; [exact HK1 | exact Hn].
  - split; [by apply update_keeps_set_num_updates|].
    intros HD. cbn. by rewrite (Hn HD).
Qed.

Lemma mstep_call_always (m0 : LdaModel) (N : Z) (D : Prop) (n : Z)
    (c : run_cfg) (pass_ bound_iteration : nat) (other : LdaState) :
  always (fun m => update_keeps m0 N m /\ (D -> num_updates m = n))
         (mstep_call c pass_ bound_iteration other)
         (fun _ m =>
            update_keeps m0 N m /\
            (D -> num_updates m
                  = if (0 <? pass_)%nat then n else (n + numdocs other)%Z))
         (update_keeps m0 N).
Proof.
  unfold mstep_call.
  eapply always_bind.
  { apply always_ro; [apply read_only_tell_free_rho|]. intros m H. apply H. }
  intros r.
  eapply always_bind.
  { apply always_ro; [apply read_only_gets|]. intros m H. apply H. }
  intros m1.
  eapply always_bind; [apply always_tell|]. intros ?.
  apply do_mstep_always.
Qed.

Lemma fresh_other_always (P E : LdaModel -> Prop) :
  always P fresh_other (fun o m => P m /\ numdocs o = 0%Z) E.
Proof. intros w HP. by split. Qed.

Lemma same_config_optimize_alpha (m0 m : LdaModel) :
  same_config m0 m -> optimize_alpha m0 = optimize_alpha m.
Proof. intros H. apply H. Qed.

Lemma chunk_loop_always (m0 : LdaModel) (N : Z) (c : run_cfg)
    (pass_ bound_iteration : nat) (n0 : Z) (chunks : list (list doc)) :
  forall chunk_no other dirty reallen perwordbound,
    always (fun m =>
              update_keeps m0 N m /\
              (draws_shape -> counted pass_ n0 other dirty reallen m))
           (chunk_loop c pass_ bound_iteration chunk_no chunks other dirty
                       reallen perwordbound)
           (fun r m =>
              update_keeps m0 N m /\
              (draws_shape ->
               counted pass_ n0 (fst (fst (fst r))) (snd (fst (fst r)))
                       (snd (fst r)) m))
           (update_keeps m0 N).
Proof.
  induction chunks as [|chunk rest IH];
    intros chunk_no other dirty reallen perwordbound.
  - cbn [chunk_loop]. apply always_return. intros m H. exact H.
  - cbn [chunk_loop]. cbv zeta.
    set (reallen' := (reallen + Z.of_nat (length chunk))%Z).
    set (P0 := fun m : LdaModel =>
                 update_keeps m0 N m /\
                 (draws_shape -> counted pass_ n0 other dirty reallen m)).
    assert (HP0 : forall m, P0 m -> update_keeps m0 N m)
      by (intros m H; apply H).
    eapply always_bind; [apply (always_ro P0); [apply read_only_gets|exact HP0]|].
    intros m.
    eapply always_bind; [apply (always_ro P0); [apply read_only_lift|exact HP0]|].
    intros due.
    eapply always_bind.
    { apply (always_ro P0); [|exact HP0].
      destruct due; [|apply read_only_ret].
      apply read_only_bind; [apply read_only_log_perplexity|].
      intros ?. apply read_only_ret. }
    intros pwb.
    eapply always_bind; [apply always_tell|]. intros ?.
    eapply always_bind.
    { eapply always_conseq; [| | |apply (do_estep_always P0 chunk other)].
      - auto.
      - intros go m1 H. exact H.
      - exact HP0. }
    intros go. apply always_pure. intros [Heta Hnd].
    eapply always_bind; [apply always_gets_model|]. intros m1.
    eapply (always_bind _ _ (fun _ m => P0 m)).
    { destruct (optimize_alpha m1) eqn:Hoa.
      - apply (always_conseq (fun m => P0 m /\ optimize_alpha m0 = true) _ _
                 (fun _ m => P0 m) _ (update_keeps m0 N) (update_keeps m0 N)).
        { intros m2 [HP Hm]. split; [exact HP|]. subst m1.
          rewrite (same_config_optimize_alpha m0 m2); [exact Hoa|].
          apply HP. }
        { auto. }
        { auto. }
        apply always_pure. intros Hoa0.
        eapply always_bind;
          [apply (always_ro P0); [apply read_only_tell_free_rho|exact HP0]|].
        intros r.
        eapply always_bind.
        { eapply always_conseq; [| | |apply (update_alpha_always P0)].
          - auto.
          - intros ? m2 H. exact H.
          - exact HP0.
          - intros al m2 [HK HC]. split.
            + by apply update_keeps_set_alpha.
            + exact HC. }
        intros ?. apply always_return. auto.
      - apply always_return. intros m2 [HP _]. exact HP. }
    intros ?.
    eapply always_bind; [apply (always_ro P0); [apply read_only_gets|exact HP0]|].
    intros m2.
    eapply always_bind; [apply (always_ro P0); [apply read_only_lift|exact HP0]|].
    intros due2.
    destruct due2.
    + eapply always_bind.
      { eapply always_conseq;
          [| | |apply (mstep_call_always m0 N draws_shape
                         (match pass_ with
                          | O => (n0 + reallen' - numdocs (snd go))%Z
                          | S _ => n0
                          end))].
        - intros m3 [HK HC]. split; [exact HK|]. intros HD.
          destruct (HC HD) as [_ Hc]. specialize (Hnd HD).
          destruct pass_; [|exact Hc]. unfold reallen'. lia.
        - intros ? m3 H. exact H.
        - auto. }
      intros ?.
      eapply always_bind; [apply fresh_other_always|]. intros other'.
      apply always_pure. intros Ho.
      eapply always_conseq; [| | |apply (IH (S chunk_no) other' false reallen')].
      * intros m3 [HK HC]. split; [exact HK|]. intros HD.
        specialize (HC HD). split; [intros _; exact Ho|].
        destruct pass_; cbn in HC; [lia | exact HC].
      * intros r m3 H. exact H.
      * auto.
    + eapply always_conseq;
        [| | |apply (IH (S chunk_no) (snd go) true reallen')].
      * intros m3 [HK HC]. split; [exact HK|]. intros HD.
        destruct (HC HD) as [_ Hc]. specialize (Hnd HD).
        split; [discriminate|].
        destruct pass_; [|exact Hc]. unfold reallen'. lia.
      * intros r m3 H. exact H.
      * auto.
Qed.

Lemma bound_iteration_body_always (m0 : LdaModel) (N : Z) (c : run_cfg)
    (pass_ bound_iteration : nat) (n0 : Z) :
  always (fun m =>
            update_keeps m0 N m /\
            (bound_iteration = O -> num_updates m = n0))
         (bound_iteration_body c pass_ bound_iteration n0)
         (fun _ m =>
            update_keeps m0 N m /\
            (draws_shape ->
             num_updates m = match pass_ with
                             | O => (n0 + c_lencorpus c)%Z
                             | S _ => n0
                             end))
         (update_keeps m0 N).
Proof.
  unfold bound_iteration_body.
  set (P1 := fun m : LdaModel => update_keeps m0 N m /\ num_updates m = n0).
  assert (HP1 : forall m, P1 m -> update_keeps m0 N m)
    by (intros m H; apply H).
  eapply (always_bind _ _ (fun _ m => P1 m)).
  { destruct bound_iteration as [|b]; cbn [Nat.ltb Nat.leb].
    - apply always_return. intros m [HK Hb]. split; [exact HK | by apply Hb].
    - intros w [HK _]. split; [by apply update_keeps_set_num_updates|].
      reflexivity. }
  intros ?.
  eapply always_bind; [apply (always_ro P1); [apply read_only_gets|exact HP1]|].
  intros m1.
  eapply always_bind; [apply always_tell|]. intros ?.
  eapply always_bind; [apply fresh_other_always|]. intros other.
  apply always_pure. intros Ho.
  cbv zeta.
  eapply always_bind.
  { eapply always_conseq;
      [| | |apply (chunk_loop_always m0 N c pass_ bound_iteration n0
                     (fst (grouper (c_corpus c) (c_chunksize c))) O
                     other false 0%Z None)].
    - intros m [HK Hn]. split; [exact HK|]. intros _.
      split; [intros _; exact Ho|]. destruct pass_; [lia | exact Hn].
    - intros r m H. exact H.
    - auto. }
  intros r.
  eapply (always_bind _ _ (fun _ m =>
            update_keeps m0 N m /\
            (draws_shape ->
             counted pass_ n0 (fst (fst (fst r))) (snd (fst (fst r)))
                     (snd (fst r)) m))).
  { destruct (snd (grouper (c_corpus c) (c_chunksize c))).
    - apply always_throw. intros m H. apply H.
    - apply always_return. intros m H. exact H. }
  intros ?.
  destruct (negb (snd (fst r) =? c_lencorpus c)%Z) eqn:Hlen.
  { apply always_throw. intros m H. apply H. }
  apply negb_false_iff, Z.eqb_eq in Hlen.
  eapply (always_bind _ _ (fun _ m =>
            update_keeps m0 N m /\
            (draws_shape ->
             num_updates m = match pass_ with
                             | O => (n0 + c_lencorpus c)%Z
                             | S _ => n0
                             end))).
  - destruct (snd (fst (fst r))) eqn:Hdirty.
    + eapply always_conseq;
        [| | |apply (mstep_call_always m0 N draws_shape
                       (match pass_ with
                        | O => (n0 + c_lencorpus c
                                - numdocs (fst (fst (fst r))))%Z
                        | S _ => n0
                        end))].
      * intros m [HK HC]. split; [exact HK|]. intros HD.
        destruct (HC HD) as [_ Hc]. destruct pass_; [lia | exact Hc].
      * intros ? m [HK Hn]. split; [exact HK|]. intros HD.
        rewrite (Hn HD). destruct pass_; cbn [Nat.ltb Nat.leb]; lia.
      * auto.
    + apply always_return. intros m [HK HC]. split; [exact HK|]. intros HD.
      destruct (HC HD) as [Hclean Hc]. specialize (Hclean eq_refl).
      destruct pass_; [lia | exact Hc].
  - intros ?. apply always_return. intros m H. exact H.
Qed.

Lemma bound_loop_always (m0 : LdaModel) (N : Z) (c : run_cfg) (pass_ : nat)
    (n0 : Z) (fuel : nat) :
  forall bound_iteration last_perwordbound,
    always (fun m =>
              update_keeps m0 N m /\
              (bound_iteration = O -> num_updates m = n0) /\
              (fuel = O -> draws_shape ->
               num_updates m = match pass_ with
                               | O => (n0 + c_lencorpus c)%Z
                               | S _ => n0
                               end))
           (bound_loop fuel c pass_ bound_iteration n0 last_perwordbound)
           (fun _ m =>
              update_keeps m0 N m /\
              (draws_shape ->
               num_updates m = match pass_ with
                               | O => (n0 + c_lencorpus c)%Z
                               | S _ => n0
                               end))
           (update_keeps m0 N).
Proof.
  induction fuel as [|fuel IH]; intros b last; cbn [bound_loop].
  - apply always_return. intros m (HK & _ & Hn). split; [exact HK|].
    by apply Hn.
  - eapply always_bind.
    { eapply always_conseq;
        [| | |apply (bound_iteration_body_always m0 N c pass_ b n0)].
      - intros m (HK & Hb & _). by split.
      - intros pwb m H. exact H.
      - auto. }
    intros pwb.
    assert (Hnext : forall l,
      always (fun m =>
                update_keeps m0 N m /\
                (draws_shape ->
                 num_updates m = match pass_ with
                                 | O => (n0 + c_lencorpus c)%Z
                                 | S _ => n0
                                 end))
             (bound_loop fuel c pass_ (S b) n0 l)
             (fun _ m =>
                update_keeps m0 N m /\
                (draws_shape ->
                 num_updates m = match pass_ with
                                 | O => (n0 + c_lencorpus c)%Z
                                 | S _ => n0
                                 end))
             (update_keeps m0 N)).
    { intros l. eapply always_conseq; [| | |apply (IH (S b) l)].
      - intros m [HK Hn]. split; [exact HK|]. split; [discriminate|].
        intros _. exact Hn.
      - intros ? m H. exact H.
      - auto. }
    destruct pwb as [perwordbound|]; [|apply Hnext].
    destruct (improvement_below last perwordbound
                (c_bound_improvement_threshold c)); [|apply Hnext].
    apply always_return. intros m H. exact H.
Qed.

Lemma pass_body_always (m0 : LdaModel) (N : Z) (c : run_cfg) (pass_ : nat)
    (n : Z) :
  (1 <= c_max_bound_iterations c)%Z ->
  always (fun m => update_keeps m0 N m /\ (draws_shape -> num_updates m = n))
         (pass_body c pass_)
         (fun _ m =>
            update_keeps m0 N m /\
            (draws_shape ->
             num_updates m = match pass_ with
                             | O => (n + c_lencorpus c)%Z
                             | S _ => n
                             end))
         (update_keeps m0 N).
Proof.
  intros Hmbi. unfold pass_body.
  eapply always_bind; [apply always_gets_model|]. intros m1.
  apply (always_conseq
           (fun m => (update_keeps m0 N m /\ num_updates m = num_updates m1)
                     /\ (draws_shape -> num_updates m1 = n)) _ _
           (fun _ m =>
              update_keeps m0 N m /\
              (draws_shape ->
               num_updates m = match pass_ with
                               | O => (n + c_lencorpus c)%Z
                               | S _ => n
                               end)) _
           (update_keeps m0 N) (update_keeps m0 N)).
  { intros m [[HK Hn] ->]. split; [split; [exact HK | reflexivity] | exact Hn]. }
  { auto. }
  { auto. }
  apply always_pure. intros Hn.
  eapply always_bind; [apply always_tell|]. intros ?.
  eapply always_conseq;
    [| | |apply (bound_loop_always m0 N c pass_ (num_updates m1)
                   (Z.to_nat (c_max_bound_iterations c)) O (Finite big99))].
  - intros m [HK Hm]. split; [exact HK|]. split; [intros _; exact Hm|].
    intros H0. lia.
  - intros ? m [HK Hm]. split; [exact HK|]. intros HD.
    rewrite (Hm HD), (Hn HD). reflexivity.
  - auto.
Qed.

Lemma pass_loop_later (m0 : LdaModel) (N : Z) (c : run_cfg) (n : Z)
    (passes_ : list nat) :
  (1 <= c_max_bound_iterations c)%Z ->
  Forall (fun p => (0 < p)%nat) passes_ ->
  always (fun m => update_keeps m0 N m /\ (draws_shape -> num_updates m = n))
         (pass_loop c passes_)
         (fun _ m =>
            update_keeps m0 N m /\ (draws_shape -> num_updates m = n))
         (update_keeps m0 N).
Proof.
  intros Hmbi Hp. induction Hp as [|p rest Hpos _ IH]; cbn [pass_loop].
  - apply always_return. intros m H. exact H.
  - eapply always_bind; [|intros ?; exact IH].
    eapply always_conseq; [| | |apply (pass_body_always m0 N c p n Hmbi)].
    + intros m H. exact H.
    + intros ? m [HK Hn]. split; [exact HK|]. intros HD.
      rewrite (Hn HD). destruct p; [lia | reflexivity].
    + auto.
Qed.

Lemma Forall_seq_pos (k : nat) : Forall (fun p => (0 < p)%nat) (seq 1 k).
Proof.
  apply Forall_forall. intros p Hp. apply in_seq in Hp. lia.
Qed.

(** What [update] does to the model it finds, on a corpus that is not
    empty: whatever happens the settings are kept and the corpus has been
    counted into [state.numdocs]; when it returns after at least one pass,
    the counter [num_updates] has advanced by the length of the corpus. *)
Lemma update_always (corpus : list doc) (a : update_args) (m_init : LdaModel) :
  corpus <> nil ->
  let c := update_cfg m_init corpus a in
  let N := (numdocs (state m_init) + c_lencorpus c)%Z in
  always (fun m => m = m_init) (update corpus a)
         (fun _ m =>
            update_keeps m_init N m /\
            (draws_shape -> (1 <= c_passes c)%Z ->
             num_updates m = (num_updates m_init + c_lencorpus c)%Z))
         (update_keeps m_init N).
Proof.
  intros Hne c N. unfold update.
  eapply always_bind; [apply always_gets_model|]. intros m1.
  apply (always_conseq
           (fun m => m = m_init /\ m1 = m_init) _ _
           (fun _ m =>
              update_keeps m_init N m /\
              (draws_shape -> (1 <= c_passes c)%Z ->
               num_updates m = (num_updates m_init + c_lencorpus c)%Z)) _
           (update_keeps m_init N) (update_keeps m_init N)).
  { intros m [-> ->]. by split. }
  { auto. }
  { auto. }
  apply always_pure. intros ->. fold c.
  assert (Hlen : (c_lencorpus c =? 0)%Z = false).
  { apply Z.eqb_neq. unfold c, update_cfg. cbn [c_lencorpus].
    destruct corpus; [done|]. cbn [length]. lia. }
  rewrite Hlen.
  set (P1 := fun m : LdaModel =>
               update_keeps m_init N m /\ num_updates m = num_updates m_init).
  assert (HP1 : forall m, P1 m -> update_keeps m_init N m)
    by (intros m H; apply H).
  eapply (always_bind _ _ (fun _ m => P1 m)).
  { intros w Hw. cbn. rewrite Hw. split; [|reflexivity].
    split; [exact (same_config_refl m_init)|]. split; [reflexivity|].
    split; [reflexivity | done]. }
  intros ?.
  eapply (always_bind _ _ (fun _ m => P1 m)).
  { destruct (truthy (c_update_every c)); [|by apply always_return].
    destruct (1 <? c_max_bound_iterations c)%Z;
      [apply always_throw; exact HP1 | by apply always_return]. }
  intros ?.
  destruct (Z.ltb_spec (c_max_bound_iterations c) 1) as [Hmbi|Hmbi].
  { eapply (always_bind _ _ (fun _ _ => False));
      [apply always_throw; exact HP1 | intros ? w []]. }
  eapply (always_bind _ _ (fun _ m => P1 m)); [by apply always_return|].
  intros ?.
  eapply (always_bind _ _ (fun _ m => P1 m)).
  { destruct ((1 <? c_max_bound_iterations c)%Z
              && negb (0 <? or0 (c_eval_every c))%Z);
      [apply always_throw; exact HP1 | by apply always_return]. }
  intros ?.
  eapply always_bind; [apply (always_ro P1); [apply read_only_lift|exact HP1]|].
  intros ?.
  destruct (Z.to_nat (c_passes c)) as [|k] eqn:Hk.
  - cbn [seq pass_loop]. apply always_return. intros m [HK _].
    split; [exact HK|]. intros _ Hp. lia.
  - cbn [seq pass_loop].
    eapply always_bind.
    { eapply always_conseq;
        [| | |apply (pass_body_always m_init N c O (num_updates m_init) Hmbi)].
      - intros m [HK Hn]. split; [exact HK|]. intros _. exact Hn.
      - intros ? m H. exact H.
      - auto. }
    intros ?.
    eapply always_conseq;
      [| | |apply (pass_loop_later m_init N c
                     (num_updates m_init + c_lencorpus c)%Z (seq 1 k) Hmbi
                     (Forall_seq_pos k))].
    + intros m H. exact H.
    + intros ? m [HK Hn]. split; [exact HK|]. intros HD _. by apply Hn.
    + auto.
Qed.

(** X4.  On a corpus that is not empty, [update] counts the corpus into
    [state.numdocs] before it checks the configuration, and nothing later
    changes that attribute: whether the call returns or raises, also when it
    rejects the configuration, [state.numdocs] ends [len(corpus)] higher than
    it was.  On an empty corpus nothing changes. *)
Theorem update_adds_corpus_to_numdocs (corpus : list doc) (a : update_args)
    (w : World) :
  let o := update corpus a w in
  (corpus = nil -> out_world o = w) /\
  (corpus <> nil ->
   numdocs (state (model (out_world o)))
   = (numdocs (state (model w)) + Z.of_nat (length corpus))%Z /\
   (rejected (update_cfg (model w) corpus a) ->
    value_error (out_result o) /\
    model (out_world o)
    = set_state (mkState (eta (state (model w))) (sstats (state (model w)))
                         (numdocs (state (model w))
                          + Z.of_nat (length corpus)))
                (model w))).
Proof.
  intros o. split.
  { intros ->. reflexivity. }
  intros Hne. split.
  - pose proof (update_always corpus a (model w) Hne w eq_refl) as H.
    cbv zeta in H. fold o in H.
    destruct (out_result o); [destruct H as [H _]|]; apply H.
  - intros Hrej.
    destruct (update_run corpus a w)
      as [[Hnil _] | [(_ & _ & msg & w1 & H) | [(_ & Hnr & _) | (_ & Hnr & _)]]];
      try contradiction.
    split; [unfold o; rewrite H; by exists msg|].
    clear H msg w1. unfold o, update, bind, gets, modify_model, modify, raise,
      ret, lift, out_world.
    cbv beta iota zeta.
    assert (Hlen : (c_lencorpus (update_cfg (model w) corpus a) =? 0)%Z = false).
    { apply Z.eqb_neq. cbn [update_cfg c_lencorpus].
      destruct corpus; [done|]. cbn [length]. lia. }
    rewrite Hlen. cbn [fst snd model heap rng].
    set (c := update_cfg (model w) corpus a) in *.
    destruct Hrej as [Hr | [[Hr Hue] | [Hr Hee]]].
    + destruct (truthy (c_update_every c)).
      * destruct (Z.ltb_spec 1 (c_max_bound_iterations c)); [lia|].
        cbn [fst snd model]. destruct (Z.ltb_spec (c_max_bound_iterations c) 1);
          [reflexivity | lia].
      * cbn [fst snd model]. destruct (Z.ltb_spec (c_max_bound_iterations c) 1);
          [reflexivity | lia].
    + assert (Ht : truthy (c_update_every c) = true).
      { unfold truthy. by destruct (Z.eqb_spec (c_update_every c) 0). }
      rewrite Ht. destruct (Z.ltb_spec 1 (c_max_bound_iterations c)); [|lia].
      reflexivity.
    + destruct (truthy (c_update_every c)).
      * destruct (Z.ltb_spec 1 (c_max_bound_iterations c)); [|lia].
        reflexivity.
      * cbn [fst snd model].
        destruct (Z.ltb_spec (c_max_bound_iterations c) 1); [lia|].
        cbn [fst snd model].
        destruct (Z.ltb_spec 1 (c_max_bound_iterations c)); [|lia].
        destruct (Z.ltb_spec 0 (or0 (c_eval_every c))); [lia|].
        reflexivity.
Qed.

(** X5.  [update] keeps the settings of the model, whether it returns or
    raises: the keyword arguments of the call ([chunksize], [decay],
    [passes], [update_every], ...) are used for this run only and not stored,
    so [num_terms], [num_topics], [chunksize], [decay], [offset], [passes],
    [update_every], [eval_every], [max_bound_iterations], the thresholds,
    [iterations], the two optimise flags and the reference [eta] are as
    before, also inside the state; and [alpha] changes only if
    [optimize_alpha] is on. *)
Theorem update_keeps_settings (corpus : list doc) (a : update_args)
    (w : World) :
  let m' := model (out_world (update corpus a w)) in
  same_config (model w) m' /\
  eta (state m') = eta (state (model w)) /\
  (optimize_alpha (model w) = false -> alpha m' = alpha (model w)).
Proof.
  intros m'.
  assert (Hcase : corpus = nil \/ corpus <> nil)
    by (destruct corpus; [by left | by right]).
  destruct Hcase as [-> | Hne].
  { unfold m'. cbn. split; [apply same_config_refl | by split]. }
  pose proof (update_always corpus a (model w) Hne w eq_refl) as H.
  cbv zeta in H. fold m' in H.
  assert (HK : update_keeps (model w)
                 (numdocs (state (model w))
                  + c_lencorpus (update_cfg (model w) corpus a)) m').
  { destruct (out_result (update corpus a w)); [apply H | exact H]. }
  destruct HK as (Hcfg & _ & He & Ha).
  split; [exact Hcfg|]. split; [exact He | exact Ha].
Qed.

(** X6.  [num_updates] counts the documents the model was trained on, once
    each.  When [update] returns on a corpus that is not empty after at least
    one pass, [num_updates] has advanced by exactly [len(corpus)], whatever
    the chunk size, the number of passes and the number of bound-iterations:
    only the M-steps of the first pass advance the counter, every
    bound-iteration starts again from the value at the start of the pass, and
    a run that returns has seen every document.  (The generator draws one
    row of gamma per document.) *)
Theorem update_advances_num_updates (corpus : list doc) (a : update_args)
    (w : World) :
  draws_shape ->
  corpus <> nil ->
  (1 <= c_passes (update_cfg (model w) corpus a))%Z ->
  out_result (update corpus a w) = Ok tt ->
  num_updates (model (out_world (update corpus a w)))
  = (num_updates (model w) + Z.of_nat (length corpus))%Z.
Proof.
  intros HD Hne Hp Hok.
  pose proof (update_always corpus a (model w) Hne w eq_refl) as H.
  cbv zeta in H. rewrite Hok in H. destruct H as [_ H]. by apply H.
Qed.

(** ** The M-step and the E-step as [update] calls them *)

Lemma do_mstep_total (r : Qc) (other : LdaState) (extra_pass : bool)
    (w : World) (st : LdaState) :
  optimize_eta (model w) = false ->
  blend (state (model w)) r other None = Ok st ->
  out_result (do_mstep r other extra_pass w)
  = fst (print_topics
           (set_expElogbeta (map (map exp) (get_Elogbeta (heap w) st))
                            (set_state st (model w)))
           (heap w) (rng w)).
Proof.
  intros Hopt Hst.
  unfold do_mstep, sync_state, call_print_topics, bind, gets, lift,
    modify_model, modify, ret, out_result.
  cbv beta iota zeta. rewrite Hst.
  cbn [fst snd heap model rng id optimize_eta set_state set_expElogbeta state
       expElogbeta].
  match goal with
  | |- context [print_topics ?m ?h ?g] =>
      destruct (print_topics m h g) as [[[]|e] g']
  end; cbn [fst snd heap model rng id optimize_eta set_state set_expElogbeta
            state expElogbeta]; [|reflexivity].
  rewrite Hopt. by destruct extra_pass.
Qed.

(** X7.  What [do_mstep] does to the counters, whether it returns or raises:
    [state.numdocs] and the reference [state.eta] are kept (the blend has the
    state's own size as its target), the settings and [alpha] are kept, and
    [num_updates] advances by [other.numdocs] exactly when the call returns
    and is no extra pass.  With [optimize_eta] off (and the arrays of one
    shape, as everywhere) the only exit by exception is that of
    [print_topics], called on the blended and synchronised model: the call
    returns when [print_topics] does and raises what it raises. *)
Theorem do_mstep_advances_counter (w : World) (r : Qc) (other : LdaState)
    (extra_pass : bool) :
  let o := do_mstep r other extra_pass w in
  let m := model w in
  let m' := model (out_world o) in
  (exists st,
     blend (state m) r other None = Ok st /\
     (optimize_eta m = false ->
      out_result o
      = fst (print_topics
               (set_expElogbeta (map (map exp) (get_Elogbeta (heap w) st))
                                (set_state st m))
               (heap w) (rng w)))) /\
  numdocs (state m') = numdocs (state m) /\
  eta (state m') = eta (state m) /\
  same_config m m' /\ alpha m' = alpha m /\
  num_updates m'
  = match out_result o with
    | Ok _ => if extra_pass then num_updates m
              else (num_updates m + numdocs other)%Z
    | Raise _ => num_updates m
    end.
Proof.
  intros o m m'.
  destruct (do_mstep_model r other extra_pass w) as (st & Hb & Hm).
  split.
  { exists st. split; [exact Hb|]. intros Hopt. by apply do_mstep_total. }
  cbv zeta in Hm. apply blend_default_numdocs in Hb. destruct Hb as [Hnd Heta].
  fold o in Hm. unfold m'. rewrite Hm.
  destruct (out_result o); [destruct extra_pass|];
    (split; [exact Hnd|]); (split; [exact Heta|]);
    (split; [exact (same_config_refl m)|]); split; reflexivity.
Qed.


(** ** [update_eta] *)

Lemma concat_singletons (v : vec) : concat (map (fun x => x :: nil) v) = v.
Proof. induction v as [|x v IH]; simpl; [reflexivity | by rewrite IH]. Qed.

(** X9.  [update_eta] guards its prior as [update_alpha] does.  It raises
    [AttributeError] when [eta] is a plain float and [ValueError] when the
    array [eta] has more than one column, both without changing anything;
    it never changes the model object nor any array but [eta]; and when it
    returns, an [eta] that was strictly positive is strictly positive again
    (the Newton step is applied, in place, only if the result is positive in
    every entry). *)
Theorem update_eta_keeps_eta_positive (lambdat : matrix) (rho : Qc)
    (w : World) :
  let o := update_eta lambdat rho w in
  model (out_world o) = model w /\
  (forall x, model_eta (model w) = EtaFloat x ->
     out_result o = Raise (AttributeError "shape") /\ out_world o = w) /\
  (forall l, model_eta (model w) = EtaArray l ->
     (ncols (heap w !!! l) <> 1%nat ->
      value_error (out_result o) /\ out_world o = w) /\
     (forall l', l' <> l -> heap (out_world o) !! l' = heap w !! l') /\
     (Forall (fun x => 0 < x) (concat (heap w !!! l)) ->
      Forall (fun x => 0 < x) (concat (heap (out_world o) !!! l)))).
Proof.
  intros o. split; [apply (update_eta_frame lambdat rho w)|]. split.
  - intros x Hx. unfold o, update_eta, bind, gets, raise, out_result, out_world.
    cbv beta iota zeta. rewrite Hx. cbn [fst snd]. split; [reflexivity|].
    by destruct w.
  - intros l Hl. split; [|split].
    + intros Hcols.
      unfold o, update_eta, bind, gets, raise, out_result, out_world.
      cbv beta iota zeta. rewrite Hl. cbn [fst snd].
      destruct (Nat.eqb_spec (ncols (heap w !!! l)) 1) as [|_];
        [contradiction|].
      cbn [negb fst snd]. split; [eexists; reflexivity | by destruct w].
    + intros l' Hne.
      destruct (update_eta_frame lambdat rho w) as (_ & _ & _ & Hh).
      fold o in Hh.
      destruct Hh as [-> | (l0 & deta & Hl0 & _ & ->)]; [reflexivity|].
      rewrite Hl in Hl0. inversion Hl0; subst l0.
      by rewrite lookup_insert_ne.
    + intros Hpos.
      destruct (update_eta_frame lambdat rho w) as (_ & _ & _ & Hh).
      fold o in Hh.
      destruct Hh as [-> | (l0 & deta & Hl0 & Hall & ->)]; [exact Hpos|].
      rewrite Hl in Hl0. inversion Hl0; subst l0.
      rewrite lookup_total_insert, decide_True by reflexivity.
      rewrite concat_singletons, vec_add_comm.
      by apply all_positive_spec.
Qed.

(** ** [log_perplexity] *)

(** X10.  [log_perplexity] only reads: whether it returns or raises, the
    model object and the arrays are as before and nothing is logged; and on
    an empty chunk it raises [ZeroDivisionError] (the subsample ratio is
    [total_docs / len(chunk)]) without having touched the generator. *)
Theorem log_perplexity_only_reads (chunk : list doc) (total_docs : Z)
    (w : World) :
  let o := log_perplexity chunk total_docs w in
  heap (out_world o) = heap w /\ model (out_world o) = model w /\
  out_events o = nil /\
  (chunk = nil -> out_result o = Raise ZeroDivisionError /\ out_world o = w).
Proof.
  intros o.
  destruct (read_only_log_perplexity chunk total_docs w) as (Hh & Hm & Ht).
  split; [exact Hh|]. split; [exact Hm|]. split; [exact Ht|].
  intros ->. by split.
Qed.

(** ** Term ids outside the vocabulary *)

Lemma rmapM_lookup_unknown (row : vec) (ids : list nat) :
  Exists (fun i => (length row <= i)%nat) ids ->
  rmapM (np_lookup row) ids = Raise IndexError.
Proof.
  induction ids as [|i ids IH]; intros H; [inversion H|].
  cbn [rmapM]. unfold np_lookup at 1.
  destruct (row !! i) as [x|] eqn:Hx; [|reflexivity].
  cbn [rbind]. rewrite IH; [reflexivity|].
  inversion H as [? ? Hi|? ? Ht]; subst; [|exact Ht].
  apply lookup_lt_Some in Hx. lia.
Qed.

Lemma select_cols_unknown (K W : nat) (beta : matrix) (ids : list nat) :
  mat_shape K W beta -> (0 < K)%nat ->
  Exists (fun i => (W <= i)%nat) ids ->
  select_cols beta ids = Raise IndexError.
Proof.
  intros [HK HW] Hpos Hids. unfold select_cols.
  destruct beta as [|row rest]; [simpl in HK; lia|].
  inversion HW as [|? ? Hrow _]; subst.
  cbn [rmapM]. rewrite rmapM_lookup_unknown; [reflexivity | exact Hids].
Qed.

Lemma estep_doc_unknown (K W : nat) (a : vec) (iters : Z) (thr : Qc)
    (beta : matrix) (dc : doc) (g0 E0 X0 : vec) :
  mat_shape K W beta -> (0 < K)%nat -> unknown_term W dc ->
  estep_doc a iters thr beta dc g0 E0 X0 = Raise IndexError.
Proof.
  intros Hb HK Hu. unfold estep_doc.
  rewrite (select_cols_unknown K W); [reflexivity | exact Hb | exact HK|].
  unfold unknown_term in Hu. apply Exists_exists in Hu.
  destruct Hu as [p [Hin Hp]]. apply Exists_exists. exists (fst p).
  split; [by apply in_map | exact Hp].
Qed.

Lemma bind_assoc_run {A B C : Type} (c : M A) (k1 : A -> M B) (k2 : B -> M C)
    (w : World) :
  bind (bind c k1) k2 w = bind c (fun a => bind (k1 a) k2) w.
Proof.
  unfold bind. destruct (c w) as [[[a|e] w1] t1]; [|reflexivity].
  destruct (k1 a w1) as [[[b|e] w2] t2]; [|reflexivity].
  destruct (k2 b w2) as [[r w3] t3]. by rewrite app_assoc.
Qed.

Lemma infer_docs_unknown (K W : nat) (collect : bool)
    (Elogtheta expElogtheta : matrix) (chunk : list doc) (w : World) :
  mat_shape K W (expElogbeta (model w)) -> (0 < K)%nat ->
  Exists (unknown_term W) chunk ->
  forall d gamma sst converged,
    (exists e,
       out_result (infer_docs collect Elogtheta expElogtheta d chunk gamma sst
                              converged w) = Raise e) /\
    (forall dc rest, chunk = dc :: rest -> unknown_term W dc ->
       out_result (infer_docs collect Elogtheta expElogtheta d chunk gamma sst
                              converged w) = Raise IndexError).
Proof.
  intros Hb HK. induction chunk as [|dc rest IH]; intros Hex;
    [inversion Hex|].
  intros d gamma sst converged. cbn [infer_docs].
  rewrite bind_lift_run.
  destruct (np_lookup gamma d) as [g0|e] eqn:Hg0.
  2:{ unfold np_lookup in Hg0. destruct (gamma !! d); inversion Hg0.
      split; [eexists; reflexivity | intros; reflexivity]. }
  rewrite bind_lift_run.
  destruct (np_lookup Elogtheta d) as [E0|e] eqn:HE0.
  2:{ unfold np_lookup in HE0. destruct (Elogtheta !! d); inversion HE0.
      split; [eexists; reflexivity | intros; reflexivity]. }
  rewrite bind_lift_run.
  destruct (np_lookup expElogtheta d) as [X0|e] eqn:HX0.
  2:{ unfold np_lookup in HX0. destruct (expElogtheta !! d); inversion HX0.
      split; [eexists; reflexivity | intros; reflexivity]. }
  rewrite !bind_gets_run, bind_lift_run.
  destruct (estep_doc (alpha (model w)) (iterations (model w))
              (gamma_threshold (model w)) (expElogbeta (model w)) dc g0 E0 X0)
    as [vb|e] eqn:He.
  2:{ split; [eexists; reflexivity|]. intros dc' rest' Heq Hu.
      inversion Heq; subst dc' rest'.
      rewrite (estep_doc_unknown K W) in He by assumption.
      by inversion He. }
  assert (Hrest : Exists (unknown_term W) rest).
  { inversion Hex as [? ? Hu|? ? Ht]; subst; [|exact Ht].
    rewrite (estep_doc_unknown K W) in He by assumption. discriminate. }
  assert (Hhead : ~ unknown_term W dc).
  { intros Hu. rewrite (estep_doc_unknown K W) in He by assumption.
    discriminate. }
  destruct sst as [s|].
  - rewrite bind_assoc_run, bind_lift_run.
    destruct (collect_doc s dc (fst vb)) as [s'|e].
    + rewrite bind_ret_run.
      destruct (IH Hrest (S d) (<[d:=gammad (fst vb)]> gamma) (Some s')
                  (if snd vb then S converged else converged)) as [H1 _].
      split; [exact H1|]. intros dc' rest' Heq Hu. inversion Heq; subst.
      contradiction.
    + split; [eexists; reflexivity|]. intros dc' rest' Heq Hu.
      inversion Heq; subst. contradiction.
  - rewrite bind_ret_run.
    destruct (IH Hrest (S d) (<[d:=gammad (fst vb)]> gamma) None
                (if snd vb then S converged else converged)) as [H1 _].
    split; [exact H1|]. intros dc' rest' Heq Hu. inversion Heq; subst.
    contradiction.
Qed.

(** X11.  A term id outside the vocabulary is an error, not ignored.  With
    a cache [expElogbeta] of [K >= 1] topics over [W] terms, [inference] on
    a chunk in which some document mentions a term id [>= W] never returns:
    it raises (and [IndexError] if that document is the first of the chunk),
    and the model object and the arrays are as before. *)
Theorem inference_raises_on_unknown_term (K W : nat) (chunk : list doc)
    (collect : bool) (w : World) :
  mat_shape K W (expElogbeta (model w)) -> (0 < K)%nat ->
  Exists (unknown_term W) chunk ->
  let o := inference chunk collect w in
  (exists e, out_result o = Raise e) /\
  (forall dc rest, chunk = dc :: rest -> unknown_term W dc ->
     out_result o = Raise IndexError) /\
  heap (out_world o) = heap w /\ model (out_world o) = model w.
Proof.
  intros Hb HK Hex o.
  destruct (read_only_inference chunk collect w) as (Hh & Hm & _).
  assert (H : (exists e, out_result o = Raise e) /\
              (forall dc rest, chunk = dc :: rest -> unknown_term W dc ->
                 out_result o = Raise IndexError)).
  { unfold o, inference. rewrite bind_gets_run, bind_run.
    set (w1 := out_world (draw_gamma (length chunk) (num_topics (model w)) w)).
    set (g := fst (random_gamma (rng w) (length chunk) (num_topics (model w)))).
    change (out_result (draw_gamma (length chunk) (num_topics (model w)) w))
      with (Ok g : result matrix).
    cbv beta iota. rewrite out_result_mk, bind_gets_run, bind_run.
    assert (Hb1 : mat_shape K W (expElogbeta (model w1))) by exact Hb.
    destruct (infer_docs_unknown K W collect (dirichlet_expectation2 g)
                (map (map exp) (dirichlet_expectation2 g)) chunk w1 Hb1 HK Hex
                O g (if collect then Some (zeros_like (expElogbeta (model w1)))
                     else None) O) as [[e He] Hfirst].
    split.
    - exists e. rewrite He. reflexivity.
    - intros dc rest Heq Hu. rewrite (Hfirst dc rest Heq Hu). reflexivity. }
  destruct H as [H1 H2]. by repeat split.
Qed.

(** ** [get_document_topics] *)

Lemma enumerate_from_In {A : Type} (l : list A) :
  forall i k v,
    In (k, v) (enumerate_from i l)
    <-> (i <= k)%nat /\ l !! (k - i)%nat = Some v.
Proof.
  induction l as [|x l IH]; intros i k v; cbn [enumerate_from In].
  - split; [intros [] | intros [_ H]; discriminate].
  - rewrite IH. split.
    + intros [Heq | [Hle Hl]].
      * inversion Heq; subst. split; [lia|]. by rewrite Nat.sub_diag.
      * split; [lia|]. replace (k - i)%nat with (S (k - S i)) by lia.
        exact Hl.
    + intros [Hle Hl]. destruct (Nat.eq_dec k i) as [->|Hne].
      * left. rewrite Nat.sub_diag in Hl. cbn in Hl. by inversion Hl.
      * right. split; [lia|].
        replace (k - i)%nat with (S (k - S i)) in Hl by lia. exact Hl.
Qed.

Lemma enumerate_from_fst {A : Type} (l : list A) :
  forall i, map fst (enumerate_from i l) = seq i (length l).
Proof.
  induction l as [|x l IH]; intros i; cbn; [reflexivity | by rewrite IH].
Qed.

Lemma enumerate_from_snd {A : Type} (l : list A) :
  forall i, map snd (enumerate_from i l) = l.
Proof.
  induction l as [|x l IH]; intros i; cbn; [reflexivity | by rewrite IH].
Qed.

Lemma filter_enumerate_sublist {A : Type} (f : nat * A -> bool) (l : list A) :
  forall i,
    sublist (map fst (List.filter f (enumerate_from i l))) (seq i (length l)).
Proof.
  induction l as [|x l IH]; intros i; cbn.
  - constructor.
  - destruct (f (i, x)); cbn.
    + apply sublist_skip, IH.
    + apply sublist_cons, IH.
Qed.

Lemma filter_all {A : Type} (f : A -> bool) (l : list A) :
  Forall (fun x => f x = true) l -> List.filter f l = l.
Proof.
  induction 1 as [|x l Hx _ IH]; cbn; [reflexivity|]. by rewrite Hx, IH.
Qed.

Lemma vec_sum_cons (x : Qc) (v : vec) : vec_sum (x :: v) = x + vec_sum v.
Proof. reflexivity. Qed.

Lemma vec_sum_nil : vec_sum nil = 0.
Proof. reflexivity. Qed.

Lemma foldl_Qcplus (v : vec) : forall a, foldl Qcplus a v = a + vec_sum v.
Proof.
  induction v as [|x v IH]; intros a; cbn [foldl].
  - rewrite vec_sum_nil. ring.
  - rewrite IH, vec_sum_cons. ring.
Qed.

Lemma py_sum_vec_sum (v : vec) : py_sum v = vec_sum v.
Proof. unfold py_sum. rewrite foldl_Qcplus. ring. Qed.

Lemma vec_sum_div (v : vec) (s : Qc) :
  vec_sum (map (fun x => x / s) v) = vec_sum v / s.
Proof.
  induction v as [|x v IH]; cbn [map].
  - rewrite vec_sum_nil. unfold Qcdiv. ring.
  - rewrite !vec_sum_cons, IH. unfold Qcdiv. ring.
Qed.

Lemma vec_sum_nonneg (v : vec) :
  Forall (fun x => 0 <= x) v -> 0 <= vec_sum v.
Proof.
  induction 1 as [|y v Hy _ IH]; [apply Qcle_refl|].
  rewrite vec_sum_cons. by apply Qcplus_nonneg_nonneg.
Qed.

Lemma vec_sum_pos (v : vec) :
  Forall (fun x => 0 < x) v -> v <> nil -> 0 < vec_sum v.
Proof.
  intros Hv Hne. destruct Hv as [|x v Hx Hv]; [done|].
  rewrite vec_sum_cons, Qcplus_comm. apply Qcplus_nonneg_pos; [|exact Hx].
  apply vec_sum_nonneg. eapply Forall_impl; [|exact Hv].
  intros y Hy. by apply Qclt_le_weak.
Qed.

Lemma read_only_get_document_topics (bow : doc) (minp : Qc) :
  read_only (get_document_topics bow minp).
Proof.
  unfold get_document_topics. destruct (is_corpus bow); [apply read_only_ret|].
  apply read_only_bind; [apply read_only_inference|]. intros r.
  apply read_only_bind; [apply read_only_lift|]. intros g.
  apply read_only_ret.
Qed.

Lemma np_quot_finite (x s : Qc) : s <> 0 -> np_quot x s = Finite (x / s).
Proof.
  intros Hs. unfold np_quot. by rewrite bool_decide_eq_false_2.
Qed.

Lemma np_quot_zero (x : Qc) (p : Qc) :
  np_ge (np_quot x 0) p = true <-> 0 < x /\ np_quot x 0 = PosInf.
Proof.
  unfold np_quot. rewrite bool_decide_eq_true_2 by reflexivity.
  destruct (Qcltb 0 x) eqn:Hx.
  - apply Qcltb_spec in Hx. cbn. split; [by split | reflexivity].
  - assert (Hn : ~ 0 < x).
    { intros H. apply Qcltb_spec in H. congruence. }
    destruct (Qcltb x 0); cbn; split; try discriminate;
      intros [H _]; contradiction.
Qed.

(** X12.  [get_document_topics] on one document only reads the model, and
    what it returns is the normalised gamma of that document, filtered: the
    topic ids come in increasing order without repeats and are below the
    number of topics; a topic is in the list exactly when its share
    [gamma_k / sum(gamma)] is at least [minimum_probability], and it is
    listed with that share.  As numpy divides: when [sum(gamma)] is not zero
    the share is the quotient; when it is zero the share of a positive
    [gamma_k] is [inf], which is listed, and every other share is [-inf] or
    nan, which is not.  When gamma is strictly positive and
    [minimum_probability <= 0], every topic is listed.  For an argument that
    [utils.is_corpus] takes for a corpus the transformed corpus is returned
    instead. *)
Theorem get_document_topics_distribution (bow : doc) (minp : Qc) (w : World) :
  let o := get_document_topics bow minp w in
  heap (out_world o) = heap w /\ model (out_world o) = model w /\
  (is_corpus bow = true -> out_result o = Ok TransformedCorpus) /\
  forall l,
    out_result o = Ok (Topics l) ->
    exists r gamma0,
      out_result (inference (bow :: nil) false w) = Ok r /\
      fst r !! O = Some gamma0 /\
      sublist (map fst l) (seq 0 (length gamma0)) /\
      (forall k v,
         In (k, v) l
         <-> exists g, gamma0 !! k = Some g /\
                       v = np_quot g (py_sum gamma0) /\
                       np_ge v minp = true) /\
      (py_sum gamma0 <> 0 ->
       forall k v,
         In (k, v) l
         <-> exists g, gamma0 !! k = Some g /\
                       v = Finite (g / py_sum gamma0) /\
                       minp <= g / py_sum gamma0) /\
      (py_sum gamma0 = 0 ->
       forall k v,
         In (k, v) l
         <-> exists g, gamma0 !! k = Some g /\ 0 < g /\ v = PosInf) /\
      (Forall (fun g => 0 < g) gamma0 -> minp <= 0 ->
       map fst l = seq 0 (length gamma0)).
Proof.
  intros o.
  destruct (read_only_get_document_topics bow minp w) as (Hh & Hm & _).
  split; [exact Hh|]. split; [exact Hm|]. split.
  { intros Hc. unfold o, get_document_topics. by rewrite Hc. }
  intros l. unfold o, get_document_topics.
  destruct (is_corpus bow); [discriminate|].
  rewrite bind_run.
  destruct (out_result (inference (bow :: nil) false w)) as [r|e] eqn:Hr;
    rewrite out_result_mk; [|discriminate].
  rewrite bind_lift_run. unfold np_lookup.
  destruct (fst r !! O) as [gamma0|] eqn:Hg; [|discriminate].
  unfold ret. rewrite out_result_mk. intros Hl. inversion Hl as [Hl']. clear Hl.
  exists r, gamma0. split; [reflexivity|]. split; [exact Hg|].
  set (s := py_sum gamma0).
  set (dist := map (fun x => np_quot x s) gamma0).
  set (f := fun p : nat * np_float => np_ge (snd p) minp).
  assert (Hlen : length dist = length gamma0) by apply length_map.
  assert (Hin : forall k v,
            In (k, v) (List.filter f (enumerate dist))
            <-> exists g, gamma0 !! k = Some g /\ v = np_quot g s /\
                          np_ge v minp = true).
  { intros k v. rewrite filter_In. unfold enumerate.
    rewrite enumerate_from_In, Nat.sub_0_r. unfold dist.
    rewrite list_lookup_fmap. unfold f. cbn [snd]. split.
    + intros [[_ Hk] Hv]. destruct (gamma0 !! k) as [g|]; [|discriminate].
      cbn in Hk. injection Hk as Hv'. subst v. exists g.
      split; [reflexivity|]. split; [reflexivity | exact Hv].
    + intros (g & Hk & Hv & Hle). rewrite Hk. cbn. subst v.
      split; [split; [lia | reflexivity] | exact Hle]. }
  split; [|split; [|split; [|split]]].
  - unfold enumerate. rewrite <- Hlen. apply filter_enumerate_sublist.
  - exact Hin.
  - intros Hs k v. rewrite Hin. split.
    + intros (g & Hk & Hv & Hge). exists g. split; [exact Hk|].
      rewrite np_quot_finite in Hv by exact Hs. subst v. cbn in Hge.
      apply bool_decide_eq_true in Hge. by split.
    + intros (g & Hk & Hv & Hge). exists g. split; [exact Hk|].
      rewrite np_quot_finite by exact Hs. subst v. split; [reflexivity|].
      cbn. by apply bool_decide_eq_true.
  - intros Hs k v. rewrite Hin. rewrite Hs. split.
    + intros (g & Hk & Hv & Hge). exists g. split; [exact Hk|].
      subst v. apply np_quot_zero in Hge. destruct Hge as [Hpos Hq].
      by split.
    + intros (g & Hk & Hpos & Hv). exists g. split; [exact Hk|].
      assert (Hq : np_ge (np_quot g 0) minp = true /\ np_quot g 0 = PosInf).
      { assert (H := proj2 (np_quot_zero g minp)).
        assert (Hq : np_quot g 0 = PosInf).
        { unfold np_quot. rewrite bool_decide_eq_true_2 by reflexivity.
          assert (Hb : Qcltb 0 g = true) by (by apply Qcltb_spec).
          by rewrite Hb. }
        split; [apply H; by split | exact Hq]. }
      destruct Hq as [Hge Hq]. subst v. by split.
  - intros Hpos Hminp.
    assert (Hcase : gamma0 = nil \/ gamma0 <> nil)
      by (destruct gamma0; [by left | by right]).
    destruct Hcase as [Hnil | Hne].
    { unfold dist. rewrite Hnil. reflexivity. }
    assert (Hs : 0 < s).
    { unfold s. rewrite py_sum_vec_sum. by apply vec_sum_pos. }
    assert (Hall : List.filter f (enumerate dist) = enumerate dist).
    { apply filter_all. apply Forall_forall. intros [k v] Hkv.
      unfold enumerate in Hkv. apply enumerate_from_In in Hkv.
      destruct Hkv as [_ Hk]. rewrite Nat.sub_0_r in Hk. unfold dist in Hk.
      rewrite list_lookup_fmap in Hk.
      destruct (gamma0 !! k) as [g|] eqn:Hgk; [|discriminate].
      cbn in Hk. injection Hk as Hv'. subst v. unfold f. cbn [snd].
      rewrite np_quot_finite.
      2:{ intros Hz. rewrite Hz in Hs. by apply Qclt_not_eq in Hs. }
      cbn. apply bool_decide_eq_true. apply Qcle_trans with 0; [exact Hminp|].
      apply Qcdiv_nonneg; [|exact Hs]. apply Qclt_le_weak.
      rewrite Forall_forall in Hpos. apply Hpos, list_elem_of_In.
      eapply list_elem_of_lookup_2; eauto. }
    rewrite Hall. unfold enumerate.
    rewrite enumerate_from_fst, Hlen. reflexivity.
Qed.

(** ** The constructor *)

Lemma bind_draw_gamma_run {B : Type} (n k : nat) (f : matrix -> M B)
    (w : World) :
  bind (draw_gamma n k) f w
  = f (fst (random_gamma (rng w) n k))
      (mkWorld (heap w) (model w) (snd (random_gamma (rng w) n k))).
Proof.
  unfold bind, draw_gamma.
  by destruct (f _ _) as [[r w'] t].
Qed.

Lemma init_alpha_length (K : nat) (a : alpha_arg) (v : vec) :
  init_alpha K a = Ok v -> length v = K.
Proof.
  destruct a as [| | | |u|x]; cbn [init_alpha].
  - destruct (py_div 1 (Z2Qc (Z.of_nat K))); cbn [rbind]; intros H;
      inversion H. apply length_replicate.
  - destruct (py_div 1 (Z2Qc (Z.of_nat K))); cbn [rbind]; intros H;
      inversion H. apply length_replicate.
  - intros H. inversion H. rewrite !length_map. apply length_seq.
  - intros H. inversion H. apply length_replicate.
  - destruct (Nat.eqb_spec (length u) K) as [Hl|Hl]; cbn [negb]; intros H;
      inversion H. by subst.
  - intros H. inversion H. apply length_replicate.
Qed.

(** The run of the constructor up to the training on [corpus]: the world
    that [sync_state] leaves. *)
Lemma LdaModel_init_run (a : init_args) (w : World) :
  forall u, out_result (LdaModel_init a w) = Ok u ->
  exists W cfg al e h sst g,
    init_num_terms (i_corpus a) (i_id2word a) = Ok W /\ (0 < W)%nat /\
    init_algorithm (i_algorithm a) (i_update_every a) (i_eval_every a)
                   (i_chunksize a) (i_passes a) (i_max_bound_iterations a)
    = Ok cfg /\
    init_alpha (i_num_topics a) (i_alpha a) = Ok al /\
    sst = fst (random_gamma (rng w) (i_num_topics a) W) /\
    let m0 := mkModel W (i_num_topics a) (ic_chunksize cfg) (i_decay a)
                (i_offset a) 0 (ic_passes cfg) (ic_update_every cfg)
                (Some (ic_eval_every cfg)) (ic_max_bound_iterations cfg)
                (i_bound_improvement_threshold a) (is_alpha_auto (i_alpha a))
                al (is_eta_auto (i_eta a)) e (i_iterations a)
                (i_gamma_threshold a) 1 (mkState e sst 0) nil in
    let m1 := set_expElogbeta
                (map (map exp) (get_Elogbeta h (mkState e sst 0))) m0 in
    LdaModel_init a w
    = match i_corpus a with
      | Some corpus => update corpus no_args (mkWorld h m1 g)
      | None => (Ok tt, mkWorld h m1 g, nil)
      end.
Proof.
  intros u Hok. unfold LdaModel_init in Hok |- *.
  rewrite bind_lift_run in Hok |- *.
  destruct (init_num_terms (i_corpus a) (i_id2word a)) as [W|e0] eqn:HW;
    [|discriminate Hok].
  destruct (Nat.eqb_spec W 0) as [H0|H0];
    [rewrite bind_raise_run in Hok; discriminate Hok|].
  rewrite bind_ret_run in Hok |- *.
  rewrite bind_lift_run in Hok |- *.
  destruct (init_algorithm (i_algorithm a) (i_update_every a) (i_eval_every a)
              (i_chunksize a) (i_passes a) (i_max_bound_iterations a))
    as [cfg|e0] eqn:Hcfg; [|discriminate Hok].
  rewrite bind_lift_run in Hok |- *.
  destruct (init_alpha (i_num_topics a) (i_alpha a)) as [al|e0] eqn:Hal;
    [|discriminate Hok].
  assert (Heta : exists e h,
            forall B (k : eta_val -> M B),
              bind (init_eta (i_num_topics a) (i_eta a)) k w
              = k e (mkWorld h (model w) (rng w))).
  { destruct (i_eta a) as [| |v] eqn:He; cbn [init_eta] in Hok |- *.
    - rewrite bind_assoc_run, bind_lift_run in Hok.
      destruct (py_div 1 (Z2Qc (Z.of_nat (i_num_topics a)))) as [x|e0] eqn:Hx;
        [|discriminate Hok].
      exists (EtaFloat x), (heap w). intros B k.
      rewrite bind_assoc_run, bind_lift_run, bind_ret_run. by destruct w.
    - eexists (EtaArray (new_loc (heap w))), _. intros B k.
      rewrite bind_assoc_run, bind_gets_run, bind_assoc_run, bind_modify_run,
        bind_ret_run. reflexivity.
    - exists v, (heap w). intros B k. rewrite bind_ret_run. by destruct w. }
  destruct Heta as (e & h & Heta).
  rewrite Heta. rewrite bind_draw_gamma_run. cbn [rng heap model].
  unfold modify_model at 1. rewrite bind_modify_run. cbn [rng heap model].
  unfold sync_state. rewrite bind_assoc_run, bind_gets_run.
  unfold modify_model at 1. rewrite bind_modify_run.
  cbn [rng heap model id state].
  exists W, cfg, al, e, h, (fst (random_gamma (rng w) (i_num_topics a) W)),
    (snd (random_gamma (rng w) (i_num_topics a) W)).
  split; [reflexivity|]. split; [lia|]. split; [reflexivity|].
  split; [reflexivity|]. split; [reflexivity|].
  cbv zeta. by destruct (i_corpus a).
Qed.

(** X13.  What the constructor establishes when it is given no corpus and
    returns: a vocabulary that is not empty, [alpha] of length [num_topics],
    the counters [num_updates] and [state.numdocs] at [0], a state that
    shares the model's [eta], [eval_every] set (a [None] has become [10], so
    the constructor cannot switch the evaluation off), statistics drawn from
    the generator in the shape [num_topics x num_terms], and the cache in
    sync: [expElogbeta = exp(dirichlet_expectation(eta + sstats))]. *)
Theorem init_establishes_model (a : init_args) (w : World) :
  i_corpus a = None ->
  out_result (LdaModel_init a w) = Ok tt ->
  let w' := out_world (LdaModel_init a w) in
  let m := model w' in
  (0 < num_terms m)%nat /\ num_topics m = i_num_topics a /\
  length (alpha m) = num_topics m /\
  num_updates m = 0%Z /\ numdocs (state m) = 0%Z /\
  eta (state m) = model_eta m /\
  eval_every m <> None /\
  (draws_shape -> mat_shape (num_topics m) (num_terms m) (sstats (state m))) /\
  expElogbeta m = map (map exp) (get_Elogbeta (heap w') (state m)).
Proof.
  intros Hc Hok.
  destruct (LdaModel_init_run a w tt Hok)
    as (W & cfg & al & e & h & sst & g & HW & HWpos & Hcfg & Hal & Hsst & Hrun).
  cbv zeta in Hrun. rewrite Hc in Hrun. rewrite Hrun.
  cbv zeta. cbn [out_world fst snd model heap].
  cbn [num_terms num_topics alpha num_updates state numdocs eta model_eta
       eval_every sstats expElogbeta set_expElogbeta].
  split; [exact HWpos|]. split; [reflexivity|].
  split; [by apply (init_alpha_length _ (i_alpha a))|].
  split; [reflexivity|]. split; [reflexivity|]. split; [reflexivity|].
  split; [discriminate|]. split; [|reflexivity].
  intros HD. rewrite Hsst. apply HD.
Qed.

Lemma init_algorithm_online (ue ee cs : option Z) (ps : Z) (mbi : option Z)
    (cfg : init_cfg) :
  init_algorithm (Some "online"%string) ue ee cs ps mbi = Ok cfg ->
  (0 < ic_update_every cfg)%Z /\ ic_max_bound_iterations cfg = 1%Z.
Proof.
  unfold init_algorithm. cbn [String.eqb Ascii.eqb Bool.eqb]. unfold init_online.
  destruct ue as [u|]; [destruct (Z.leb_spec u 0) as [Hu|Hu]|]; cbn [rbind];
    try discriminate;
    (destruct mbi as [m|]; [destruct (Z.eqb_spec m 1) as [Hm|Hm]|];
     cbn [rbind negb]; try discriminate;
     intros Heq; inversion Heq; cbn; split; lia).
Qed.

Lemma init_algorithm_batch (ue ee cs : option Z) (ps : Z) (mbi : option Z)
    (cfg : init_cfg) :
  init_algorithm (Some "batch"%string) ue ee cs ps mbi = Ok cfg ->
  ic_update_every cfg = 0%Z /\ (1 < ic_max_bound_iterations cfg)%Z /\
  (ic_passes cfg <= 1)%Z /\ (maxint <= ic_chunksize cfg)%Z /\
  ic_eval_every cfg <> 0%Z.
Proof.
  unfold init_algorithm. cbn [String.eqb Ascii.eqb Bool.eqb]. unfold init_batch.
  destruct ue as [u|]; [destruct (Z.eqb_spec u 0) as [Hu|Hu]|];
    cbn [rbind negb]; try discriminate;
    (destruct ee as [e|]; [destruct (Z.eqb_spec e 0) as [He|He]|];
     cbn [rbind]; try discriminate;
     (destruct cs as [c|]; [destruct (Z.ltb_spec c maxint) as [Hc|Hc]|];
      cbn [rbind]; try discriminate;
      (destruct (Z.ltb_spec 1 ps) as [Hp|Hp]; cbn [rbind]; try discriminate;
       (destruct mbi as [m|]; [destruct (Z.leb_spec m 1) as [Hm|Hm]|];
        cbn [rbind]; try discriminate; intros Heq; inversion Heq; cbn;
        repeat split; lia)))).
Qed.

(** X14.  The presets of the constructor and the checks of [update].  A
    model built with [algorithm='online'] (and no corpus) has
    [update_every > 0] and [max_bound_iterations = 1], and [update] with no
    overriding argument never rejects its configuration.  A model built with
    [algorithm='batch'] has [update_every = 0], [max_bound_iterations > 1],
    at most one pass, a chunk size of at least [sys.maxint] and
    [eval_every] other than [0]; [update] rejects its configuration exactly
    when [eval_every] is negative, which the constructor lets through. *)
Theorem init_algorithm_presets (a : init_args) (w : World) :
  i_corpus a = None ->
  out_result (LdaModel_init a w) = Ok tt ->
  let m := model (out_world (LdaModel_init a w)) in
  (i_algorithm a = Some "online"%string ->
   (0 < update_every m)%Z /\ max_bound_iterations m = 1%Z /\
   forall corpus, ~ rejected (update_cfg m corpus no_args)) /\
  (i_algorithm a = Some "batch"%string ->
   update_every m = 0%Z /\ (1 < max_bound_iterations m)%Z /\
   (passes m <= 1)%Z /\ (maxint <= chunksize m)%Z /\
   eval_every m <> Some 0%Z /\
   forall corpus,
     rejected (update_cfg m corpus no_args)
     <-> exists e, eval_every m = Some e /\ (e < 0)%Z).
Proof.
  intros Hc Hok.
  destruct (LdaModel_init_run a w tt Hok)
    as (W & cfg & al & e & h & sst & g & HW & HWpos & Hcfg & Hal & Hsst & Hrun).
  cbv zeta in Hrun. rewrite Hc in Hrun. rewrite Hrun.
  cbv zeta. cbn [out_world fst snd model].
  cbn [update_every max_bound_iterations passes chunksize eval_every
       set_expElogbeta].
  split.
  - intros Halg. rewrite Halg in Hcfg.
    destruct (init_algorithm_online _ _ _ _ _ _ Hcfg) as [Hue Hmbi].
    split; [exact Hue|]. split; [exact Hmbi|].
    intros corpus. unfold rejected, update_cfg, no_args.
    cbn [c_max_bound_iterations c_update_every c_eval_every
         arg_max_bound_iterations arg_update_every arg_eval_every default
         update_every max_bound_iterations eval_every set_expElogbeta].
    intros [Hr | [[Hr _] | [Hr _]]]; lia.
  - intros Halg. rewrite Halg in Hcfg.
    destruct (init_algorithm_batch _ _ _ _ _ _ Hcfg)
      as (Hue & Hmbi & Hps & Hcs & Hee).
    split; [exact Hue|]. split; [exact Hmbi|]. split; [exact Hps|].
    split; [exact Hcs|]. split; [intros H; inversion H; contradiction|].
    intros corpus. unfold rejected, update_cfg, no_args, or0.
    cbn [c_max_bound_iterations c_update_every c_eval_every
         arg_max_bound_iterations arg_update_every arg_eval_every default
         update_every max_bound_iterations eval_every set_expElogbeta].
    unfold id. split.
    + intros [Hr | [[_ Hr] | [_ Hr]]]; [lia | lia |].
      exists (ic_eval_every cfg). split; [reflexivity | lia].
    + intros (e' & He' & Hneg). inversion He'; subst e'.
      right. right. split; [exact Hmbi | lia].
Qed.

(** X15.  The inputs the constructor refuses, and one it trips over.  It
    raises [ValueError] when neither a corpus nor [id2word] is given, when
    [id2word] is empty, and when [algorithm] is a name other than ['batch']
    and ['online']; it raises [RuntimeError] when an [alpha] array has not
    [num_topics] entries; and with [num_topics = 0] and the default
    (symmetric) [alpha] it raises [ZeroDivisionError], from the value
    [1.0 / num_topics] that it logs.  None of these creates a model: the
    world is as before. *)
Theorem init_input_errors (a : init_args) (w : World) :
  let o := LdaModel_init a w in
  (i_id2word a = None -> i_corpus a = None ->
   value_error (out_result o) /\ out_world o = w) /\
  (i_id2word a = Some nil -> value_error (out_result o) /\ out_world o = w) /\
  (forall W,
     init_num_terms (i_corpus a) (i_id2word a) = Ok W -> (0 < W)%nat ->
     (forall name,
        i_algorithm a = Some name ->
        name <> "batch"%string -> name <> "online"%string ->
        value_error (out_result o) /\ out_world o = w) /\
     (forall cfg,
        init_algorithm (i_algorithm a) (i_update_every a) (i_eval_every a)
                       (i_chunksize a) (i_passes a)
                       (i_max_bound_iterations a) = Ok cfg ->
        (forall v, i_alpha a = AlphaArray v -> length v <> i_num_topics a ->
           out_result o
           = Raise (RuntimeError "invalid alpha shape (must match num_topics)")
           /\ out_world o = w) /\
        (i_num_topics a = O ->
         i_alpha a = AlphaNone \/ i_alpha a = AlphaSymmetric ->
         out_result o = Raise ZeroDivisionError /\ out_world o = w))).
Proof.
  intros o. split; [|split].
  - intros Hid Hc. unfold o, LdaModel_init, init_num_terms.
    rewrite Hid, Hc, bind_lift_run. split; [eexists; reflexivity | reflexivity].
  - intros Hid. unfold o, LdaModel_init, init_num_terms.
    rewrite Hid, bind_lift_run. cbn [length Nat.ltb Nat.leb Nat.eqb].
    rewrite bind_raise_run. split; [eexists; reflexivity | reflexivity].
  - intros W HW HWpos.
    assert (HW0 : (W =? 0)%nat = false) by (apply Nat.eqb_neq; lia).
    split.
    + intros name Halg Hb Ho. unfold o, LdaModel_init.
      rewrite bind_lift_run, HW, HW0, bind_ret_run, bind_lift_run.
      unfold init_algorithm. rewrite Halg.
      apply String.eqb_neq in Hb. apply String.eqb_neq in Ho.
      rewrite Hb, Ho. cbn [rbind].
      split; [eexists; reflexivity | reflexivity].
    + intros cfg Hcfg. split.
      * intros v Ha Hlen. unfold o, LdaModel_init.
        rewrite bind_lift_run, HW, HW0, bind_ret_run, bind_lift_run, Hcfg,
          bind_lift_run.
        unfold init_alpha. rewrite Ha.
        apply Nat.eqb_neq in Hlen. rewrite Hlen. cbn [negb].
        split; reflexivity.
      * intros HK Ha. unfold o, LdaModel_init.
        rewrite bind_lift_run, HW, HW0, bind_ret_run, bind_lift_run, Hcfg,
          bind_lift_run.
        assert (Hal : init_alpha (i_num_topics a) (i_alpha a)
                      = Raise ZeroDivisionError).
        { rewrite HK. unfold init_alpha, py_div.
          rewrite bool_decide_eq_true_2 by (by apply Z2Qc_eq0).
          by destruct Ha as [-> | ->]. }
        rewrite Hal. split; reflexivity.
Qed.

(** ** The statistics that the E-step collects are non-negative *)

Section Statistics.

Hypothesis exp_is_positive : forall x, 0 < exp x.

Lemma rmapM_Forall {A B : Type} (f : A -> result B) (P : B -> Prop)
    (l : list A) :
  Forall (fun x => forall y, f x = Ok y -> P y) l ->
  forall ys, rmapM f l = Ok ys -> Forall P ys.
Proof using Type.
  induction 1 as [|x l Hx _ IH]; cbn [rmapM]; intros ys H.
  - inversion H. constructor.
  - apply rbind_ok in H as [y [Hy H]]. apply rbind_ok in H as [zs [Hz H]].
    inversion H; subst. constructor; [by apply Hx | by apply IH].
Qed.

Lemma select_cols_nonneg (beta B : matrix) (ids : list nat) :
  mat_nonneg beta -> select_cols beta ids = Ok B ->
  length B = length beta /\ mat_nonneg B.
Proof using Type.
  intros Hnn HB. split; [by apply rmapM_length in HB|].
  unfold select_cols in HB.
  apply (rmapM_Forall (fun row => rmapM (np_lookup row) ids)
           (Forall (fun x => 0 <= x)) beta); [|exact HB].
  eapply Forall_impl; [|exact Hnn]. intros row Hrow ys Hys.
  cbv beta in Hrow.
  apply (rmapM_Forall (np_lookup row) (fun x => 0 <= x) ids); [|exact Hys].
  apply Forall_forall. intros i _ y Hy. unfold np_lookup in Hy.
  destruct (row !! i) as [x|] eqn:Hx; inversion Hy; subst.
  rewrite Forall_forall in Hrow. apply Hrow, list_elem_of_In.
  eapply list_elem_of_lookup_2; eauto.
Qed.

Lemma np_div_nonneg (u v r : vec) :
  Forall (fun x => 0 <= x) u -> Forall (fun x => 0 < x) v ->
  np_div u v = Ok r -> Forall (fun x => 0 <= x) r.
Proof using Type.
  intros Hu Hv Hr. unfold np_div in Hr.
  apply (rmapM_Forall (fun p => py_div (fst p) (snd p)) (fun x => 0 <= x)
           (zip u v)); [|exact Hr].
  apply Forall_forall. intros [x y] Hin q Hq. cbn [fst snd] in Hq.
  apply list_elem_of_In in Hin.
  pose proof (elem_of_zip_l _ _ _ _ Hin) as Hx.
  pose proof (elem_of_zip_r _ _ _ _ Hin) as Hy.
  rewrite Forall_forall in Hu. rewrite Forall_forall in Hv.
  apply list_elem_of_In, Hu in Hx. apply list_elem_of_In, Hv in Hy.
  unfold py_div in Hq. destruct (bool_decide (y = 0)); inversion Hq.
  by apply Qcdiv_nonneg.
Qed.

(** The variables of the per-document loop that the statistics are built
    from: [K] non-negative weights and positive normalizers. *)
Lemma gamma_iter_keeps (K : nat) (a cts : vec) (B : matrix) (v v' : doc_vars)
    (mc : np_float) :
  length a = K -> length B = K -> mat_nonneg B ->
  length (expElogthetad v) = K ->
  gamma_iter a cts B v = Ok (v', mc) ->
  length (expElogthetad v') = K /\
  Forall (fun x => 0 <= x) (expElogthetad v') /\
  Forall (fun x => 0 < x) (phinorm v').
Proof using exp_is_positive.
  intros Ha HB Hnn HX H.
  destruct (gamma_iter_spec a cts B v v' mc H)
    as (ratio & _ & Hg & HE & HX' & Hp & _).
  assert (Hnn' : Forall (fun x => 0 <= x) (expElogthetad v')).
  { rewrite HX'. by apply map_exp_nonneg. }
  split; [|split; [exact Hnn'|]].
  - rewrite HX', HE, Hg. unfold dirichlet_expectation, vec_add, vec_mul, dot_mv.
    rewrite !length_map, !length_zip_with, length_map. lia.
  - rewrite Hp. by apply phinorm_of_pos.
Qed.

Lemma gamma_loop_keeps (K n : nat) (a cts : vec) (thr : Qc) (B : matrix) :
  length a = K -> length B = K -> mat_nonneg B ->
  forall v v' conv,
    length (expElogthetad v) = K ->
    Forall (fun x => 0 <= x) (expElogthetad v) ->
    Forall (fun x => 0 < x) (phinorm v) ->
    gamma_loop n a cts thr B v = Ok (v', conv) ->
    length (expElogthetad v') = K /\
    Forall (fun x => 0 <= x) (expElogthetad v') /\
    Forall (fun x => 0 < x) (phinorm v').
Proof using exp_is_positive.
  intros Ha HB Hnn. induction n as [|n IH]; intros v v' conv HX HXn Hp H;
    cbn [gamma_loop] in H.
  - inversion H; subst. by repeat split.
  - apply rbind_ok in H as [[v1 mc] [H1 H]]. cbn [fst snd] in H.
    destruct (gamma_iter_keeps K a cts B v v1 mc Ha HB Hnn HX H1)
      as (HX1 & HXn1 & Hp1).
    destruct (np_lt mc thr).
    + inversion H; subst. by repeat split.
    + by apply (IH v1 v' conv).
Qed.

Lemma estep_doc_keeps (K W : nat) (a : vec) (iters : Z) (thr : Qc)
    (beta : matrix) (dc : doc) (g0 E0 X0 : vec) (v : doc_vars) (conv : bool) :
  length a = K -> mat_shape K W beta -> mat_nonneg beta ->
  length X0 = K -> Forall (fun x => 0 <= x) X0 ->
  estep_doc a iters thr beta dc g0 E0 X0 = Ok (v, conv) ->
  length (expElogthetad v) = K /\
  Forall (fun x => 0 <= x) (expElogthetad v) /\
  Forall (fun x => 0 < x) (phinorm v).
Proof using exp_is_positive.
  intros Ha [HK HW] Hnn HX HXn H. unfold estep_doc in H.
  apply rbind_ok in H as [B [HB H]].
  destruct (select_cols_nonneg beta B (map fst dc) Hnn HB) as [HlB HnB].
  apply (gamma_loop_keeps K (Z.to_nat iters) a (map snd dc) thr B Ha
           ltac:(lia) HnB _ v conv) in H; [exact H | exact HX | exact HXn|].
  cbn [phinorm]. by apply phinorm_of_pos.
Qed.

Lemma foldl_insert_keeps (P : Qc -> Prop) (tmp : list (nat * Qc)) :
  Forall (fun p => P (snd p)) tmp ->
  forall r : vec,
    Forall P r ->
    Forall P (foldl (fun r p => <[fst p := snd p]> r) r tmp) /\
    length (foldl (fun r p => <[fst p := snd p]> r) r tmp) = length r.
Proof using Type.
  induction 1 as [|p tmp Hp _ IH]; intros r Hr; cbn [foldl].
  - by split.
  - destruct (IH (<[fst p := snd p]> r)) as [H1 H2].
    + by apply Forall_insert.
    + split; [exact H1|]. rewrite H2. apply length_insert.
Qed.

Lemma scatter_add_keeps (row : vec) (ids : list nat) (vals : vec) :
  Forall (fun x => 0 <= x) row -> Forall (fun x => 0 <= x) vals ->
  Forall (fun x => 0 <= x) (scatter_add row ids vals) /\
  length (scatter_add row ids vals) = length row.
Proof using Type.
  intros Hrow Hvals. unfold scatter_add.
  apply foldl_insert_keeps; [|exact Hrow].
  apply Forall_forall. intros [i x] Hin. cbn [snd].
  apply list_elem_of_In in Hin. apply elem_of_lookup_zip_with in Hin.
  destruct Hin as (j & i' & y & Heq & _ & Hy). inversion Heq; subst.
  apply Qcplus_nonneg_nonneg.
  - destruct (row !! i') as [z|] eqn:Hz; cbn; [|apply Qcle_refl].
    rewrite Forall_forall in Hrow. apply Hrow, list_elem_of_In.
    eapply list_elem_of_lookup_2; eauto.
  - rewrite Forall_forall in Hvals. apply Hvals, list_elem_of_In.
    eapply list_elem_of_lookup_2; eauto.
Qed.

Lemma collect_doc_keeps (K W : nat) (sst sst' : matrix) (dc : doc)
    (v : doc_vars) :
  mat_shape K W sst -> mat_nonneg sst ->
  Forall (fun p => 0 <= snd p) dc ->
  length (expElogthetad v) = K ->
  Forall (fun x => 0 <= x) (expElogthetad v) ->
  Forall (fun x => 0 < x) (phinorm v) ->
  collect_doc sst dc v = Ok sst' ->
  mat_shape K W sst' /\ mat_nonneg sst'.
Proof using Type.
  intros [HK HW] Hnn Hcts HX HXn Hp H. unfold collect_doc in H.
  apply rbind_ok in H as [ratio [Hr H]]. inversion H; subst sst'; clear H.
  assert (Hratio : Forall (fun x => 0 <= x) ratio).
  { apply (np_div_nonneg (map snd dc) (phinorm v)); [|exact Hp | exact Hr].
    apply Forall_fmap. exact Hcts. }
  assert (Hrows : forall i row add,
            sst !! i = Some row -> outer (expElogthetad v) ratio !! i = Some add ->
            Forall (fun x => 0 <= x) (scatter_add row (map fst dc) add) /\
            length (scatter_add row (map fst dc) add) = W).
  { intros i row add Hrow Hadd.
    assert (Hr1 : Forall (fun x => 0 <= x) row).
    { unfold mat_nonneg in Hnn. rewrite Forall_forall in Hnn.
      apply Hnn, list_elem_of_In. eapply list_elem_of_lookup_2; eauto. }
    assert (Hr2 : length row = W).
    { rewrite Forall_forall in HW.
      apply HW, list_elem_of_In. eapply list_elem_of_lookup_2; eauto. }
    assert (Ha : Forall (fun x => 0 <= x) add).
    { unfold outer in Hadd. rewrite list_lookup_fmap in Hadd.
      destruct (expElogthetad v !! i) as [x|] eqn:Hx; [|discriminate].
      cbn in Hadd. inversion Hadd; subst.
      apply vec_scale_nonneg; [|exact Hratio].
      rewrite Forall_forall in HXn. apply HXn, list_elem_of_In.
      eapply list_elem_of_lookup_2; eauto. }
    destruct (scatter_add_keeps row (map fst dc) add Hr1 Ha) as [H1 H2].
    split; [exact H1 | by rewrite H2]. }
  split; [split|].
  - rewrite length_zip_with. unfold outer. rewrite length_map. lia.
  - apply Forall_forall. intros r Hin. apply list_elem_of_In in Hin.
    apply elem_of_lookup_zip_with in Hin.
    destruct Hin as (i & row & add & -> & Hrow & Hadd).
    apply (Hrows i row add Hrow Hadd).
  - apply Forall_forall. intros r Hin. apply list_elem_of_In in Hin.
    apply elem_of_lookup_zip_with in Hin.
    destruct Hin as (i & row & add & -> & Hrow & Hadd).
    apply (Hrows i row add Hrow Hadd).
Qed.

Lemma infer_docs_keeps (K W : nat) (collect : bool)
    (Elogtheta expElogtheta : matrix) (w : World) :
  length (alpha (model w)) = K ->
  mat_shape K W (expElogbeta (model w)) ->
  mat_nonneg (expElogbeta (model w)) ->
  Forall (fun X => length X = K /\ Forall (fun x => 0 <= x) X) expElogtheta ->
  forall chunk,
    Forall (Forall (fun p => 0 <= snd p)) chunk ->
    forall d gamma sst converged r,
      (forall s, sst = Some s -> mat_shape K W s /\ mat_nonneg s) ->
      out_result (infer_docs collect Elogtheta expElogtheta d chunk gamma sst
                             converged w) = Ok r ->
      forall s', snd (fst r) = Some s' -> mat_shape K W s' /\ mat_nonneg s'.
Proof using exp_is_positive.
  intros Ha Hb Hnn HX chunk Hchunk.
  induction Hchunk as [|dc rest Hdc _ IH]; intros d gamma sst converged r Hs;
    cbn [infer_docs].
  - intros H s' Hs'. inversion H; subst r. by apply Hs.
  - rewrite bind_lift_run.
    destruct (np_lookup gamma d) as [g0|e]; [|discriminate].
    rewrite bind_lift_run.
    destruct (np_lookup Elogtheta d) as [E0|e]; [|discriminate].
    rewrite bind_lift_run.
    destruct (np_lookup expElogtheta d) as [X0|e] eqn:HX0; [|discriminate].
    rewrite !bind_gets_run, bind_lift_run.
    destruct (estep_doc (alpha (model w)) (iterations (model w))
                (gamma_threshold (model w)) (expElogbeta (model w)) dc g0 E0 X0)
      as [vb|e] eqn:He; [|discriminate].
    assert (HX0' : length X0 = K /\ Forall (fun x => 0 <= x) X0).
    { unfold np_lookup in HX0.
      destruct (expElogtheta !! d) as [X|] eqn:Hd; inversion HX0; subst.
      rewrite Forall_forall in HX. apply HX, list_elem_of_In.
      eapply list_elem_of_lookup_2; eauto. }
    destruct HX0' as [HX0l HX0n]. destruct vb as [v conv].
    destruct (estep_doc_keeps K W _ _ _ _ dc g0 E0 X0 v conv Ha Hb Hnn
                HX0l HX0n He) as (Hv1 & Hv2 & Hv3).
    cbn [fst snd].
    destruct sst as [s|].
    + rewrite bind_assoc_run, bind_lift_run.
      destruct (collect_doc s dc v) as [s1|e] eqn:Hc; [|discriminate].
      rewrite bind_ret_run. apply IH.
      intros s0 Hs0. inversion Hs0; subst s0.
      destruct (Hs s eq_refl) as [Hs1 Hs2].
      by apply (collect_doc_keeps K W s s1 dc v).
    + rewrite bind_ret_run. apply IH. intros s0 Hs0. discriminate.
Qed.

Lemma mat_mul_keeps (K W : nat) (A B : matrix) :
  mat_shape K W A -> mat_shape K W B -> mat_nonneg A -> mat_nonneg B ->
  mat_shape K W (mat_mul A B) /\ mat_nonneg (mat_mul A B).
Proof using Type.
  intros [HA1 HA2] [HB1 HB2] HAn HBn. unfold mat_mul.
  assert (H : forall r, In r (zip_with vec_mul A B) ->
            length r = W /\ Forall (fun x => 0 <= x) r).
  { intros r Hin. apply list_elem_of_In, elem_of_lookup_zip_with in Hin.
    destruct Hin as (i & u & v & -> & Hu & Hv).
    apply list_elem_of_lookup_2, list_elem_of_In in Hu.
    apply list_elem_of_lookup_2, list_elem_of_In in Hv.
    rewrite Forall_forall in HA2. rewrite Forall_forall in HB2.
    unfold mat_nonneg in HAn, HBn.
    rewrite Forall_forall in HAn. rewrite Forall_forall in HBn.
    split.
    - unfold vec_mul. rewrite length_zip_with, (HA2 u Hu), (HB2 v Hv). lia.
    - apply Forall_forall. intros x Hx.
      apply list_elem_of_In, elem_of_lookup_zip_with in Hx.
      destruct Hx as (j & p & q & -> & Hp & Hq).
      apply list_elem_of_lookup_2, list_elem_of_In in Hp.
      apply list_elem_of_lookup_2, list_elem_of_In in Hq.
      specialize (HAn u Hu). specialize (HBn v Hv).
      rewrite Forall_forall in HAn. rewrite Forall_forall in HBn.
      apply Qcmult_nonneg_nonneg; [by apply HAn | by apply HBn]. }
  split; [split|].
  - rewrite length_zip_with. lia.
  - apply Forall_forall. intros r Hr. by apply H.
  - apply Forall_forall. intros r Hr. by apply H.
Qed.

Lemma zeros_like_keeps (K W : nat) (A : matrix) :
  mat_shape K W A -> mat_shape K W (zeros_like A) /\ mat_nonneg (zeros_like A).
Proof using Type.
  intros [HK HW]. unfold zeros_like. split; [split|].
  - by rewrite length_map.
  - apply Forall_fmap. eapply Forall_impl; [|exact HW].
    intros r Hr. cbn. by rewrite length_map.
  - apply Forall_fmap, Forall_forall. intros r _. cbn.
    apply Forall_fmap, Forall_forall. intros x _. apply Qcle_refl.
Qed.

(** X16.  The sufficient statistics stay non-negative and keep their shape
    through an E-step.  With [exp] positive, a cache [expElogbeta] of shape
    [K x W] without negative entries, [alpha] of length [K = num_topics] and
    documents without negative counts: when [do_estep] returns, the
    accumulator it was given, if of shape [K x W] and non-negative before,
    is so afterwards.  (The generator draws [K] numbers per document.) *)
Theorem do_estep_keeps_sstats_nonneg (K W : nat) (chunk : list doc)
    (st : LdaState) (w : World) (gamma : matrix) (st' : LdaState) :
  draws_shape ->
  num_topics (model w) = K -> length (alpha (model w)) = K ->
  mat_shape K W (expElogbeta (model w)) ->
  mat_nonneg (expElogbeta (model w)) ->
  Forall (Forall (fun p => 0 <= snd p)) chunk ->
  mat_shape K W (sstats st) -> mat_nonneg (sstats st) ->
  out_result (do_estep chunk st w) = Ok (gamma, st') ->
  mat_shape K W (sstats st') /\ mat_nonneg (sstats st').
Proof using exp_is_positive.
  intros HD HK Ha Hb Hnn Hchunk Hs Hsn.
  unfold do_estep. rewrite bind_run.
  destruct (out_result (inference chunk true w)) as [r|e] eqn:Hr;
    rewrite out_result_mk; [|discriminate].
  assert (Hsst : forall s, snd r = Some s -> mat_shape K W s /\ mat_nonneg s).
  { revert Hr. unfold inference.
    rewrite bind_gets_run, bind_draw_gamma_run, bind_gets_run, bind_run.
    cbn [model heap rng].
    set (g := fst (random_gamma (rng w) (length chunk) (num_topics (model w)))).
    set (w1 := mkWorld (heap w) (model w)
                 (snd (random_gamma (rng w) (length chunk)
                         (num_topics (model w))))).
    destruct (out_result
                (infer_docs true (dirichlet_expectation2 g)
                   (map (map exp) (dirichlet_expectation2 g)) 0 chunk g
                   (Some (zeros_like (expElogbeta (model w)))) 0 w1))
      as [r1|e] eqn:Hr1; rewrite out_result_mk; [|discriminate].
    assert (H1 : forall s', snd (fst r1) = Some s' ->
              mat_shape K W s' /\ mat_nonneg s').
    { apply (infer_docs_keeps K W true (dirichlet_expectation2 g)
               (map (map exp) (dirichlet_expectation2 g)) w1 Ha Hb Hnn)
        with (chunk := chunk) (d := O) (gamma := g)
             (sst := Some (zeros_like (expElogbeta (model w))))
             (converged := O); [|exact Hchunk| |exact Hr1].
      - apply Forall_fmap, Forall_fmap.
        destruct (HD (rng w) (length chunk) (num_topics (model w)))
          as [_ Hg]. fold g in Hg.
        eapply Forall_impl; [|exact Hg]. intros row Hrow. cbn.
        split; [|by apply map_exp_nonneg].
        unfold dirichlet_expectation. rewrite !length_map. congruence.
      - intros s Heq. inversion Heq; subst s. by apply zeros_like_keeps. }
    destruct (read_only_infer_docs true (dirichlet_expectation2 g)
                (map (map exp) (dirichlet_expectation2 g)) chunk O g
                (Some (zeros_like (expElogbeta (model w)))) O w1)
      as (_ & Hm1 & _).
    destruct (snd (fst r1)) as [s1|] eqn:Hs1.
    - rewrite bind_gets_run. unfold ret. rewrite out_result_mk, Hm1.
      intros Heq. inversion Heq; subst r. cbn [snd]. intros s Hs0.
      inversion Hs0; subst s. destruct (H1 s1 eq_refl) as [H2 H3].
      apply mat_mul_keeps; [exact H2 | exact Hb | exact H3 | exact Hnn].
    - unfold ret. rewrite out_result_mk. intros Heq. inversion Heq; subst r.
      cbn [snd]. discriminate. }
  destruct (snd r) as [s|] eqn:Hsr.
  - unfold ret. rewrite out_result_mk. intros Heq. inversion Heq; subst.
    cbn [sstats]. destruct (Hsst s eq_refl) as [H2 H3].
    split; [by apply mat_shape_add | by apply mat_add_nonneg].
  - unfold raise. rewrite out_result_mk. discriminate.
Qed.

End Statistics.

(** ** The gamma that [inference] returns *)

Lemma np_lookup_ok {A : Type} (l : list A) (i : nat) (x : A) :
  np_lookup l i = Ok x -> l !! i = Some x.
Proof.
  unfold np_lookup. destruct (l !! i); intros H; inversion H. reflexivity.
Qed.

(** [inference] is [infer_docs] on the rows drawn for the chunk. *)
Lemma inference_run (chunk : list doc) (collect : bool) (w : World) :
  let K := num_topics (model w) in
  let g := fst (random_gamma (rng w) (length chunk) K) in
  let w1 := mkWorld (heap w) (model w)
                    (snd (random_gamma (rng w) (length chunk) K)) in
  let Elt := dirichlet_expectation2 g in
  let sst := if collect then Some (zeros_like (expElogbeta (model w)))
             else None in
  out_result (inference chunk collect w)
  = match out_result (infer_docs collect Elt (map (map exp) Elt) O chunk g
                                 sst O w1) with
    | Ok r =>
        Ok (fst (fst r),
            match snd (fst r) with
            | Some s => Some (mat_mul s (expElogbeta (model w)))
            | None => None
            end)
    | Raise e => Raise e
    end.
Proof.
  intros K g w1 Elt sst. unfold inference.
  rewrite bind_gets_run, bind_draw_gamma_run, bind_gets_run, bind_run.
  cbn [model heap rng]. fold K g w1 Elt sst.
  destruct (read_only_infer_docs collect Elt (map (map exp) Elt) chunk O g
              sst O w1) as (_ & Hm1 & _).
  destruct (out_result (infer_docs collect Elt (map (map exp) Elt) 0 chunk g
                          sst 0 w1)) as [r1|e]; rewrite out_result_mk;
    [|reflexivity].
  destruct (snd (fst r1)) as [s1|].
  - rewrite bind_gets_run. unfold ret. rewrite out_result_mk, Hm1.
    reflexivity.
  - reflexivity.
Qed.

(** What [infer_docs] leaves in gamma: the rows before [d] are kept, and the
    row of each document of the chunk is the [gammad] that the loop returns
    for it, started from the row it found there. *)
Lemma infer_docs_spec (collect : bool) (Elt eElt : matrix) (w : World)
    (chunk : list doc) :
  forall d gamma sst converged r,
    out_result (infer_docs collect Elt eElt d chunk gamma sst converged w)
    = Ok r ->
    length (fst (fst r)) = length gamma /\
    (forall i, (i < d)%nat -> fst (fst r) !! i = gamma !! i) /\
    forall i dc,
      chunk !! i = Some dc ->
      exists g0 E0 X0 v conv,
        gamma !! (d + i)%nat = Some g0 /\
        Elt !! (d + i)%nat = Some E0 /\
        eElt !! (d + i)%nat = Some X0 /\
        estep_doc (alpha (model w)) (iterations (model w))
                  (gamma_threshold (model w)) (expElogbeta (model w))
                  dc g0 E0 X0 = Ok (v, conv) /\
        fst (fst r) !! (d + i)%nat = Some (gammad v).
Proof.
  induction chunk as [|dc rest IH]; intros d gamma sst converged r;
    cbn [infer_docs].
  - intros H. inversion H; subst r. cbn [fst snd].
    split; [reflexivity|]. split; [auto|]. intros i dc Hi.
    rewrite lookup_nil in Hi. discriminate.
  - rewrite bind_lift_run.
    destruct (np_lookup gamma d) as [g0|e] eqn:Hg0; [|discriminate].
    rewrite bind_lift_run.
    destruct (np_lookup Elt d) as [E0|e] eqn:HE0; [|discriminate].
    rewrite bind_lift_run.
    destruct (np_lookup eElt d) as [X0|e] eqn:HX0; [|discriminate].
    rewrite !bind_gets_run, bind_lift_run.
    destruct (estep_doc (alpha (model w)) (iterations (model w))
                (gamma_threshold (model w)) (expElogbeta (model w)) dc g0 E0 X0)
      as [[v conv]|e] eqn:He; [|discriminate].
    cbn [fst snd].
    apply np_lookup_ok in Hg0, HE0, HX0.
    assert (Hd : (d < length gamma)%nat) by (eapply lookup_lt_Some; eauto).
    assert (Hrest : forall sst' r,
      out_result (infer_docs collect Elt eElt (S d) rest
                    (<[d := gammad v]> gamma) sst'
                    (if conv then S converged else converged) w) = Ok r ->
      length (fst (fst r)) = length gamma /\
      (forall i, (i < d)%nat -> fst (fst r) !! i = gamma !! i) /\
      forall i dc0,
        (dc :: rest) !! i = Some dc0 ->
        exists g1 E1 X1 v1 conv1,
          gamma !! (d + i)%nat = Some g1 /\
          Elt !! (d + i)%nat = Some E1 /\
          eElt !! (d + i)%nat = Some X1 /\
          estep_doc (alpha (model w)) (iterations (model w))
                    (gamma_threshold (model w)) (expElogbeta (model w))
                    dc0 g1 E1 X1 = Ok (v1, conv1) /\
          fst (fst r) !! (d + i)%nat = Some (gammad v1)).
    { intros sst' r' Hr'.
      destruct (IH (S d) (<[d := gammad v]> gamma) sst'
                  (if conv then S converged else converged) r' Hr')
        as (Hlen & Hlow & Hrows).
      split; [by rewrite Hlen, length_insert|]. split.
      - intros i Hi. rewrite Hlow by lia.
        apply list_lookup_insert_ne. lia.
      - intros [|i] dc0 Hi.
        + cbn in Hi. inversion Hi; subst dc0.
          replace (d + 0)%nat with d by lia.
          exists g0, E0, X0, v, conv.
          split; [exact Hg0|]. split; [exact HE0|]. split; [exact HX0|].
          split; [exact He|].
          rewrite Hlow by lia. by apply list_lookup_insert_eq.
        + cbn in Hi.
          destruct (Hrows i dc0 Hi)
            as (g1 & E1 & X1 & v1 & conv1 & H1 & H2 & H3 & H4 & H5).
          replace (d + S i)%nat with (S d + i)%nat by lia.
          exists g1, E1, X1, v1, conv1.
          split; [|auto].
          rewrite list_lookup_insert_ne in H1 by lia. exact H1. }
    destruct sst as [s|].
    + rewrite bind_assoc_run, bind_lift_run.
      destruct (collect_doc s dc v) as [s1|e] eqn:Hc; [|discriminate].
      rewrite bind_ret_run. apply Hrest.
    + rewrite bind_ret_run. apply Hrest.
Qed.

(** [infer_docs] returns when the loop returns on every document of the
    chunk ([P] says which documents, [Q] which rows of [expElogtheta]). *)
Lemma infer_docs_returns (K : nat) (P : doc -> Prop) (Q : vec -> Prop)
    (collect : bool) (Elt eElt : matrix) (w : World) :
  (forall dc g0 E0 X0,
     P dc -> length g0 = K -> Q X0 ->
     exists v conv,
       estep_doc (alpha (model w)) (iterations (model w))
                 (gamma_threshold (model w)) (expElogbeta (model w))
                 dc g0 E0 X0 = Ok (v, conv) /\
       length (gammad v) = K /\
       forall s, exists s', collect_doc s dc v = Ok s') ->
  Forall Q eElt ->
  forall chunk,
    Forall P chunk ->
    forall d gamma sst converged,
      (d + length chunk <= length gamma)%nat ->
      (d + length chunk <= length Elt)%nat ->
      (d + length chunk <= length eElt)%nat ->
      Forall (fun g => length g = K) gamma ->
      exists r,
        out_result (infer_docs collect Elt eElt d chunk gamma sst converged w)
        = Ok r.
Proof.
  intros Hstep HQ chunk Hchunk.
  induction Hchunk as [|dc rest Hdc _ IH];
    intros d gamma sst converged Hg HE HX Hrows; cbn [infer_docs].
  - eexists. reflexivity.
  - cbn [length] in Hg, HE, HX.
    destruct (lookup_lt_is_Some_2 gamma d) as [g0 Hg0]; [lia|].
    destruct (lookup_lt_is_Some_2 Elt d) as [E0 HE0]; [lia|].
    destruct (lookup_lt_is_Some_2 eElt d) as [X0 HX0]; [lia|].
    unfold np_lookup. rewrite Hg0, HE0, HX0.
    rewrite !bind_lift_run, !bind_gets_run, bind_lift_run.
    destruct (Hstep dc g0 E0 X0 Hdc) as (v & conv & He & Hv & Hcol).
    { exact (Forall_lookup_1 (fun g => length g = K) gamma d g0 Hrows Hg0). }
    { exact (Forall_lookup_1 Q eElt d X0 HQ HX0). }
    rewrite He. cbn [fst snd].
    assert (Hnext : forall sst',
      exists r,
        out_result (infer_docs collect Elt eElt (S d) rest
                      (<[d := gammad v]> gamma) sst'
                      (if conv then S converged else converged) w) = Ok r).
    { intros sst'. apply IH; rewrite ?length_insert; try lia.
      by apply Forall_insert. }
    destruct sst as [s|].
    + rewrite bind_assoc_run, bind_lift_run.
      destruct (Hcol s) as [s' ->]. rewrite bind_ret_run. apply Hnext.
    + rewrite bind_ret_run. apply Hnext.
Qed.

Lemma collect_doc_empty (s : matrix) (v : doc_vars) :
  exists s', collect_doc s nil v = Ok s'.
Proof. unfold collect_doc. cbn. eauto. Qed.

(** C7.  For every empty document of a chunk, with [K >= 1] topics and at
    least one turn allowed: the normalizer [phinorm] is the empty array, so
    the loop on that document divides by nothing and returns; after one turn
    [gammad] is [alpha]; the loop ends with [gammad = alpha] ([alpha] is a
    fixed point whose turn has mean change [0], so with a positive threshold
    and a second turn allowed the loop leaves by [break]); whenever
    [inference] returns, the row of gamma it returns for that document is
    [alpha]; and on a chunk of empty documents [inference] does return, every
    row being [alpha].  (The generator draws [K] numbers per document.) *)
Theorem inference_empty_document_gamma_is_alpha (K : nat) (chunk : list doc)
    (collect : bool) (w : World) :
  draws_shape ->
  (0 < K)%nat -> num_topics (model w) = K ->
  length (alpha (model w)) = K -> length (expElogbeta (model w)) = K ->
  (1 <= iterations (model w))%Z ->
  let m := model w in
  let o := inference chunk collect w in
  let gamma0 := fst (random_gamma (rng w) (length chunk) K) in
  (forall d, chunk !! d = Some nil ->
     exists g0 v1 v conv,
       let E0 := dirichlet_expectation g0 in
       let B := map (fun _ : vec => nil) (expElogbeta m) in
       gamma0 !! d = Some g0 /\
       run_iters 1 (alpha m) nil B (mkVars g0 E0 (map exp E0) nil) = Ok v1 /\
       gammad v1 = alpha m /\
       estep_doc (alpha m) (iterations m) (gamma_threshold m) (expElogbeta m)
                 nil g0 E0 (map exp E0) = Ok (v, conv) /\
       gammad v = alpha m /\ phinorm v = nil /\
       (0 < gamma_threshold m -> (2 <= iterations m)%Z -> conv = true) /\
       forall r, out_result o = Ok r -> fst r !! d = Some (alpha m)) /\
  (Forall (fun dc => dc = nil) chunk ->
   exists r,
     out_result o = Ok r /\ length (fst r) = length chunk /\
     Forall (fun g => g = alpha m) (fst r)).
Proof.
  intros HD HK Hnt Ha Hb Hit m o gamma0.
  destruct (HD (rng w) (length chunk) K) as [Hg0len Hg0rows].
  fold gamma0 in Hg0len, Hg0rows.
  pose proof (inference_run chunk collect w) as Hrun. cbv zeta in Hrun.
  rewrite Hnt in Hrun. fold gamma0 o in Hrun.
  set (w1 := mkWorld (heap w) (model w)
               (snd (random_gamma (rng w) (length chunk) K))) in *.
  set (Elt := dirichlet_expectation2 gamma0) in *.
  set (sst := if collect then Some (zeros_like (expElogbeta (model w)))
              else None) in *.
  assert (Hrow : forall d,
            chunk !! d = Some nil ->
            forall r, out_result o = Ok r -> fst r !! d = Some (alpha m)).
  { intros d Hd r Hr. rewrite Hr in Hrun.
    destruct (out_result (infer_docs collect Elt (map (map exp) Elt) 0 chunk
                            gamma0 sst 0 w1)) as [r1|e] eqn:Hr1;
      [|discriminate].
    inversion Hrun; subst r. cbn [fst].
    destruct (infer_docs_spec collect Elt (map (map exp) Elt) w1 chunk O
                gamma0 sst O r1 Hr1) as (_ & _ & Hrows).
    destruct (Hrows d nil Hd)
      as (g0 & E0 & X0 & v & conv & H1 & H2 & H3 & H4 & H5).
    cbn [Nat.add] in H1, H2, H3, H5. rewrite H5. f_equal.
    assert (Hg0 : length g0 = K).
    { eapply (Forall_lookup_1 (fun r0 => length r0 = K)); eauto. }
    assert (HX0 : length X0 = K).
    { unfold Elt, dirichlet_expectation2 in H3.
      rewrite !list_lookup_fmap, H1 in H3. cbn in H3. inversion H3.
      unfold dirichlet_expectation. by rewrite !length_map. }
    destruct (estep_doc_empty K (alpha m) (iterations m) (gamma_threshold m)
                (expElogbeta m) g0 E0 X0 HK Ha Hb Hg0 HX0 Hit)
      as (_ & _ & _ & (v' & conv' & He & Hg & _) & _).
    change (model w1) with m in H4. rewrite H4 in He.
    inversion He; subst v'. exact Hg. }
  split.
  - intros d Hd.
    destruct (lookup_lt_is_Some_2 gamma0 d) as [g0 Hg0].
    { rewrite Hg0len. eapply lookup_lt_Some; eauto. }
    assert (Hg0l : length g0 = K).
    { eapply (Forall_lookup_1 (fun r0 => length r0 = K)); eauto. }
    assert (HX0 : length (map exp (dirichlet_expectation g0)) = K).
    { unfold dirichlet_expectation. by rewrite !length_map. }
    destruct (estep_doc_empty K (alpha m) (iterations m) (gamma_threshold m)
                (expElogbeta m) g0 (dirichlet_expectation g0)
                (map exp (dirichlet_expectation g0)) HK Ha Hb Hg0l HX0 Hit)
      as (_ & _ & (v1 & Hv1 & Hgv1 & _) & (v & conv & He & Hg & Hp & Hc) & _).
    exists g0, v1, v, conv. cbv zeta.
    split; [exact Hg0|]. split; [exact Hv1|]. split; [exact Hgv1|].
    split; [exact He|]. split; [exact Hg|]. split; [exact Hp|].
    split; [exact Hc|]. by apply Hrow.
  - intros Hall.
    destruct (infer_docs_returns K (fun dc => dc = nil)
                (fun X => length X = K) collect Elt (map (map exp) Elt) w1)
      with (chunk := chunk) (d := O) (gamma := gamma0) (sst := sst)
           (converged := O) as [r1 Hr1].
    + intros dc g0 E0 X0 -> Hg0 HX0. change (model w1) with m.
      destruct (estep_doc_empty K (alpha m) (iterations m)
                  (gamma_threshold m) (expElogbeta m) g0 E0 X0
                  HK Ha Hb Hg0 HX0 Hit)
        as (_ & _ & _ & (v & conv & He & Hg & _) & _).
      exists v, conv. split; [exact He|]. split; [by rewrite Hg|].
      intros s. apply collect_doc_empty.
    + unfold Elt, dirichlet_expectation2. apply Forall_fmap, Forall_fmap.
      eapply Forall_impl; [|exact Hg0rows]. intros row Hrow'. cbn.
      unfold dirichlet_expectation. rewrite !length_map. exact Hrow'.
    + exact Hall.
    + cbn. lia.
    + unfold Elt, dirichlet_expectation2. rewrite length_map. cbn. lia.
    + unfold Elt, dirichlet_expectation2. rewrite !length_map. cbn. lia.
    + exact Hg0rows.
    + rewrite Hr1 in Hrun. eexists. split; [exact Hrun|]. cbn [fst].
      destruct (infer_docs_spec collect Elt (map (map exp) Elt) w1 chunk O
                  gamma0 sst O r1 Hr1) as (Hlen & _ & _).
      split; [by rewrite Hlen|].
      apply Forall_lookup_2. intros d g Hdg.
      assert (Hd : (d < length chunk)%nat).
      { rewrite <- Hg0len, <- Hlen. eapply lookup_lt_Some; eauto. }
      destruct (lookup_lt_is_Some_2 chunk d Hd) as [dc Hdc].
      assert (dc = nil) by (eapply (Forall_lookup_1 (fun dc => dc = nil)); eauto).
      subst dc.
      specialize (Hrow d Hdc _ Hrun). cbn [fst] in Hrow. congruence.
Qed.

Section Returned.

Hypothesis exp_positive : forall x, 0 < exp x.


End Returned.

End Lda.

(** * The theorems at work on the concrete instance *)

Lemma stand_exp_pos (x : Qc) : 0 < stand_exp x.
Proof.
  unfold stand_exp. destruct (bool_decide (0 <= x)) eqn:Hx.
  - apply bool_decide_eq_true in Hx. by apply Qcplus_pos_nonneg.
  - apply bool_decide_eq_false in Hx. apply Qcnot_le_lt in Hx.
    apply Qclt_minus_iff in Hx. replace (0 + - x) with (- x) in Hx by ring.
    unfold Qcdiv. apply Qcmult_pos_pos; [done|]. apply Qcinv_pos.
    unfold Qcminus. apply Qcplus_pos_nonneg; [done|].
    by apply Qclt_le_weak.
Qed.

Lemma merge64_sum_commutative_witness :
  let a := state64_1x1 f64_0_1 2 in
  let b := state64_1x1 f64_0_2 5 in
  merge64 a b = merge64 b a /\ numdocs64 (merge64 a b) = 7%Z.
Proof.
  intros a b.
  destruct (merge64_sum_commutative 1 1 a b a) as ((_ & _ & Hn) & Hc & _).
  - split; [reflexivity | repeat constructor].
  - split; [reflexivity | repeat constructor].
  - split; [exact Hc | exact Hn].
Defined.

(** C3 as stated fails: on [sstats], [merge] is not associative.  Three
    states of one topic over one term holding [0.1], [0.2] and [0.3]: merged
    from the left the entry is [0.6000000000000001], merged from the right it
    is [0.6]. *)
Lemma merge64_not_associative :
  let a := state64_1x1 f64_0_1 1 in
  let b := state64_1x1 f64_0_2 1 in
  let c := state64_1x1 f64_0_3 1 in
  sstats64 (merge64 (merge64 a b) c)
  = (0x1.3333333333334p-1%float :: nil) :: nil /\
  sstats64 (merge64 a (merge64 b c))
  = (0x1.3333333333333p-1%float :: nil) :: nil /\
  sstats64 (merge64 (merge64 a b) c) <> sstats64 (merge64 a (merge64 b c)).
Proof.
  intros a b c. split; [vm_compute; reflexivity|].
  split; [vm_compute; reflexivity|].
  vm_compute. intros H. discriminate H.
Qed.

Lemma blend_formula_witness :
  let s := mkState (EtaFloat 1) (mat_const 1 1 1) 4 in
  let o := mkState (EtaFloat 1) (mat_const 1 1 (Z2Qc 3)) 2 in
  exists s', blend s (Q2Qc (1 # 2)) o None = Ok s' /\ numdocs s' = 4%Z.
Proof.
  intros s o.
  destruct (blend_formula 1 1 s o (Q2Qc (1 # 2)) None) as [(s' & H1 & H2 & _) _];
    try apply mat_shape_const.
  exists s'. split; [exact H1 | exact H2].
Defined.


(** A document and an empty one in one chunk: the row of the empty document
    is [alpha]; and a chunk of one empty document. *)
Lemma inference_empty_document_gamma_is_alpha_witness :
  let w := mkWorld nat ∅ model_1x1 O in
  (forall r,
     out_result _ (inference stand_psi stand_exp nat stand_random_gamma
                             (doc_1 :: nil :: nil) false w) = Ok r ->
     fst r !! 1%nat = Some (Q2Qc (1 # 2) :: nil)) /\
  exists r,
    out_result _ (inference stand_psi stand_exp nat stand_random_gamma
                            (nil :: nil) false w) = Ok r /\
    Forall (fun g => g = Q2Qc (1 # 2) :: nil) (fst r).
Proof.
  intros w. split.
  - destruct (inference_empty_document_gamma_is_alpha stand_psi stand_exp nat
                stand_random_gamma 1 (doc_1 :: nil :: nil) false w)
      as [Hrow _].
    + intros g n k. apply mat_shape_const.
    + lia.
    + reflexivity.
    + reflexivity.
    + reflexivity.
    + vm_compute. discriminate.
    + destruct (Hrow 1%nat eq_refl) as (g0 & v1 & v & conv & H).
      cbv zeta in H. destruct H as (_ & _ & _ & _ & _ & _ & _ & H).
      exact H.
  - destruct (inference_empty_document_gamma_is_alpha stand_psi stand_exp nat
                stand_random_gamma 1 (nil :: nil) false w)
      as [_ Hall].
    + intros g n k. apply mat_shape_const.
    + lia.
    + reflexivity.
    + reflexivity.
    + reflexivity.
    + vm_compute. discriminate.
    + destruct (Hall ltac:(repeat constructor)) as (r & Hr & _ & Hrows).
      exists r. split; [exact Hr | exact Hrows].
Defined.

Lemma update_alpha_keeps_alpha_positive_witness :
  let w := mkWorld nat heap_2x2 model_2x2 O in
  exists a',
    out_result _ (update_alpha stand_psi stand_trigamma nat
                             ((1 :: 1 :: nil) :: nil) (Q2Qc (1 # 2)) w)
    = Ok a' /\
    Forall (fun x => 0 < x) a'.
Proof.
  intros w.
  destruct (update_alpha_keeps_alpha_positive stand_psi stand_trigamma nat w
              ((1 :: 1 :: nil) :: nil) (Q2Qc (1 # 2)))
    as (logphat & a' & _ & Hrun & _ & _ & _ & Hpos).
  - discriminate.
  - repeat constructor.
  - exists a'. rewrite Hrun. split; [reflexivity | exact Hpos].
Defined.

(** A batch run of three allowed bound-iterations over two documents: the
    bound stops improving in the second, and both M-steps are called at
    [num_updates = 0] with the same [rho]. *)
Lemma update_learning_rate_schedule_witness :
  let w := mkWorld nat ∅ model_1x1 O in
  let a := mkArgs None None None None (Some 0%Z) (Some 1%Z) (Some 3%Z) None in
  let t := out_events _
             (update stand_psi stand_trigamma stand_exp stand_pow true nat
                     stand_random_gamma stand_print_topics stand_perwordbound
                     stand_grouper (doc_1 :: doc_1 :: nil) a w) in
  exists r r',
    In (EvMstep O O 0%Z r) t /\ In (EvMstep O 1 0%Z r') t /\ r = r'.
Proof.
  intros w a t.
  assert (H : exists r r',
             In (EvMstep O O 0%Z r) t /\ In (EvMstep O 1 0%Z r') t).
  { exists 1, 1. split; vm_compute; tauto. }
  destruct H as (r & r' & H1 & H2). exists r, r'.
  split; [exact H1|]. split; [exact H2|].
  destruct (update_learning_rate_schedule stand_psi stand_trigamma stand_exp
              stand_pow true nat stand_random_gamma stand_print_topics
              stand_perwordbound stand_grouper (doc_1 :: doc_1 :: nil) a w)
    as (_ & _ & _ & _ & _ & Hsame).
  apply (Hsame O O 1%nat 0%Z 0%Z r r'); [reflexivity | exact H1 | exact H2].
Defined.

(** C6 as stated fails under Python 2.  A model that has seen one document
    ([num_updates = 1]) is updated on two more in one chunk of two: the
    M-step is called at [num_updates = 1] and given
    [rho = (1 + 0 + 1 // 2) ^ (-1) = 1], where the formula of the
    specification gives [(1 + 0 + 1 / 2) ^ (-1) = 2/3]. *)
Lemma update_rate_as_specified_fails :
  let w := mkWorld nat ∅ (set_num_updates 1 model_1x1) O in
  let a := mkArgs (Some 2%Z) None None None None None None None in
  let corpus := doc_1 :: doc_1 :: nil in
  let c := update_cfg (set_num_updates 1 model_1x1) corpus a in
  let t := out_events _
             (update stand_psi stand_trigamma stand_exp stand_pow true nat
                     stand_random_gamma stand_print_topics stand_perwordbound
                     stand_grouper corpus a w) in
  In (EvMstep O O 1%Z 1) t /\
  rho_formula stand_pow true c O 1 = Ok 1 /\
  rho_as_specified stand_pow c O 1 = Ok (Q2Qc (2 # 3)) /\
  rho_as_specified stand_pow c O 1 <> rho_formula stand_pow true c O 1.
Proof.
  intros w a corpus c t.
  split; [vm_compute; tauto|].
  split; [vm_compute; reflexivity|].
  split; [vm_compute; reflexivity|].
  vm_compute. intros H. discriminate H.
Qed.

(** A configuration that [update] rejects, and one that it accepts with a
    negative [chunksize], on which the chunker raises. *)
Lemma update_rejects_configuration_witness :
  let w := mkWorld nat ∅ model_1x1 O in
  let upd := update stand_psi stand_trigamma stand_exp stand_pow true nat
                    stand_random_gamma stand_print_topics stand_perwordbound
                    stand_grouper in
  let a := mkArgs None None None None None None (Some 0%Z) None in
  let a' := mkArgs (Some (-1)%Z) None None None None None None None in
  (value_error (out_result _ (upd (doc_1 :: nil) a w)) /\
   out_events _ (upd (doc_1 :: nil) a w) = nil) /\
  (value_error (out_result _ (upd (doc_1 :: nil) a' w)) /\
   ~ has_step (out_events _ (upd (doc_1 :: nil) a' w))).
Proof.
  intros w upd a a'. split.
  - destruct (update_rejects_configuration stand_psi stand_trigamma stand_exp
                stand_pow true nat stand_random_gamma stand_print_topics
                stand_perwordbound stand_grouper (doc_1 :: nil) a w)
      as [_ H].
    destruct (H ltac:(discriminate)) as [Hrej _].
    apply Hrej. left. unfold update_cfg. simpl. lia.
  - destruct (update_rejects_configuration stand_psi stand_trigamma stand_exp
                stand_pow true nat stand_random_gamma stand_print_topics
                stand_perwordbound stand_grouper (doc_1 :: nil) a' w)
      as [_ H].
    destruct (H ltac:(discriminate)) as (_ & Hch & _).
    destruct Hch as (Hv & Hs); [|by split].
    split; [|split; [|split]].
    + unfold rejected. cbn. lia.
    + vm_compute. discriminate.
    + reflexivity.
    + split; [reflexivity | eexists; reflexivity].
Defined.

(** C8 as stated fails.  On an empty corpus [update] returns although
    [max_bound_iterations < 1]; and with a negative [update_every], which the
    code takes for online mode, it raises although none of the three stated
    conditions holds. *)
Lemma update_rejection_as_specified_fails :
  let w := mkWorld nat ∅ model_1x1 O in
  let upd := update stand_psi stand_trigamma stand_exp stand_pow true nat
                    stand_random_gamma stand_print_topics stand_perwordbound
                    stand_grouper in
  let a0 := mkArgs None None None None None None (Some 0%Z) None in
  let a1 := mkArgs None None None None (Some (-1)%Z) (Some 1%Z) (Some 2%Z)
                   None in
  (rejected_as_specified (update_cfg model_1x1 nil a0) /\
   upd nil a0 w = (Ok tt, w, nil)) /\
  (~ rejected_as_specified (update_cfg model_1x1 (doc_1 :: nil) a1) /\
   value_error (out_result _ (upd (doc_1 :: nil) a1 w)) /\
   out_events _ (upd (doc_1 :: nil) a1 w) = nil).
Proof.
  intros w upd a0 a1. split; split.
  - left. vm_compute. reflexivity.
  - vm_compute. reflexivity.
  - unfold rejected_as_specified. cbn. lia.
  - split.
    + vm_compute. eexists. reflexivity.
    + vm_compute. reflexivity.
Qed.

(** The stale cache on the concrete instance: [eta='auto'], two topics over
    two terms, [rho = 1/2].  [do_mstep] returns, the Newton step on [eta] is
    accepted, and [expElogbeta] is no longer
    [exp(dirichlet_expectation(lambda))] for the current [lambda]. *)
Lemma do_mstep_stale_cache_example :
  let w := mkWorld nat heap_2x2 model_2x2 O in
  let o := do_mstep stand_psi stand_trigamma stand_exp nat stand_print_topics
                    (Q2Qc (1 # 2)) other_2x2 false w in
  out_result _ o = Ok tt /\
  heap _ (out_world _ o) <> heap _ w /\
  expElogbeta (model _ (out_world _ o))
  <> map (map stand_exp)
         (get_Elogbeta stand_psi (heap _ (out_world _ o))
                       (state (model _ (out_world _ o)))).
Proof.
  intros w o. split; [reflexivity|]. split.
  - intros H. apply (f_equal (fun h => h !! O)) in H.
    vm_compute in H. discriminate H.
  - vm_compute. discriminate.
Qed.

(** ** The further properties at work on the concrete instance *)

Lemma reset_then_merge_gives_other_witness :
  let s := mkState (EtaFloat 1) (mat_const 1 1 (Z2Qc 3)) 4 in
  let o := mkState (EtaFloat 1) (mat_const 1 1 1) 2 in
  merge (reset s) o = mkState (EtaFloat 1) (mat_const 1 1 1) 2.
Proof.
  intros s o.
  destruct (reset_then_merge_gives_other 1 1 s o) as (_ & H & _);
    try apply mat_shape_const.
  exact H.
Defined.

Lemma blend_at_rho_0_and_1_witness :
  let s := mkState (EtaFloat 1) (mat_const 1 1 (Z2Qc 3)) 4 in
  let o := mkState (EtaFloat 1) (mat_const 1 1 1) 2 in
  blend s 0 o None = Ok s /\
  blend s 1 o (Some 2%Z) = Ok (mkState (EtaFloat 1) (mat_const 1 1 1) 2).
Proof.
  intros s o.
  destruct (blend_at_rho_0_and_1 1 1 s o None) as (_ & _ & H0 & H1);
    try apply mat_shape_const.
  split; [exact H0 | exact H1].
Defined.

Lemma blend_keeps_sstats_nonneg_witness :
  let s := mkState (EtaFloat 1) (mat_const 1 1 (Z2Qc 3)) 4 in
  let o := mkState (EtaFloat 1) (mat_const 1 1 1) 2 in
  exists s', blend s (Q2Qc (1 # 2)) o None = Ok s' /\ mat_nonneg (sstats s').
Proof.
  intros s o.
  destruct (blend_keeps_sstats_nonneg 1 1 s o (Q2Qc (1 # 2)) None)
    as (s' & H & _ & Hnn & _);
    try apply mat_shape_const; try (simpl; lia); try discriminate;
    try (repeat constructor; discriminate).
  exists s'. split; [exact H | exact Hnn].
Defined.

(** Two documents in chunks of one, online: two M-steps, and the counter
    ends at [2]. *)
Lemma update_advances_num_updates_witness :
  let w := mkWorld nat ∅ model_1x1 O in
  let o := update stand_psi stand_trigamma stand_exp stand_pow false nat
                  stand_random_gamma stand_print_topics stand_perwordbound
                  stand_grouper (doc_1 :: doc_1 :: nil) no_args w in
  num_updates (model _ (out_world _ o)) = 2%Z.
Proof.
  intros w o.
  apply (update_advances_num_updates stand_psi stand_trigamma stand_exp
           stand_pow false nat stand_random_gamma stand_print_topics
           stand_perwordbound stand_grouper (doc_1 :: doc_1 :: nil) no_args w).
  - intros g n k. apply mat_shape_const.
  - discriminate.
  - vm_compute. discriminate.
  - vm_compute. reflexivity.
Defined.


Lemma inference_raises_on_unknown_term_witness :
  let w := mkWorld nat ∅ model_1x1 O in
  out_result _ (inference stand_psi stand_exp nat stand_random_gamma
                          (((5%nat, 1) :: nil) :: nil) false w)
  = Raise IndexError.
Proof.
  intros w.
  destruct (inference_raises_on_unknown_term stand_psi stand_exp nat
              stand_random_gamma 1 1 (((5%nat, 1) :: nil) :: nil) false w)
    as (_ & H & _).
  - apply mat_shape_const.
  - lia.
  - constructor. constructor. simpl. lia.
  - apply (H _ _ eq_refl). constructor. simpl. lia.
Defined.

(** The constructor on one topic over one term, with [algorithm='online']. *)
Lemma init_establishes_model_witness :
  let a := mkInit None 1 (Some (O :: nil)) None 1 None AlphaSymmetric EtaNone
                  (Q2Qc (1 # 2)) 1 None 2 (Q2Qc (1 # 1000))
                  (Some "online"%string) None (Q2Qc (1 # 1000)) in
  let w := mkWorld nat ∅ model_1x1 O in
  let m := model _ (out_world _
             (LdaModel_init stand_psi stand_trigamma stand_exp stand_pow false
                            nat stand_random_gamma stand_print_topics
                            stand_perwordbound stand_grouper
                            9223372036854775807%Z (fun x => x) (fun _ => O)
                            a w)) in
  length (alpha m) = 1%nat /\ num_updates m = 0%Z.
Proof.
  intros a w m.
  assert (Hc : i_corpus a = None) by reflexivity.
  assert (Hok : out_result _
            (LdaModel_init stand_psi stand_trigamma stand_exp stand_pow false
                           nat stand_random_gamma stand_print_topics
                           stand_perwordbound stand_grouper
                           9223372036854775807%Z (fun x => x) (fun _ => O)
                           a w) = Ok tt)
    by (vm_compute; reflexivity).
  pose proof (init_establishes_model stand_psi stand_trigamma stand_exp
                stand_pow false nat stand_random_gamma stand_print_topics
                stand_perwordbound stand_grouper 9223372036854775807%Z
                (fun x => x) (fun _ => O) a w Hc Hok) as H.
  cbv zeta in H. destruct H as (_ & Hk & Hal & Hn & _).
  split; [|exact Hn]. unfold m. rewrite Hal. exact Hk.
Defined.

Lemma init_algorithm_presets_witness :
  let a := mkInit None 1 (Some (O :: nil)) None 1 None AlphaSymmetric EtaNone
                  (Q2Qc (1 # 2)) 1 None 2 (Q2Qc (1 # 1000))
                  (Some "online"%string) None (Q2Qc (1 # 1000)) in
  let w := mkWorld nat ∅ model_1x1 O in
  let m := model _ (out_world _
             (LdaModel_init stand_psi stand_trigamma stand_exp stand_pow false
                            nat stand_random_gamma stand_print_topics
                            stand_perwordbound stand_grouper
                            9223372036854775807%Z (fun x => x) (fun _ => O)
                            a w)) in
  (0 < update_every m)%Z /\ max_bound_iterations m = 1%Z.
Proof.
  intros a w m.
  assert (Hc : i_corpus a = None) by reflexivity.
  assert (Hok : out_result _
            (LdaModel_init stand_psi stand_trigamma stand_exp stand_pow false
                           nat stand_random_gamma stand_print_topics
                           stand_perwordbound stand_grouper
                           9223372036854775807%Z (fun x => x) (fun _ => O)
                           a w) = Ok tt)
    by (vm_compute; reflexivity).
  pose proof (init_algorithm_presets stand_psi stand_trigamma stand_exp
                stand_pow false nat stand_random_gamma stand_print_topics
                stand_perwordbound stand_grouper 9223372036854775807%Z
                (fun x => x) (fun _ => O) a w Hc Hok) as H.
  cbv zeta in H. destruct H as [Hon _].
  destruct (Hon eq_refl) as (Hue & Hmbi & _).
  split; [exact Hue | exact Hmbi].
Defined.

Lemma do_estep_keeps_sstats_nonneg_witness :
  let w := mkWorld nat ∅ model_1x1 O in
  let st := mkState (EtaFloat (Q2Qc (1 # 2))) (mat_const 1 1 0) 0 in
  exists gamma st',
    out_result _ (do_estep stand_psi stand_exp nat stand_random_gamma
                           (doc_1 :: nil) st w) = Ok (gamma, st') /\
    mat_nonneg (sstats st').
Proof.
  intros w st.
  assert (Hr : exists gamma st',
             out_result _ (do_estep stand_psi stand_exp nat stand_random_gamma
                                    (doc_1 :: nil) st w) = Ok (gamma, st')).
  { vm_compute. eauto. }
  destruct Hr as (gamma & st' & Hr). exists gamma, st'.
  split; [exact Hr|].
  apply (do_estep_keeps_sstats_nonneg stand_psi stand_exp nat
           stand_random_gamma stand_exp_pos 1 1 (doc_1 :: nil) st w gamma st').
  - intros g n k. apply mat_shape_const.
  - reflexivity.
  - reflexivity.
  - apply mat_shape_const.
  - repeat constructor. discriminate.
  - repeat constructor. discriminate.
  - apply mat_shape_const.
  - repeat constructor. discriminate.
  - exact Hr.
Defined.
